(** * Skybrush server: the Cascade ERP demo extension and the flockctrl
      mission templates, embedded from the Python sources

    - [src/flockwave/server/ext/flockctrl/mission_templates.py]
    - [src/flockwave/server/ext/cascade_demo.py]

    Python values are embedded as an inductive type of JSON-like values,
    binary64 floats as [spec_float] (precision 53, infinities at exponent
    1024), dictionaries keyed by strings as [gmap string _] where only
    lookups matter and as association lists where insertion order does,
    objects that are mutated through several references (the [Trip]
    instances) as cells of an explicit heap. *)

From Stdlib Require Import ZArith Lia List Bool Ascii String.
From Stdlib Require Import Floats.SpecFloat.
From Stdlib Require Import Sorting.Sorted Sorting.Permutation.
From stdpp Require Import base option list strings pretty gmap sorting.

Set Warnings "-register-all".

Local Open Scope string_scope.
Local Open Scope Z_scope.

(** ** Python prelude *)

Module Py.

(** Exceptions the embedded code can raise; the two last ones are those
    of a send on a memory channel whose receiving end, or whose own end,
    has been closed. *)
Inductive exn : Type :=
  | TypeError | ValueError | OverflowError | KeyError | IndexError
  | AttributeError
  | BrokenResourceError | ClosedResourceError.

(** A computation either returns or raises. *)
Inductive result (A : Type) : Type :=
  | Ok (a : A)
  | Raise (e : exn).
Global Arguments Ok {A} a.
Global Arguments Raise {A} e.

#[global] Instance result_ret : MRet result := fun A a => Ok a.
#[global] Instance result_bind : MBind result := fun A B k r =>
  match r with
  | Ok a => k a
  | Raise e => Raise e
  end.

(** binary64 *)
Definition prec : Z := 53.
Definition emax : Z := 1024.
Abbreviation float := spec_float.

Definition flt (x y : float) : bool := SFltb x y.
Definition fle (x y : float) : bool := SFleb x y.
Definition fzero : float := S754_zero false.

(** [float(n)] for a Python int: the nearest binary64 (ties to even),
    [OverflowError] when it is out of range. *)
Definition float_of_int (n : Z) : result float :=
  match binary_normalize prec emax n 0 false with
  | S754_infinity _ => Raise OverflowError
  | f => Ok f
  end.

(** [a / b] on Python ints (true division): the correctly rounded
    quotient, [OverflowError] when it is too large for a float. The
    divisor is positive at every use in the embedded code. *)
Definition int_truediv (a : Z) (b : positive) : result float :=
  match a with
  | Z0 => Ok fzero
  | Zpos p =>
      match SFdiv prec emax (S754_finite false p 0) (S754_finite false b 0) with
      | S754_infinity _ => Raise OverflowError
      | f => Ok f
      end
  | Zneg p =>
      match SFdiv prec emax (S754_finite true p 0) (S754_finite false b 0) with
      | S754_infinity _ => Raise OverflowError
      | f => Ok f
      end
  end.

(** [int(x)] for a float: truncation towards zero; NaN and the
    infinities raise. *)
Definition int_of_float (f : float) : result Z :=
  match f with
  | S754_zero _ => Ok 0
  | S754_nan => Raise ValueError
  | S754_infinity _ => Raise OverflowError
  | S754_finite s m e =>
      let a := if (0 <=? e) then Z.shiftl (Zpos m) e
               else Z.shiftr (Zpos m) (- e) in
      Ok (if s then - a else a)
  end.

(** JSON-like Python values: what a decoded message body or a
    configuration object holds. *)
Inductive val : Type :=
  | VNone
  | VBool (b : bool)
  | VInt (z : Z)
  | VFloat (f : float)
  | VStr (s : string)
  | VList (l : list val)
  | VDict (d : list (string * val)).

(** Truth value of an object ([if x:], [x or y], [not x]). *)
Definition truthy (v : val) : bool :=
  match v with
  | VNone => false
  | VBool b => b
  | VInt z => negb (z =? 0)
  | VFloat f => negb (SFeqb f fzero)
  | VStr s => negb (String.eqb s "")
  | VList l => match l with [] => false | _ => true end
  | VDict d => match d with [] => false | _ => true end
  end.

Definition is_str (v : val) : bool :=
  match v with VStr _ => true | _ => false end.

(** [dict.get(key)] on an insertion-ordered dictionary: [None] when the
    key is absent. *)
Fixpoint assoc_get (d : list (string * val)) (k : string) : option val :=
  match d with
  | [] => None
  | (k', v) :: d' => if String.eqb k' k then Some v else assoc_get d' k
  end.

Definition dict_get (d : list (string * val)) (k : string) : val :=
  default VNone (assoc_get d k).

(** A [str] is held as its UTF-8 bytes, and indexed by code point. A byte
    of the form [10xxxxxx] continues the code point that the nearest
    earlier byte of another form starts. *)
Definition is_continuation (c : ascii) : bool :=
  let n := nat_of_ascii c in
  ((128 <=? n) && (n <? 192))%nat.

(** The continuation bytes a string begins with, and the code points
    after them; a [str] begins with none. *)
Fixpoint utf8_split (s : string) : string * list string :=
  match s with
  | EmptyString => (EmptyString, [])
  | String c s' =>
      let '(pre, cps) := utf8_split s' in
      if is_continuation c then (String c pre, cps)
      else (EmptyString, String c pre :: cps)
  end.

Definition code_points (s : string) : list string := (utf8_split s).2.

(** [obj[i]] for a small non-negative literal index. The keys of a
    dictionary are strings here, so an integer is none of them. *)
Definition getitem (obj : val) (i : nat) : result val :=
  match obj with
  | VList l => match l !! i with Some v => Ok v | None => Raise IndexError end
  | VStr s =>
      match code_points s !! i with
      | Some c => Ok (VStr c)
      | None => Raise IndexError
      end
  | VDict _ => Raise KeyError
  | _ => Raise TypeError
  end.

(** The builtins whose full behaviour is not reproduced here: parsing of
    an integer or a float out of a string, and the shortest [repr] of a
    float. Everything below holds for any implementation of them. *)
Class Builtins : Type := {
  int_of_str : string → option Z;
  float_of_str : string → option float;
  float_repr : float → string
}.

(** An implementation that parses no string, for running the code on
    inputs that hold none to parse. *)
Definition plain_builtins : Builtins :=
  {| int_of_str := fun _ => None;
     float_of_str := fun _ => None;
     float_repr := fun _ => "" |}.

Section WithBuiltins.
Context `{Builtins}.

(** [int(x)] *)
Definition int (v : val) : result Z :=
  match v with
  | VNone => Raise TypeError
  | VBool b => Ok (if b then 1 else 0)
  | VInt z => Ok z
  | VFloat f => int_of_float f
  | VStr s => match int_of_str s with Some z => Ok z | None => Raise ValueError end
  | VList _ => Raise TypeError
  | VDict _ => Raise TypeError
  end.

(** [float(x)] *)
Definition to_float (v : val) : result float :=
  match v with
  | VNone => Raise TypeError
  | VBool b => float_of_int (if b then 1 else 0)
  | VInt z => float_of_int z
  | VFloat f => Ok f
  | VStr s => match float_of_str s with Some f => Ok f | None => Raise ValueError end
  | VList _ => Raise TypeError
  | VDict _ => Raise TypeError
  end.
End WithBuiltins.

(** *** Fixed-point formatting, [format(x, ".Nf")] *)

(** [|x| * 10^d] rounded to the nearest integer, ties to even, for a
    finite float of mantissa [m] and exponent [e]. *)
Definition scaled_round (d : nat) (m : positive) (e : Z) : Z :=
  let num := Zpos m * 10 ^ Z.of_nat d in
  if 0 <=? e then Z.shiftl num e
  else
    let den := 2 ^ (- e) in
    let q := num / den in
    let r := num mod den in
    match Z.compare (2 * r) den with
    | Lt => q
    | Gt => q + 1
    | Eq => if Z.even q then q else q + 1
    end.

Definition zero_pad (d : nat) (s : string) : string :=
  String.concat "" (replicate (d - String.length s)%nat "0") +:+ s.

Definition fixed_digits (d : nat) (n : Z) : string :=
  let p := 10 ^ Z.of_nat d in
  match d with
  | O => pretty (n / p)
  | _ => pretty (n / p) +:+ "." +:+ zero_pad d (pretty (n mod p))
  end.

Definition format_f (d : nat) (x : float) : string :=
  match x with
  | S754_nan => "nan"
  | S754_infinity s => if s then "-inf" else "inf"
  | S754_zero s => (if s then "-" else "") +:+ fixed_digits d 0
  | S754_finite s m e =>
      (if s then "-" else "") +:+ fixed_digits d (scaled_round d m e)
  end.

(** *** [str.format] *)

(** The arguments the templates of this program are formatted with:
    strings and numbers. *)
Inductive arg : Type :=
  | AStr (s : string)
  | AInt (z : Z)
  | AFloat (f : float).

(** A replacement field: which argument, and its format spec. *)
Inductive field_name : Type :=
  | Auto
  | Named (n : string).

Inductive spec : Type :=
  | SNone
  | SFixed (d : nat).

Inductive piece : Type :=
  | Lit (s : string)
  | Field (f : field_name) (sp : spec).

(** Decimal digits of a precision. *)
Definition digit_of (c : ascii) : option nat :=
  let n := nat_of_ascii c in
  if ((48 <=? n) && (n <=? 57))%nat then Some (n - 48)%nat else None.

Fixpoint digits_to_nat (s : string) (acc : nat) : option nat :=
  match s with
  | EmptyString => Some acc
  | String c s' =>
      match digit_of c with
      | Some d => digits_to_nat s' (10 * acc + d)%nat
      | None => None
      end
  end.

(** The format specs that occur: none, or [.Nf]. *)
Definition parse_spec (s : string) : option spec :=
  match s with
  | EmptyString => Some SNone
  | String "." rest =>
      match String.length rest with
      | O => None
      | S n =>
          if String.eqb (String.substring n 1 rest) "f"
          then match String.substring 0 n rest with
               | EmptyString => None
               | ds => SFixed <$> digits_to_nat ds 0
               end
          else None
      end
  | _ => None
  end.

(** The field names that occur: empty (automatic numbering) or an
    identifier naming a keyword argument. *)
Definition ident_char (c : ascii) : bool :=
  let n := nat_of_ascii c in
  ((97 <=? n) && (n <=? 122) || (65 <=? n) && (n <=? 90) || (n =? 95))%nat.

Fixpoint all_ident (s : string) : bool :=
  match s with
  | EmptyString => true
  | String c s' => ident_char c && all_ident s'
  end.

Definition parse_name (s : string) : option field_name :=
  match s with
  | EmptyString => Some Auto
  | _ => if all_ident s then Some (Named s) else None
  end.

(** Scanner state while reading a template. *)
Inductive mode : Type :=
  | Text (lit : string)
  | Name (lit : string) (name : string)
  | Spec (lit : string) (name : string) (sp : string).

Definition snoc (s : string) (c : ascii) : string := s +:+ String c EmptyString.

Definition emit (lit : string) (ps : list piece) : list piece :=
  match lit with
  | EmptyString => ps
  | _ => (ps ++ [Lit lit])%list
  end.

Definition close_field (lit name sp : string) (ps : list piece)
  : option (list piece) :=
  n ← parse_name name;
  f ← parse_spec sp;
  Some (emit lit ps ++ [Field n f])%list.

(** Splits a template into literal text and replacement fields; [{{] and
    [}}] stand for single braces. [None] on a template outside the
    fragment above (conversions, attribute or index access, numbered
    fields, other specs) and on a malformed one. *)
Fixpoint parse (t : string) (m : mode) (ps : list piece) : option (list piece) :=
  match t with
  | EmptyString =>
      match m with
      | Text lit => Some (emit lit ps)
      | _ => None
      end
  | String c t' =>
      match m with
      | Text lit =>
          if Ascii.eqb c "{" then
            match t' with
            | String "{" t'' => parse t'' (Text (snoc lit "{")) ps
            | _ => parse t' (Name lit "") ps
            end
          else if Ascii.eqb c "}" then
            match t' with
            | String "}" t'' => parse t'' (Text (snoc lit "}")) ps
            | _ => None
            end
          else parse t' (Text (snoc lit c)) ps
      | Name lit name =>
          if Ascii.eqb c "}" then
            ps' ← close_field lit name "" ps; parse t' (Text "") ps'
          else if Ascii.eqb c ":" then parse t' (Spec lit name "") ps
          else parse t' (Name lit (snoc name c)) ps
      | Spec lit name sp =>
          if Ascii.eqb c "}" then
            ps' ← close_field lit name sp ps; parse t' (Text "") ps'
          else parse t' (Spec lit name (snoc sp c)) ps
      end
  end.

Section Format.
Context `{Builtins}.

(** [format(value, spec)] *)
Definition format_arg (sp : spec) (a : arg) : result string :=
  match sp, a with
  | SNone, AStr s => Ok s
  | SNone, AInt z => Ok (pretty z)
  | SNone, AFloat f => Ok (float_repr f)
  | SFixed _, AStr _ => Raise ValueError
  | SFixed d, AInt z => f ← float_of_int z; Ok (format_f d f)
  | SFixed d, AFloat f => Ok (format_f d f)
  end.

Fixpoint kw_get (kw : list (string * arg)) (n : string) : option arg :=
  match kw with
  | [] => None
  | (k, a) :: kw' => if String.eqb k n then Some a else kw_get kw' n
  end.

(** Fields are substituted left to right; [i] is the next automatic
    index. *)
Fixpoint render (ps : list piece) (i : nat) (pos : list arg)
    (kw : list (string * arg)) : result string :=
  match ps with
  | [] => Ok ""
  | Lit s :: ps' => r ← render ps' i pos kw; Ok (s +:+ r)
  | Field Auto sp :: ps' =>
      match pos !! i with
      | None => Raise IndexError
      | Some a =>
          s ← format_arg sp a;
          r ← render ps' (S i) pos kw;
          Ok (s +:+ r)
      end
  | Field (Named n) sp :: ps' =>
      match kw_get kw n with
      | None => Raise KeyError
      | Some a =>
          s ← format_arg sp a;
          r ← render ps' i pos kw;
          Ok (s +:+ r)
      end
  end.

(** [template.format] on positional and keyword arguments:
    [ValueError] on a malformed template. Only the templates of this
    program are formatted, and they are in the fragment [parse]
    covers. *)
Definition format (template : string) (pos : list arg)
    (kw : list (string * arg)) : result string :=
  match parse template (Text "") [] with
  | Some ps => render ps 0 pos kw
  | None => Raise ValueError
  end.
End Format.

End Py.

(** ** flockctrl/mission_templates.py *)

Module MissionTemplates.
Import Py.

Section WithBuiltins.
Context `{Builtins}.

(** [x >= 0] for a template argument. *)
Definition ge_zero (x : arg) : result bool :=
  match x with
  | AStr _ => Raise TypeError
  | AInt z => Ok (0 <=? z)
  | AFloat f => Ok (fle fzero f)
  end.

Definition gps_coordinate_to_string (lat lon : arg) : result string :=
  ns ← ge_zero lat;
  ew ← ge_zero lon;
  let NS := if ns : bool then "N" else "S" in
  let EW := if ew : bool then "E" else "W" in
  format "{}{:.8f} {}{:.8f}" [AStr NS; lat; AStr EW; lon] [].
End WithBuiltins.

End MissionTemplates.

(** ** cascade_demo.py *)

Module CascadeDemo.
Import Py.

Definition WAYPOINT_INIT_STR : string :=
"# this is a waypoint file generated by flockwave-server

[init]
#angle=
ground_altitude=0
#origin=

[waypoints]
motoroff=10
".

Definition WAYPOINT_STR : string :=
"
# taking off towards station '{station}'
motoron=5
takeoff=5 4 1 0
waypoint=N{lat:.8f} E{lon:.8f} {agl:.2f} {velocity_xy:.2f} {velocity_z:.2f} 5 0
# landing at station '{station}'
land=4 1 0
motoroff=10
".

(** [flockwave.gps.vectors.GPSCoordinate] belongs to another package; it
    is modelled as a record of floats whose constructor converts its
    arguments with [float()]. *)
Record GPSCoordinate : Type := {
  lat : float;
  lon : float;
  agl : float
}.

Record Station : Type := {
  id : string;
  position : GPSCoordinate
}.

Inductive TripStatus : Type :=
  | NEW
  | UPLOADING
  | UPLOADED
  | ERROR.

#[global] Instance TripStatus_eq_dec : EqDecision TripStatus.
Proof. solve_decision. Defined.

(** The members of the enumeration in definition order, with their
    names and values. *)
Definition TripStatus_members : list TripStatus := [NEW; UPLOADING; UPLOADED; ERROR].

Definition TripStatus_name (s : TripStatus) : string :=
  match s with
  | NEW => "NEW"
  | UPLOADING => "UPLOADING"
  | UPLOADED => "UPLOADED"
  | ERROR => "ERROR"
  end.

Definition TripStatus_value (s : TripStatus) : string :=
  match s with
  | NEW => "new"
  | UPLOADING => "uploading"
  | UPLOADED => "uploaded"
  | ERROR => "error"
  end.

(** [TripStatus[name]]: the member of that name, [KeyError] otherwise. *)
Definition TripStatus_getitem (name : string) : result TripStatus :=
  match List.find (fun s => String.eqb (TripStatus_name s) name) TripStatus_members with
  | Some s => Ok s
  | None => Raise KeyError
  end.

Record Trip : Type := {
  uav_id : string;
  start_time : float;
  route : list string;
  status : TripStatus
}.

(** [Trip(uav_id=..., start_time=..., route=...)]: the status takes its
    default. *)
Definition new_Trip (u : string) (t : float) (r : list string) : Trip :=
  {| uav_id := u; start_time := t; route := r; status := NEW |}.

Definition set_status (s : TripStatus) (t : Trip) : Trip :=
  {| uav_id := uav_id t; start_time := start_time t; route := route t;
     status := s |}.

(** Replies of the message hub. *)
Inductive reply : Type :=
  | acknowledge
  | reject (reason : string).

(** An [async] handler: it returns, raises, or awaits a send on the
    command queue and goes on. *)
Inductive async (A : Type) : Type :=
  | Return (a : A)
  | Throw (e : exn)
  | AwaitSend (item : string) (k : async A).
Global Arguments Return {A} a.
Global Arguments Throw {A} e.
Global Arguments AwaitSend {A} item k.

(** What the background task is doing: waiting for the next id, or
    inside [upload_trip_to_uav] at [await sleep(5)], holding the trip
    object it read. *)
Inductive consumer_state : Type :=
  | Idle
  | Sleeping (trip : nat).

(** The extension object. Trips are objects of a heap (a reference is an
    index into it) since [upload_trip_to_uav] keeps one across an await
    and updates it in place; [_trips] maps an id to a reference. The
    command queue is the buffer of the memory channel, with the senders
    parked on a full buffer behind it. *)
Record state : Type := {
  _stations : list (string * Station);
  heap : list Trip;
  _trips : gmap string nat;
  queue : list string;
  parked : list string;
  consumer : consumer_state
}.

Definition QUEUE_CAPACITY : nat := 32.

Definition initial : state :=
  {| _stations := []; heap := []; _trips := ∅; queue := []; parked := [];
     consumer := Idle |}.

Definition with_stations (st : state) (s : list (string * Station)) : state :=
  {| _stations := s; heap := heap st; _trips := _trips st; queue := queue st;
     parked := parked st; consumer := consumer st |}.

Definition with_heap (st : state) (h : list Trip) : state :=
  {| _stations := _stations st; heap := h; _trips := _trips st;
     queue := queue st; parked := parked st; consumer := consumer st |}.

Definition with_trips (st : state) (m : gmap string nat) : state :=
  {| _stations := _stations st; heap := heap st; _trips := m;
     queue := queue st; parked := parked st; consumer := consumer st |}.

Definition with_queue (st : state) (q p : list string) : state :=
  {| _stations := _stations st; heap := heap st; _trips := _trips st;
     queue := q; parked := p; consumer := consumer st |}.

Definition with_consumer (st : state) (c : consumer_state) : state :=
  {| _stations := _stations st; heap := heap st; _trips := _trips st;
     queue := queue st; parked := parked st; consumer := c |}.

(** The trip stored for an id, read through the heap. *)
Definition trip_of (st : state) (u : string) : option Trip :=
  r ← _trips st !! u; heap st !! r.

(** [sorted] on strings: a stable merge sort by code point order, which
    is byte order here. *)
Definition sorted (l : list string) : list string :=
  merge_sort String.le l.

(** [isinstance(x, int)], with the integer when it holds ([bool] is a
    subclass of [int]). *)
Definition as_int (v : val) : option Z :=
  match v with
  | VInt z => Some z
  | VBool b => Some (if b then 1 else 0)
  | _ => None
  end.

Definition as_str (v : val) : option string :=
  match v with VStr s => Some s | _ => None end.

Section Operations.
Context `{Builtins}.

Definition GPSCoordinate_new (lat lon agl : val) : result GPSCoordinate :=
  la ← to_float lat;
  lo ← to_float lon;
  ag ← to_float agl;
  Ok {| lat := la; lon := lo; agl := ag |}.

(** [Station.from_json] *)
Definition Station_from_json (obj : val) (id : string) : result Station :=
  o0 ← getitem obj 0;
  o1 ← getitem obj 1;
  pos ← GPSCoordinate_new o1 o0 (VInt 0);
  Ok {| id := id; position := pos |}.

(** [configure_stations]; the logging at its end has no effect on the
    state. *)
Definition configure_stations (stations : val) (st : state) : result state :=
  let stations := if truthy stations then stations else VDict [] in
  match stations with
  | VDict d =>
      let station_ids := sorted (d.*1) in
      ss ← mapM (fun station_id =>
                   match assoc_get d station_id with
                   | None => Raise KeyError
                   | Some obj =>
                       s ← Station_from_json obj station_id;
                       Ok (station_id, s)
                   end) station_ids;
      Ok (with_stations st ss)
  | _ => Raise AttributeError
  end.

(** [configure]; [ExtensionBase.configure] is not part of these sources
    and does not touch the fields modelled here. *)
Definition configure (configuration : list (string * val)) (st : state)
  : result state :=
  configure_stations (dict_get configuration "stations") st.

(** [self._stations[name]] *)
Fixpoint stations_getitem (ss : list (string * Station)) (name : string)
  : result Station :=
  match ss with
  | [] => Raise KeyError
  | (k, s) :: ss' => if String.eqb k name then Ok s else stations_getitem ss' name
  end.

(** [self._trips[key]] on [defaultdict(Trip)]: a missing key calls
    [Trip()] without its required arguments, a [TypeError], and stores
    nothing. Keys of the dictionary are strings. *)
Definition trips_getitem (st : state) (key : val) : result Trip :=
  match key with
  | VStr u =>
      match trip_of st u with
      | Some t => Ok t
      | None => Raise TypeError
      end
  | _ => Raise TypeError
  end.

Definition waypoint_block (st : state) (velocity_xy velocity_z agl : arg)
    (name : string) : result string :=
  s ← stations_getitem (_stations st) name;
  let pos := position s in
  format WAYPOINT_STR []
    [("station", AStr name); ("lat", AFloat (lat pos));
     ("lon", AFloat (lon pos)); ("agl", agl);
     ("velocity_xy", velocity_xy); ("velocity_z", velocity_z)].

Definition generate_waypoint_file_from_route (st : state) (uav_id : val)
    (velocity_xy velocity_z agl : arg) : result string :=
  parts ← (if truthy uav_id then
             t ← trips_getitem st uav_id;
             mapM (waypoint_block st velocity_xy velocity_z agl) (route t)
           else Ok []);
  Ok (String.concat "" (WAYPOINT_INIT_STR :: parts)).

(** [handle_trip_addition]: [now] is what [time()] returns. The trip is
    stored before the send is awaited. *)
Definition handle_trip_addition (now : float) (body : list (string * val))
    (st : state) : state * async reply :=
  match dict_get body "uavId" with
  | VStr uav_id =>
      let start_time_ms := dict_get body "startTime" in
      let start_time_ms :=
        match int start_time_ms with
        | Ok z => VInt z
        | Raise _ => start_time_ms
        end in
      match as_int start_time_ms with
      | None => (st, Return (reject "Missing start time or it is not an integer"))
      | Some ms =>
          match int_truediv ms 1000 with
          | Raise e => (st, Throw e)
          | Ok start_time_sec =>
              if flt start_time_sec now then
                (st, Return (reject "Start time is in the past"))
              else
                match dict_get body "route" with
                | VList (x :: l) =>
                    let route := x :: l in
                    if existsb (fun station => negb (is_str station)) route then
                      (st, Return (reject "Station names in route must be strings"))
                    else
                      let trip := new_Trip uav_id start_time_sec (omap as_str route) in
                      let r := length (heap st) in
                      let st' := with_trips (with_heap st (heap st ++ [trip])%list)
                                   (<[uav_id := r]> (_trips st)) in
                      (st', AwaitSend uav_id (Return acknowledge))
                | _ => (st, Return (reject "Route is not specified or is empty"))
                end
          end
      end
  | _ => (st, Return (reject "Missing UAV ID or it is not a string"))
  end.

(** [handle_trip_cancellation] *)
Definition handle_trip_cancellation (body : list (string * val)) (st : state)
  : state * reply :=
  match dict_get body "uavId" with
  | VStr uav_id =>
      let trip := _trips st !! uav_id in
      let st' := with_trips st (delete uav_id (_trips st)) in
      match trip with
      | None => (st', reject "UAV has no scheduled trip")
      | Some _ => (st', acknowledge)
      end
  | _ => (st, reject "Missing UAV ID or it is not a string")
  end.

(** [upload_trip_to_uav] up to [await sleep(5)]: the reference of the
    trip whose upload starts, or nothing when the function returns
    early. *)
Definition upload_begin (uav_id : string) (st : state) : state * option nat :=
  match _trips st !! uav_id with
  | None => (st, None)
  | Some r =>
      match heap st !! r with
      | None => (st, None)
      | Some trip =>
          if decide (status trip = NEW) then
            (with_consumer
               (with_heap st (<[r := set_status UPLOADING trip]> (heap st)))
               (Sleeping r),
             Some r)
          else (st, None)
      end
  end.

(** [upload_trip_to_uav] after the await: [raised] tells whether the
    await raised an [Exception]. The status is assigned through the
    reference read before the await. *)
Definition upload_end (raised : bool) (r : nat) (st : state) : state :=
  let s := if raised then ERROR else UPLOADED in
  with_consumer
    (with_heap st (alter (set_status s) r (heap st)))
    Idle.

(** The memory channel of capacity 32: a send appends to the buffer
    when there is room, and parks the sender behind it otherwise. *)
Definition send (item : string) (st : state) : state * bool :=
  if (length (queue st) <? QUEUE_CAPACITY)%nat
  then (with_queue st (queue st ++ [item])%list (parked st), true)
  else (with_queue st (queue st) (parked st ++ [item])%list, false).

(** A receive takes the head of the buffer; the first parked sender,
    if any, then puts its item at the tail and resumes. *)
Definition receive (st : state) : option (string * state) :=
  match queue st with
  | [] => None
  | x :: q =>
      match parked st with
      | [] => Some (x, with_queue st q [])
      | y :: p => Some (x, with_queue st (q ++ [y])%list p)
      end
  end.

(** How a handler invocation ends for the hub: with a reply, with an
    exception, or suspended in a send on the full queue. *)
Inductive delivery : Type :=
  | Replied (r : reply)
  | Raised (e : exn)
  | Suspended.

Fixpoint run_handler (p : async reply) (st : state) : state * delivery :=
  match p with
  | Return r => (st, Replied r)
  | Throw e => (st, Raised e)
  | AwaitSend item k =>
      let '(st', sent) := send item st in
      if sent : bool then run_handler k st' else (st', Suspended)
  end.

(** *** The extension as a transition system

    Between two awaits a task runs alone. The hub may invoke a handler
    at any time; the background task of [manage_trips] takes an id off
    the queue, runs [upload_trip_to_uav] on it up to the await, and
    finishes it when woken. A send to the task blocked in its receive
    is an append to the empty buffer followed by the receive. The steps
    allow every interleaving of the code, and more: the code goes from
    the end of an upload to the receive of a queued id without an await.

    These are the steps of one run of [run()], from a fresh extension
    and for as long as the run is not cancelled; of a handler parked in
    its send they keep the id only. [Lifecycle] below has the
    cancellation, the next run, and the handlers that resume. *)
Inductive action : Type :=
  | Add (now : float) (body : list (string * val))
  | Cancel (body : list (string * val))
  | Receive
  | Begin
  | Wake (raised : bool).

Inductive obs : Type :=
  | Handled (d : delivery)
  | Received (uav_id : string)
  | Started (uav_id : string) (trip : nat)
  | Skipped (uav_id : string)
  | Finished (trip : nat) (s : TripStatus).

(** The background task between the receive and [upload_trip_to_uav]
    holds the id it received. *)
Record machine : Type := {
  ext : state;
  holding : option string
}.

Definition step (a : action) (m : machine) : option (machine * obs) :=
  match a with
  | Add now body =>
      let '(st, p) := handle_trip_addition now body (ext m) in
      let '(st', d) := run_handler p st in
      Some ({| ext := st'; holding := holding m |}, Handled d)
  | Cancel body =>
      let '(st, r) := handle_trip_cancellation body (ext m) in
      Some ({| ext := st; holding := holding m |}, Handled (Replied r))
  | Receive =>
      match consumer (ext m), holding m with
      | Idle, None =>
          '(u, st) ← receive (ext m);
          Some ({| ext := st; holding := Some u |}, Received u)
      | _, _ => None
      end
  | Begin =>
      match consumer (ext m), holding m with
      | Idle, Some u =>
          let '(st, started) := upload_begin u (ext m) in
          Some ({| ext := st; holding := None |},
                match started with
                | Some r => Started u r
                | None => Skipped u
                end)
      | _, _ => None
      end
  | Wake raised =>
      match consumer (ext m) with
      | Sleeping r =>
          Some ({| ext := upload_end raised r (ext m); holding := holding m |},
                Finished r (if raised then ERROR else UPLOADED))
      | Idle => None
      end
  end.

Fixpoint run (acts : list action) (m : machine) : option (machine * list obs) :=
  match acts with
  | [] => Some (m, [])
  | a :: acts' =>
      '(m', o) ← step a m;
      '(m'', os) ← run acts' m';
      Some (m'', o :: os)
  end.

Definition start (ss : list (string * Station)) : machine :=
  {| ext := with_stations initial ss; holding := None |}.

Inductive reachable : machine → Prop :=
  | reachable_start ss : reachable (start ss)
  | reachable_step a m m' o :
      reachable m → step a m = Some (m', o) → reachable m'.

(** *** The validation of X-TRIP-ADD as the handler runs it

    The five checks of the handler in their order, each evaluated as the
    handler evaluates it: a check passes, fails, or raises (the division
    of check (3) does, beyond the range of a float). The first that
    fails gives the rejection. *)
Inductive check : Type :=
  | UavIdIsString
  | StartTimeIsInteger
  | StartTimeNotInPast
  | RouteIsNonEmptyList
  | RouteOfStrings.

Definition checks : list check :=
  [UavIdIsString; StartTimeIsInteger; StartTimeNotInPast;
   RouteIsNonEmptyList; RouteOfStrings].

Definition reason (c : check) : string :=
  match c with
  | UavIdIsString => "Missing UAV ID or it is not a string"
  | StartTimeIsInteger => "Missing start time or it is not an integer"
  | StartTimeNotInPast => "Start time is in the past"
  | RouteIsNonEmptyList => "Route is not specified or is empty"
  | RouteOfStrings => "Station names in route must be strings"
  end.

(** A check passes, fails, or cannot be evaluated because evaluating it
    raises. *)
Inductive verdict : Type :=
  | Pass
  | Fail
  | Crash (e : exn).

Definition apply_check (now : float) (body : list (string * val)) (c : check)
  : verdict :=
  match c with
  | UavIdIsString =>
      if is_str (dict_get body "uavId") then Pass else Fail
  | StartTimeIsInteger =>
      match int (dict_get body "startTime") with
      | Ok _ => Pass
      | Raise _ => Fail
      end
  | StartTimeNotInPast =>
      match int (dict_get body "startTime") with
      | Ok ms =>
          match int_truediv ms 1000 with
          | Ok sec => if flt sec now then Fail else Pass
          | Raise e => Crash e
          end
      | Raise _ => Pass
      end
  | RouteIsNonEmptyList =>
      match dict_get body "route" with
      | VList [] => Fail
      | VList _ => Pass
      | _ => Fail
      end
  | RouteOfStrings =>
      match dict_get body "route" with
      | VList l => if forallb is_str l then Pass else Fail
      | _ => Pass
      end
  end.

Inductive validation : Type :=
  | Accepted
  | Rejected (c : check)
  | Crashed (e : exn).

Fixpoint validate (now : float) (body : list (string * val)) (cs : list check)
  : validation :=
  match cs with
  | [] => Accepted
  | c :: cs' =>
      match apply_check now body c with
      | Pass => validate now body cs'
      | Fail => Rejected c
      | Crash e => Crashed e
      end
  end.

(** The handler's result for the hub, leaving the state aside. *)
Definition outcome_of (p : async reply) : validation → Prop :=
  fun v =>
    match v with
    | Accepted => ∃ uav_id, p = AwaitSend uav_id (Return acknowledge)
    | Rejected c => p = Return (reject (reason c))
    | Crashed e => p = Throw e
    end.

(** *** The validation of X-TRIP-ADD as the message contract words it

    Each of the five checks passes or fails, on the body and the clock
    alone. The seconds of check (3) are the quotient of the integer by
    1000 as a float; beyond the range of a float the quotient is an
    infinity, which lies before or after the clock as the number does.
    These definitions follow the wording of the contract, not the
    handler. *)
Definition seconds (ms : Z) : float :=
  match ms with
  | Z0 => fzero
  | Zpos p => SFdiv prec emax (S754_finite false p 0) (S754_finite false 1000 0)
  | Zneg p => SFdiv prec emax (S754_finite true p 0) (S754_finite false 1000 0)
  end.

Definition passes (now : float) (body : list (string * val)) (c : check) : bool :=
  match c with
  | UavIdIsString => is_str (dict_get body "uavId")
  | StartTimeIsInteger =>
      match int (dict_get body "startTime") with
      | Ok _ => true
      | Raise _ => false
      end
  | StartTimeNotInPast =>
      match int (dict_get body "startTime") with
      | Ok ms => negb (flt (seconds ms) now)
      | Raise _ => true
      end
  | RouteIsNonEmptyList =>
      match dict_get body "route" with
      | VList (_ :: _) => true
      | _ => false
      end
  | RouteOfStrings =>
      match dict_get body "route" with
      | VList l => forallb is_str l
      | _ => true
      end
  end.

(** The first of the five checks that fails, if any does. *)
Definition first_failing (now : float) (body : list (string * val))
  : option check :=
  List.find (fun c => negb (passes now body c)) checks.

(** What the contract asks of the handler: the rejection of the first
    failing check, or a send followed by the acknowledgement. *)
Definition required (now : float) (body : list (string * val))
    (p : async reply) : Prop :=
  match first_failing now body with
  | Some c => p = Return (reject (reason c))
  | None => ∃ uav_id, p = AwaitSend uav_id (Return acknowledge)
  end.

(** The start time, if it is an integer, has its seconds within the
    range of a float. *)
Definition in_float_range (body : list (string * val)) : Prop :=
  ∀ ms, int (dict_get body "startTime") = Ok ms →
        ∃ sec, int_truediv ms 1000 = Ok sec.
End Operations.

End CascadeDemo.

(** ** cascade_demo.py: [run()] from its start to its end, and again

    The transition system above is one run of [run()] for as long as it
    is not cancelled, and it leaves aside what a handler suspended in its
    send does once it is resumed. This one adds both. A handler parked
    on the full queue keeps what it has left to do; a receive makes it
    runnable, and it goes on when the scheduler resumes it. The
    cancellation of [run()] reaches the background task at its receive
    or at [await sleep(5)], where [except Exception] does not catch it;
    leaving [manage_trips] closes the receiving end of the queue (the
    buffer is dropped and the parked senders fail), leaving [run()]
    closes the sending end, and then the handlers are unregistered. The
    handlers can still be invoked in between. [run()] may then be
    started again, on the same extension object. *)

Module Lifecycle.
Import Py CascadeDemo.

Inductive phase : Type :=
  | Running
  | ReceiveClosed
  | SendClosed
  | Stopped.

#[global] Instance phase_eq_dec : EqDecision phase.
Proof. solve_decision. Defined.

Record life : Type := {
  core : machine;
  phase_of : phase;
  (** what the handlers parked in their send have left to do, in the
      order of [parked] *)
  waiting : list (async reply);
  (** the handlers made runnable again and not yet resumed *)
  woken : list (async reply)
}.

Inductive life_action : Type :=
  | In (a : action)
  | Resume
  | Interrupt
  | CloseSend
  | Leave
  | Restart.

Inductive life_obs : Type :=
  | Did (o : obs)
  | Interrupted (trip : option nat)
  | Unwound
  | Restarted.

Section Operations.
Context `{Builtins}.

(** A handler run up to its end or to the send in which it is parked;
    with it, what a parked handler has left to do. A send on a queue
    whose receiving end is closed raises [BrokenResourceError], one on a
    queue whose sending end is closed [ClosedResourceError]. *)
Fixpoint run_task (ph : phase) (p : async reply) (st : state)
  : state * delivery * list (async reply) :=
  match p with
  | Return r => (st, Replied r, [])
  | Throw e => (st, Raised e, [])
  | AwaitSend item k =>
      match ph with
      | Running =>
          let '(st', sent) := send item st in
          if sent : bool then run_task ph k st' else (st', Suspended, [k])
      | ReceiveClosed => (st, Raised BrokenResourceError, [])
      | SendClosed | Stopped => (st, Raised ClosedResourceError, [])
      end
  end.

(** The extension once the cancellation has reached the background
    task and [manage_trips] has closed the receiving end. *)
Definition interrupted (l : life) : life :=
  {| core := {| ext := with_consumer (with_queue (ext (core l)) [] []) Idle;
                holding := None |};
     phase_of := ReceiveClosed;
     waiting := [];
     woken := (woken l ++ ((fun _ => Throw BrokenResourceError) <$> waiting l))%list |}.

(** [run()] started again: a new queue, the trips and stations as they
    were left. *)
Definition restarted (l : life) : life :=
  {| core := {| ext := with_consumer (with_queue (ext (core l)) [] []) Idle;
                holding := None |};
     phase_of := Running;
     waiting := [];
     woken := woken l |}.

Definition life_step (a : life_action) (l : life) : option (life * life_obs) :=
  match a with
  | In (Add now body) =>
      match phase_of l with
      | Stopped => None
      | ph =>
          let '(st, p) := handle_trip_addition now body (ext (core l)) in
          let '(st', d, ks) := run_task ph p st in
          Some ({| core := {| ext := st'; holding := holding (core l) |};
                   phase_of := ph;
                   waiting := (waiting l ++ ks)%list;
                   woken := woken l |},
                Did (Handled d))
      end
  | In (Cancel body) =>
      match phase_of l with
      | Stopped => None
      | ph =>
          '(m, o) ← step (Cancel body) (core l);
          Some ({| core := m; phase_of := ph; waiting := waiting l;
                   woken := woken l |}, Did o)
      end
  | In Receive =>
      match phase_of l with
      | Running =>
          '(m, o) ← step Receive (core l);
          match parked (ext (core l)), waiting l with
          | _ :: _, k :: ks =>
              Some ({| core := m; phase_of := Running; waiting := ks;
                       woken := (woken l ++ [k])%list |}, Did o)
          | _, _ =>
              Some ({| core := m; phase_of := Running; waiting := waiting l;
                       woken := woken l |}, Did o)
          end
      | _ => None
      end
  | In a =>
      match phase_of l with
      | Running =>
          '(m, o) ← step a (core l);
          Some ({| core := m; phase_of := Running; waiting := waiting l;
                   woken := woken l |}, Did o)
      | _ => None
      end
  | Resume =>
      match woken l with
      | [] => None
      | k :: ws =>
          let '(st', d, ks) := run_task (phase_of l) k (ext (core l)) in
          Some ({| core := {| ext := st'; holding := holding (core l) |};
                   phase_of := phase_of l;
                   waiting := (waiting l ++ ks)%list;
                   woken := ws |},
                Did (Handled d))
      end
  | Interrupt =>
      match phase_of l, consumer (ext (core l)), holding (core l) with
      | Running, Idle, None => Some (interrupted l, Interrupted None)
      | Running, Sleeping r, _ => Some (interrupted l, Interrupted (Some r))
      | _, _, _ => None
      end
  | CloseSend =>
      match phase_of l with
      | ReceiveClosed =>
          Some ({| core := core l; phase_of := SendClosed; waiting := waiting l;
                   woken := woken l |}, Unwound)
      | _ => None
      end
  | Leave =>
      match phase_of l with
      | SendClosed =>
          Some ({| core := core l; phase_of := Stopped; waiting := waiting l;
                   woken := woken l |}, Unwound)
      | _ => None
      end
  | Restart =>
      match phase_of l with
      | Stopped => Some (restarted l, Restarted)
      | _ => None
      end
  end.

Fixpoint life_run (acts : list life_action) (l : life)
  : option (life * list life_obs) :=
  match acts with
  | [] => Some (l, [])
  | a :: acts' =>
      '(l', o) ← life_step a l;
      '(l'', os) ← life_run acts' l';
      Some (l'', o :: os)
  end.

Definition life_start (ss : list (string * Station)) : life :=
  {| core := start ss; phase_of := Running; waiting := []; woken := [] |}.

End Operations.

End Lifecycle.

(** ** Vocabulary of the statements *)

Module Terms.
Import Py CascadeDemo.

(** One waypoint block as the file shows it: the station name twice, the
    coordinates with 8 decimals behind the letters N and E, then the
    altitude and the two velocities as already formatted. *)
Definition waypoint_block_text (name : string) (la lo : float)
    (s_agl s_xy s_z : string) : string :=
  "
# taking off towards station '" +:+ name +:+ "'
motoron=5
takeoff=5 4 1 0
waypoint=N" +:+ format_f 8 la +:+ " E" +:+ format_f 8 lo +:+ " " +:+ s_agl
  +:+ " " +:+ s_xy +:+ " " +:+ s_z +:+ " 5 0
# landing at station '" +:+ name +:+ "'
land=4 1 0
motoroff=10
".

(** The block of a configured station, by its name. *)
Definition block_of (st : state) (s_agl s_xy s_z : string) (name : string)
  : string :=
  match stations_getitem (_stations st) name with
  | Ok s => waypoint_block_text name (lat (position s)) (lon (position s))
              s_agl s_xy s_z
  | Raise _ => ""
  end.

(** Whether an observation is the start of the upload of a trip object,
    and how often a run starts it. *)
Definition starts (r : nat) (o : obs) : bool :=
  match o with
  | Started _ r' => bool_decide (r' = r)
  | _ => false
  end.

Definition uploads_of (r : nat) (os : list obs) : nat :=
  length (List.filter (starts r) os).

(** A trip object the background task will not start on: it is past
    NEW, or no id leads to it any more. *)
Definition settled (r : nat) (st : state) : Prop :=
  ∃ t, heap st !! r = Some t
       ∧ (status t ≠ NEW ∨ ∀ u, _trips st !! u ≠ Some r).

(** Every reference stored in [_trips] points into the heap. *)
Definition refs_valid (st : state) : Prop :=
  ∀ u r, _trips st !! u = Some r → (r < length (heap st))%nat.

(** Two ids never share a trip object. *)
Definition refs_inj (st : state) : Prop :=
  ∀ u u' r, _trips st !! u = Some r → _trips st !! u' = Some r → u = u'.

(** What a run leaves under [U1], and the routes and statuses of the two
    first trip objects. *)
Definition view (m : machine)
  : option nat * consumer_state * list (list string * TripStatus) :=
  (_trips (ext m) !! "U1", consumer (ext m),
   (fun t => (route t, status t)) <$> take 2 (heap (ext m))).

End Terms.

(** ** Concrete messages, configurations and runs *)

Module Scenarios.
Import Py CascadeDemo Terms.

(** Budapest, and a point in the south-west quadrant. *)
Definition f_47_5 : float :=
  Eval vm_compute in
    match int_truediv 475 10 with Ok f => f | Raise _ => fzero end.
Definition f_minus_19_25 : float :=
  Eval vm_compute in
    match int_truediv (-1925) 100 with Ok f => f | Raise _ => fzero end.

(** 1 700 000 000 s after the epoch, as [time()] would return it. *)
Definition now0 : float :=
  Eval vm_compute in binary_normalize prec emax 1700000000 0 false.

(** Scenario A: a trip one minute ahead, by way of two stations. *)
Definition body_A : list (string * val) :=
  [("uavId", VStr "U1"); ("startTime", VInt 1700000060000);
   ("route", VList [VStr "S1"; VStr "S2"])].

(** Scenario B: a start time one second back. *)
Definition body_B : list (string * val) :=
  [("uavId", VStr "U1"); ("startTime", VInt 1699999999000);
   ("route", VList [VStr "S1"; VStr "S2"])].

(** Scenario C: an empty route. *)
Definition body_C : list (string * val) :=
  [("uavId", VStr "U1"); ("startTime", VInt 1700000060000);
   ("route", VList [])].

Definition cancel_U1 : list (string * val) := [("uavId", VStr "U1")].

Definition m0 : machine := start [].

(** Two stations, entered in either order. *)
Definition f_19_04 : float :=
  Eval vm_compute in
    match int_truediv 1904 100 with Ok f => f | Raise _ => fzero end.
Definition f_47_47 : float :=
  Eval vm_compute in
    match int_truediv 4747 100 with Ok f => f | Raise _ => fzero end.

Definition stations_12 : list (string * val) :=
  [("S1", VList [VFloat f_19_04; VFloat f_47_47]);
   ("S2", VList [VInt 19; VInt 47])].

Definition stations_21 : list (string * val) :=
  [("S2", VList [VInt 19; VInt 47]);
   ("S1", VList [VFloat f_19_04; VFloat f_47_47])].

(** The two stations configured, and a trip over both accepted for
    [U1], and for the empty id. *)
Definition st_configured : state :=
  match @configure plain_builtins [("stations", VDict stations_12)] initial with
  | Ok st => st
  | Raise _ => initial
  end.

Definition st_U1 : state :=
  (@handle_trip_addition plain_builtins now0 body_A st_configured).1.

Definition body_empty_id : list (string * val) :=
  [("uavId", VStr ""); ("startTime", VInt 1700000060000);
   ("route", VList [VStr "S1"; VStr "S2"])].

Definition st_empty_id : state :=
  (@handle_trip_addition plain_builtins now0 body_empty_id st_configured).1.

(** A second trip for [U1], the route reversed. *)
Definition body_A' : list (string * val) :=
  [("uavId", VStr "U1"); ("startTime", VInt 1700000120000);
   ("route", VList [VStr "S2"; VStr "S1"])].

(** The machine once the background task has received the id of the
    first trip. *)
Definition m_received : machine :=
  match @run plain_builtins [Add now0 body_A; Receive] m0 with
  | Some (m, _) => m
  | None => m0
  end.

End Scenarios.

(** ** cascade_demo.py: the mission files *)

Module CascadeDemoFiles.
Import Py CascadeDemo.

Definition CHOREO_STR : string :=
"# this is a choreography file generated by flockwave-server

[sequence]

wait_on_ground=waypoint
go_on_route=waypoint

[wait_on_ground]
waypoint.waypoint_file=waypoint_ground.cfg
waypoint.whats_next=loiter

[go_on_route]
waypoint.waypoint_file=waypoints.cfg
waypoint.minimum_altitude=3
waypoint.altitude_setpoint={agl:.2f}
waypoint.velocity_xy={velocity_xy:.2f}
waypoint.velocity_z={velocity_z:.2f}
waypoint.velocity_threshold=6
waypoint.manual_override_rp=stop
waypoint.manual_override_gas=shift
waypoint.whats_next=land
".

Definition META_NAME_STR : string := "cascade_demo".

Definition META_VERSION_STR : string := "1".

Definition MISSION_STR : string :=
"# this is a mission file generated by flockwave-server

[settings]
choreography_file=choreography.cfg
".

(** The archive [generate_mission_from_route] builds is modelled by the
    entries written to it, name and text, in the order of the
    [writestr] calls; the compression and the bytes of the buffer are
    left out. *)
Definition archive : Type := list (string * string).

Section Files.
Context `{Builtins}.

(** [generate_choreography_file_from_route]; the id is not used. *)
Definition generate_choreography_file_from_route (uav_id : val)
    (velocity_xy velocity_z agl : arg) : result string :=
  format CHOREO_STR []
    [("agl", agl); ("velocity_xy", velocity_xy); ("velocity_z", velocity_z)].

(** [generate_mission_file_from_route] *)
Definition generate_mission_file_from_route (uav_id : val) : string :=
  MISSION_STR.

(** [generate_mission_from_route]: the four files are generated before
    the archive is opened; the ground file is generated for the id [0]
    with the default velocities and altitude. *)
Definition generate_mission_from_route (st : state) (uav_id : val)
    (velocity_xy velocity_z agl : arg) : result archive :=
  waypoint_ground_str ←
    generate_waypoint_file_from_route st (VInt 0) (AInt 4) (AInt 1) (AInt 5);
  waypoint_str ←
    generate_waypoint_file_from_route st uav_id velocity_xy velocity_z agl;
  choreography_str ←
    generate_choreography_file_from_route uav_id velocity_xy velocity_z agl;
  let mission_str := generate_mission_file_from_route uav_id in
  Ok [("waypoint.cfg", waypoint_str);
      ("waypoint_ground.cfg", waypoint_ground_str);
      ("choreography.cfg", choreography_str);
      ("mission.cfg", mission_str);
      ("_meta/version", META_VERSION_STR);
      ("_meta/name", META_NAME_STR)].
End Files.

(** The choreography file as it reads, the altitude and the velocities
    as already formatted. *)
Definition choreography_head : string :=
"# this is a choreography file generated by flockwave-server

[sequence]

wait_on_ground=waypoint
go_on_route=waypoint

[wait_on_ground]
waypoint.waypoint_file=waypoint_ground.cfg
waypoint.whats_next=loiter

[go_on_route]
waypoint.waypoint_file=waypoints.cfg
waypoint.minimum_altitude=3
waypoint.altitude_setpoint=".

Definition choreography_text (s_agl s_xy s_z : string) : string :=
  choreography_head +:+ s_agl +:+ "
waypoint.velocity_xy=" +:+ s_xy +:+ "
waypoint.velocity_z=" +:+ s_z +:+ "
waypoint.velocity_threshold=6
waypoint.manual_override_rp=stop
waypoint.manual_override_gas=shift
waypoint.whats_next=land
".

(** Whether the archive has an entry of that name. *)
Definition names_entry (a : archive) (file : string) : bool :=
  existsb (fun e => String.eqb e.1 file) a.

End CascadeDemoFiles.

(** ** Further vocabulary *)

Module MoreTerms.
Import Py CascadeDemo Lifecycle.

Section WithBuiltins.
Context `{Builtins}.

(** One station per id, as the generator of [configure_stations] yields
    them. *)
Definition station_item (d : list (string * val)) (station_id : string)
  : result (string * Station) :=
  match assoc_get d station_id with
  | None => Raise KeyError
  | Some obj => s ← Station_from_json obj station_id; Ok (station_id, s)
  end.
End WithBuiltins.

(** A station object without an element 0 or without an element 1:
    [Station.from_json] fails at [obj[0]] or at [obj[1]], with [e]. *)
Definition index_fails (obj : val) (e : exn) : Prop :=
  getitem obj 0 = Raise e
  ∨ ∃ v, getitem obj 0 = Ok v ∧ getitem obj 1 = Raise e.

(** The course of a status: it stays, or goes from NEW to UPLOADING, or
    from UPLOADING to UPLOADED or ERROR. *)
Definition advances (s s' : TripStatus) : Prop :=
  s' = s
  ∨ (s = NEW ∧ s' = UPLOADING)
  ∨ (s = UPLOADING ∧ (s' = UPLOADED ∨ s' = ERROR)).

(** The trip with status UPLOADING is the one the background task is
    uploading, and there is one when it is at the await. *)
Definition upload_inv (st : state) : Prop :=
  (∀ r t, heap st !! r = Some t → status t = UPLOADING → consumer st = Sleeping r)
  ∧ (∀ r, consumer st = Sleeping r →
          ∃ t, heap st !! r = Some t ∧ status t = UPLOADING).

(** The buffer of the command queue within its capacity, and senders
    parked only behind a full buffer. *)
Definition queue_inv (st : state) : Prop :=
  (length (queue st) ≤ QUEUE_CAPACITY)%nat
  ∧ (parked st ≠ [] → length (queue st) = QUEUE_CAPACITY).

(** A stored trip is the trip of the id it is stored under, and every
    trip has a route. *)
Definition trips_inv (st : state) : Prop :=
  (∀ u r t, _trips st !! u = Some r → heap st !! r = Some t → uav_id t = u)
  ∧ (∀ r t, heap st !! r = Some t → route t ≠ []).

(** The ids sent and not yet received: those in the buffer, then those
    of the suspended handlers. *)
Definition pending (st : state) : list string :=
  (queue st ++ parked st)%list.

(** The id an addition sends, read off the step: the handler has
    acknowledged, or is suspended in its send. *)
Definition accepted_id (ao : action * obs) : option string :=
  match ao with
  | (Add _ body, Handled (Replied acknowledge))
  | (Add _ body, Handled Suspended) => as_str (dict_get body "uavId")
  | _ => None
  end.

(** The id the background task receives in a step. *)
Definition received_id (o : obs) : option string :=
  match o with
  | Received u => Some u
  | _ => None
  end.

(** The trip whose upload a cancellation of [run()] interrupts. *)
Definition interrupted_trip (o : life_obs) : option nat :=
  match o with
  | Interrupted (Some r) => Some r
  | _ => None
  end.

(** With [S] the trips whose upload was interrupted: a trip with status
    UPLOADING is the one the background task is uploading or one of
    [S]; the task is on a trip that is UPLOADING and not of [S]; the
    trips of [S] are UPLOADING. *)
Definition uploads_inv (S : list nat) (st : state) : Prop :=
  (∀ r t, heap st !! r = Some t → status t = UPLOADING →
          consumer st = Sleeping r ∨ r ∈ S)
  ∧ (∀ r, consumer st = Sleeping r →
          (∃ t, heap st !! r = Some t ∧ status t = UPLOADING) ∧ r ∉ S)
  ∧ (∀ r, r ∈ S → ∃ t, heap st !! r = Some t ∧ status t = UPLOADING).

(** What the handlers parked in a send, and those made runnable again,
    have left to do: the acknowledgement, or the exception of the send
    that failed. *)
Definition tasks_inv (l : life) : Prop :=
  Forall (fun k => k = Return acknowledge) (waiting l)
  ∧ Forall (fun k => k = Return acknowledge ∨ k = Throw BrokenResourceError)
      (woken l).

(** A trip object no id leads to. *)
Definition dropped (r : nat) (t : Trip) (st : state) : Prop :=
  heap st !! r = Some t ∧ ∀ u, _trips st !! u ≠ Some r.

End MoreTerms.

(** ** More scenarios *)

Module MoreScenarios.
Import Py CascadeDemo Lifecycle Terms Scenarios.

(** Three stations of which two are malformed: [S3] is no sequence, [S2]
    is a [str] of one code point. *)
Definition stations_bad : list (string * val) :=
  [("S3", VInt 5); ("S2", VStr "€"); ("S1", VList [VInt 19; VInt 47])].

(** A trip for [U3] by way of a station that is not configured. *)
Definition body_D : list (string * val) :=
  [("uavId", VStr "U3"); ("startTime", VInt 1700000060000);
   ("route", VList [VStr "S1"; VStr "S9"])].

Definition st_U3 : state :=
  (@handle_trip_addition plain_builtins now0 body_D st_configured).1.

(** The trip of scenario A as the handler stores it. *)
Definition trip_A : Trip :=
  Eval vm_compute in
    new_Trip "U1"
      (match int_truediv 1700000060000 1000 with Ok f => f | Raise _ => fzero end)
      ["S1"; "S2"].

(** A start time beyond the range of a float: with a route, with an
    empty route, and far in the past. *)
Definition body_overflow : list (string * val) :=
  [("uavId", VStr "U1"); ("startTime", VInt (10 ^ 400));
   ("route", VList [VStr "S1"])].

Definition body_overflow_no_route : list (string * val) :=
  [("uavId", VStr "U1"); ("startTime", VInt (10 ^ 400)); ("route", VList [])].

Definition body_overflow_past : list (string * val) :=
  [("uavId", VStr "U1"); ("startTime", VInt (- 10 ^ 400));
   ("route", VList [VStr "S1"])].

Definition after (acts : list action) : machine :=
  match @run plain_builtins acts m0 with
  | Some (m, _) => m
  | None => m0
  end.

(** The trip of scenario A added; then its upload at the await. *)
Definition m_added : machine := after [Add now0 body_A].
Definition m_uploading : machine := after [Add now0 body_A; Receive; Begin].

(** Two trips added for [U1], one right after the other. *)
Definition m_two_adds : machine := after [Add now0 body_A; Add now0 body_A'].

(** The trip of scenario A added and cancelled, its id still queued. *)
Definition m_cancelled : machine := after [Add now0 body_A; Cancel cancel_U1].

(** Two additions accepted, a cancellation, a receive, and an addition
    rejected for its start time. *)
Definition acts_mixed : list action :=
  [Add now0 body_A; Add now0 body_D; Cancel cancel_U1; Receive; Add now0 body_B].

Definition obs_mixed : list obs :=
  [Handled (Replied acknowledge); Handled (Replied acknowledge);
   Handled (Replied acknowledge); Received "U1";
   Handled (Replied (reject "Start time is in the past"))].

(** Thirty-three additions and no receive. *)
Definition m_full : machine := after (replicate 33 (Add now0 body_A)).

(** The extension from its start, through a run of its whole life. *)
Definition life_after (acts : list life_action) : life :=
  match @life_run plain_builtins acts (life_start []) with
  | Some (l, _) => l
  | None => life_start []
  end.

(** An upload under way and thirty-two more additions: the queue is
    full, nobody waits. *)
Definition l_full : life :=
  life_after ([In (Add now0 body_A); In Receive; In Begin]
              ++ replicate 32 (In (Add now0 body_A)))%list.

(** [run()] cancelled during the upload of a first trip and started
    again; a second trip added for the id, its upload begun. *)
Definition acts_interrupted : list life_action :=
  [In (Add now0 body_A); In Receive; In Begin; Interrupt; CloseSend; Leave;
   Restart; In (Add now0 body_A'); In Receive; In Begin].

Definition obs_interrupted : list life_obs :=
  [Did (Handled (Replied acknowledge)); Did (Received "U1");
   Did (Started "U1" 0); Interrupted (Some 0%nat); Unwound; Unwound; Restarted;
   Did (Handled (Replied acknowledge)); Did (Received "U1");
   Did (Started "U1" 1)].

Definition l_interrupted : life := life_after acts_interrupted.

(** [run()] cancelled with the queue full and one handler waiting in its
    send; the receiving end of the queue is closed. *)
Definition acts_closing : list life_action :=
  (replicate 32 (In (Add now0 body_A)) ++ [In (Add now0 body_D); Interrupt])%list.

Definition l_closing : life := life_after acts_closing.

End MoreScenarios.

(** * Properties *)

(** ** Facts about the prelude *)

Module PyFacts.
Import Py.

Lemma append_empty_r (s : string) : s +:+ "" = s.
Proof.
  induction s as [|c s IH]; [done|].
  change (String c (s +:+ "") = String c s). f_equal. exact IH.
Qed.

(** The float operations on known values: 1/1000 is the double
    0x3F50624DD2F1A9FC; ties in the last printed digit go to the even
    neighbour, and 2.675, which lies below its decimal writing, prints as
    2.67; the quotient of an integer past the largest float raises. *)
Example int_truediv_milli :
  int_truediv 1 1000 = Ok (S754_finite false 4611686018427388 (-62)).
Proof. reflexivity. Qed.

Example format_f_ties :
  format_f 2 <$> [S754_finite false 1 (-3); S754_finite false 3 (-3);
                  S754_finite false 6023428248604467 (-51);
                  S754_zero true; S754_nan; S754_infinity true]
  = ["0.12"; "0.38"; "2.67"; "-0.00"; "nan"; "-inf"].
Proof. reflexivity. Qed.

Example int_truediv_overflow :
  int_truediv (2 ^ 1024 * 1000) 1000 = Raise OverflowError
  ∧ int_truediv ((2 ^ 1024 - 2 ^ 970) * 1000 - 1) 1000
    = Ok (S754_finite false 9007199254740991 971).
Proof. split; reflexivity. Qed.

Example int_of_float_truncates :
  int_of_float <$> [S754_finite false 7 (-1); S754_finite true 7 (-1);
                    S754_finite false 3 2]
  = [Ok 3; Ok (-3); Ok 12].
Proof. reflexivity. Qed.

Example format_braces :
  @format plain_builtins "{{{}}} {x:.1f}" [AStr "a"] [("x", AInt 2)] = Ok "{a} 2.0"
  ∧ @format plain_builtins "{x" [] [("x", AInt 2)] = Raise ValueError
  ∧ @format plain_builtins "{y}" [] [("x", AInt 2)] = Raise KeyError
  ∧ @format plain_builtins "{:.2f}" [AStr "a"] [] = Raise ValueError.
Proof. repeat split. Qed.

(** A float with the sign bit set prints with a minus sign, whatever
    its magnitude (negative zero included). *)
Lemma format_f_negative d m e :
  format_f d (S754_finite true m e) = "-" +:+ format_f d (S754_finite false m e).
Proof. reflexivity. Qed.

(** [x < 0] holds of the negative finite floats and of minus infinity. *)
Lemma flt_zero_inv (x : float) :
  flt x fzero = true →
  x = S754_infinity true ∨ ∃ m e, x = S754_finite true m e.
Proof.
  destruct x as [s|s| |s m e]; unfold flt, SFltb; simpl; try done.
  - destruct s; [by left | done].
  - destruct s; [right; eauto | done].
Qed.

Lemma flt_zero_minus (d : nat) (x : float) :
  flt x fzero = true → ∃ rest, format_f d x = "-" +:+ rest.
Proof.
  intros [->|(m & e & ->)]%flt_zero_inv; simpl; eauto.
Qed.

Lemma flt_zero_not_fle (x : float) : flt x fzero = true → fle fzero x = false.
Proof.
  intros [->|(m & e & ->)]%flt_zero_inv; reflexivity.
Qed.

(** A [str] is indexed by code point, not by byte. *)
Example getitem_code_point :
  code_points "a€b" = ["a"; "€"; "b"]
  ∧ getitem (VStr "a€b") 1 = Ok (VStr "€")
  ∧ getitem (VStr "€") 1 = Raise IndexError.
Proof. repeat split. Qed.

End PyFacts.

(** ** Floats: the quotient of a 64-bit integer by 1000 is finite *)

Module FloatFacts.
Import Py.

Lemma digits2_pos_gt (p : positive) : Zpos p < 2 ^ Zpos (digits2_pos p).
Proof.
  induction p as [p IH|p IH|]; simpl digits2_pos;
    rewrite ?Pos2Z.inj_succ, ?Z.pow_succ_r by lia; lia.
Qed.

Lemma digits2_pos_le (p : positive) (k : Z) :
  0 <= k → Zpos p < 2 ^ k → Zpos (digits2_pos p) <= k.
Proof.
  revert k. induction p as [p IH|p IH|]; intros k Hk Hp; simpl digits2_pos.
  - assert (k = Z.succ (k - 1)) as Hk' by lia.
    destruct (Z.eq_dec k 0) as [->|Hne]; [simpl in Hp; lia|].
    rewrite Hk', Z.pow_succ_r in Hp by lia.
    rewrite Pos2Z.inj_succ. specialize (IH (k - 1)). lia.
  - assert (k = Z.succ (k - 1)) as Hk' by lia.
    destruct (Z.eq_dec k 0) as [->|Hne]; [simpl in Hp; lia|].
    rewrite Hk', Z.pow_succ_r in Hp by lia.
    rewrite Pos2Z.inj_succ. specialize (IH (k - 1)). lia.
  - destruct (Z.eq_dec k 0) as [->|Hne]; [simpl in Hp; lia|]. lia.
Qed.

Lemma Zdigits2_le (m k : Z) : 0 <= m < 2 ^ k → 0 <= k → Zdigits2 m <= k.
Proof.
  intros [Hm Hlt] Hk. destruct m as [|p|p]; simpl; [lia| |lia].
  by apply digits2_pos_le.
Qed.

Lemma iter_pos_inv {A} (P : A → Prop) (f : A → A) (n : positive) (x : A) :
  (∀ y, P y → P (f y)) → P x → P (@SpecFloat.iter_pos A f n x).
Proof.
  intros Hf. revert x. induction n as [n IH|n IH|]; intros x Hx; simpl; auto.
Qed.

Lemma shr_1_bound (B : Z) (mrs : shr_record) :
  0 <= shr_m mrs <= B → 0 <= shr_m (shr_1 mrs) <= B.
Proof.
  destruct mrs as [m r s]. simpl. intros Hm.
  destruct m as [|[p|p|]|[p|p|]]; simpl; lia.
Qed.

Lemma shr_fexp_bound (m e B : Z) (l : location) :
  0 <= m <= B →
  0 <= shr_m (fst (shr_fexp 53 1024 m e l)) <= B
  ∧ snd (shr_fexp 53 1024 m e l) <= Z.max e (Z.max (Zdigits2 m + e - 53) (-1074)).
Proof.
  intros Hm. unfold shr_fexp, shr.
  assert (0 <= shr_m (shr_record_of_loc m l) <= B) as Hrec.
  { by destruct l as [|[]]. }
  destruct (fexp 53 1024 (Zdigits2 m + e) - e) as [|n|n] eqn:Hn; simpl.
  - split; [done|lia].
  - split; [by apply iter_pos_inv; [apply shr_1_bound|]|].
    unfold fexp, emin in Hn. lia.
  - split; [done|lia].
Qed.

Lemma round_nearest_even_bound (m B : Z) (l : location) :
  0 <= m <= B → 0 <= round_nearest_even m l <= B + 1.
Proof.
  intros Hm. destruct l as [|[]]; simpl; [lia| |lia..].
  destruct (Z.even m); lia.
Qed.

Lemma binary_round_aux_finite (sx : bool) (m e : Z) (l : location) :
  0 <= m < 2 ^ 64 → e <= 0 →
  ∀ s, binary_round_aux 53 1024 sx m e l ≠ S754_infinity s.
Proof.
  intros Hm He s. unfold binary_round_aux.
  destruct (shr_fexp_bound m e (2 ^ 64 - 1) l ltac:(lia)) as [Hm1 He1].
  pose proof (Zdigits2_le m 64 Hm ltac:(lia)) as Hd.
  destruct (shr_fexp 53 1024 m e l) as [mrs1 e1]. simpl in Hm1, He1.
  pose proof (round_nearest_even_bound _ _ (loc_of_shr_record mrs1) Hm1) as Hr.
  set (m2 := round_nearest_even (shr_m mrs1) (loc_of_shr_record mrs1)) in *.
  destruct (shr_fexp_bound m2 e1 (2 ^ 64) loc_Exact ltac:(lia)) as [_ He2].
  pose proof (Zdigits2_le m2 65 ltac:(lia) ltac:(lia)) as Hd2.
  destruct (shr_fexp 53 1024 m2 e1 loc_Exact) as [mrs2 e2]. simpl in He2.
  destruct (shr_m mrs2); [done| |done].
  destruct (Z.leb_spec e2 (1024 - 53)); [done|lia].
Qed.

Lemma SFdiv_core_binary_bound (p : positive) :
  Zpos p < 2 ^ 64 →
  let '(q, e, _) := SFdiv_core_binary 53 1024 (Zpos p) 0 1000 0 in
  0 <= q < 2 ^ 64 ∧ e <= 0.
Proof.
  intros Hp. unfold SFdiv_core_binary.
  pose proof (digits2_pos_gt p) as Hgt.
  pose proof (digits2_pos_le p 64 ltac:(lia) Hp) as Hle.
  change (Zdigits2 (Zpos p)) with (Zpos (digits2_pos p)).
  change (Zdigits2 1000) with 10.
  set (d := Zpos (digits2_pos p)) in *.
  set (e' := Z.min (fexp 53 1024 (d + 0 - (10 + 0))) (0 - 0)).
  assert (e' = Z.min (d - 63) 0) as He' by (unfold e', fexp, emin; lia).
  assert (0 <= match 0 - 0 - e' with
               | Z0 => Zpos p
               | Zpos _ => Z.shiftl (Zpos p) (0 - 0 - e')
               | Zneg _ => 0
               end < 2 ^ 64) as Hm.
  { destruct (0 - 0 - e') as [|n|n] eqn:Hs; [lia| |lia].
    rewrite Z.shiftl_mul_pow2 by lia. split; [lia|].
    assert (Zpos n = 63 - d) as -> by lia.
    apply Z.lt_le_trans with (2 ^ d * 2 ^ (63 - d)).
    - apply Z.mul_lt_mono_pos_r; [apply Z.pow_pos_nonneg; lia|done].
    - rewrite <- Z.pow_add_r by lia. replace (d + (63 - d)) with 63 by lia. lia. }
  set (m' := match 0 - 0 - e' with
             | Z0 => Zpos p
             | Zpos _ => Z.shiftl (Zpos p) (0 - 0 - e')
             | Zneg _ => 0
             end) in *.
  pose proof (Z.div_eucl_eq m' 1000 ltac:(lia)) as Heq.
  pose proof (Z.mod_pos_bound m' 1000 ltac:(lia)) as Hmod.
  unfold Z.modulo in Hmod.
  destruct (Z.div_eucl m' 1000) as [q r]. split; [lia|lia].
Qed.

(** No integer below [2 ^ 64] in absolute value overflows in the
    division by 1000. *)
Lemma int_truediv_in_range (a : Z) :
  Z.abs a < 2 ^ 64 → ∃ f, int_truediv a 1000 = Ok f.
Proof.
  intros Ha. unfold int_truediv.
  destruct a as [|p|p]; [by eexists| |]; unfold SFdiv;
    pose proof (SFdiv_core_binary_bound p ltac:(lia)) as Hcore;
    change prec with 53; change emax with 1024;
    destruct (SFdiv_core_binary 53 1024 (Z.pos p) 0 1000 0) as [[q e] l];
    destruct Hcore as [Hq He].
  - pose proof (binary_round_aux_finite (xorb false false) q e l Hq He) as Hf.
    destruct (binary_round_aux 53 1024 _ q e l) as [s|s| |s m e0];
      try (by eexists). by destruct (Hf s).
  - pose proof (binary_round_aux_finite (xorb true false) q e l Hq He) as Hf.
    destruct (binary_round_aux 53 1024 _ q e l) as [s|s| |s m e0];
      try (by eexists). by destruct (Hf s).
Qed.

End FloatFacts.

(** ** mission_templates.py *)

Module MissionTemplatesFacts.
Import Py PyFacts MissionTemplates Scenarios.

Section Facts.
Context `{Builtins}.

(** C10. [gps_coordinate_to_string lat lon] is the letter N when
    [lat >= 0] and S otherwise, then [lat] with 8 decimals, a space, the
    letter E when [lon >= 0] and W otherwise, then [lon] with 8 decimals.
    The number is printed as it is: a coordinate below zero comes out as
    S or W followed by a minus sign. *)
Theorem gps_coordinate_to_string_spec (lat lon : float) :
  gps_coordinate_to_string (AFloat lat) (AFloat lon)
  = Ok ((if fle fzero lat then "N" else "S") +:+ format_f 8 lat +:+ " "
        +:+ (if fle fzero lon then "E" else "W") +:+ format_f 8 lon)
  ∧ (flt lat fzero = true →
     ∃ rest, format_f 8 lat = "-" +:+ rest ∧ fle fzero lat = false)
  ∧ (flt lon fzero = true →
     ∃ rest, format_f 8 lon = "-" +:+ rest ∧ fle fzero lon = false).
Proof.
  split; [|split].
  - unfold gps_coordinate_to_string, format; simpl.
    by rewrite append_empty_r.
  - intros Hneg. destruct (flt_zero_minus 8 _ Hneg) as [rest ->].
    eauto using flt_zero_not_fle.
  - intros Hneg. destruct (flt_zero_minus 8 _ Hneg) as [rest ->].
    eauto using flt_zero_not_fle.
Qed.

End Facts.

Example gps_coordinate_to_string_example :
  @gps_coordinate_to_string plain_builtins (AFloat f_47_5) (AFloat f_minus_19_25)
  = Ok "N47.50000000 W-19.25000000".
Proof. reflexivity. Qed.

Lemma gps_coordinate_to_string_witness :
  @gps_coordinate_to_string plain_builtins (AFloat f_minus_19_25) (AFloat f_minus_19_25)
  = Ok "S-19.25000000 W-19.25000000"
  ∧ ∃ rest, format_f 8 f_minus_19_25 = "-" +:+ rest ∧ fle fzero f_minus_19_25 = false.
Proof.
  destruct (@gps_coordinate_to_string_spec plain_builtins f_minus_19_25 f_minus_19_25)
    as (Heq & Hlat & _).
  split; [exact Heq | apply Hlat; reflexivity].
Defined.

End MissionTemplatesFacts.

(** ** cascade_demo.py: the model objects and the message handlers *)

Module CascadeDemoFacts.
Import Py PyFacts FloatFacts CascadeDemo Lifecycle Terms Scenarios MoreScenarios.

(** *** Trip statuses *)

Lemma TripStatus_members_complete (s : TripStatus) : s ∈ TripStatus_members.
Proof. destruct s; compute_done. Qed.

Lemma TripStatus_members_NoDup : NoDup TripStatus_members.
Proof. compute_done. Qed.

(** C7, as the code has it. A status is one of exactly four values, named
    NEW, UPLOADING, UPLOADED and ERROR, and a newly created trip has
    status NEW. *)
Theorem TripStatus_four_values :
  (∀ s : TripStatus, s ∈ TripStatus_members)
  ∧ NoDup TripStatus_members
  ∧ TripStatus_name <$> TripStatus_members = ["NEW"; "UPLOADING"; "UPLOADED"; "ERROR"]
  ∧ TripStatus_value <$> TripStatus_members = ["new"; "uploading"; "uploaded"; "error"]
  ∧ (∀ u t r, status (new_Trip u t r) = NEW).
Proof.
  split; [exact TripStatus_members_complete|].
  split; [exact TripStatus_members_NoDup|].
  repeat split.
Qed.

(** C7, as stated, fails: the enumeration has no member named
    IN_PROGRESS or DONE; looking either up raises [KeyError]. *)
Lemma TripStatus_no_IN_PROGRESS_no_DONE :
  TripStatus_getitem "IN_PROGRESS" = Raise KeyError
  ∧ TripStatus_getitem "DONE" = Raise KeyError
  ∧ TripStatus_name <$> TripStatus_members = ["NEW"; "UPLOADING"; "UPLOADED"; "ERROR"].
Proof. repeat split. Qed.

Section Handlers.
Context `{Builtins}.

(** *** Helper lemmas *)

Lemma int_raise_not_int (v : val) (e : exn) : int v = Raise e → as_int v = None.
Proof. destruct v; simpl; congruence. Qed.

Lemma existsb_not_str (l : list val) :
  existsb (fun station => negb (is_str station)) l = negb (forallb is_str l).
Proof.
  induction l as [|v l IH]; simpl; [done|].
  rewrite IH. by destruct (is_str v).
Qed.

Lemma forallb_is_str_names (l : list val) :
  forallb is_str l = true → l = VStr <$> omap as_str l.
Proof.
  induction l as [|v l IH]; simpl; [done|].
  intros [Hv Hl]%andb_prop. destruct v; try discriminate.
  simpl. f_equal. by apply IH.
Qed.

Lemma with_trips_id (st : state) : with_trips st (_trips st) = st.
Proof. by destruct st. Qed.

Lemma with_trips_delete_absent (st : state) (u : string) :
  _trips st !! u = None → with_trips st (delete u (_trips st)) = st.
Proof. intros Hu. rewrite delete_id; [apply with_trips_id | done]. Qed.

(** *** X-TRIP-ADD *)

(** The handler against the five checks in order: the same rejection, the
    same exception, or the acceptance. *)
Lemma handle_trip_addition_outcome (now : float)
    (body : list (string * val)) (st : state) :
  outcome_of (handle_trip_addition now body st).2 (validate now body checks).
Proof.
  unfold handle_trip_addition, checks, validate, apply_check.
  destruct (dict_get body "uavId") as [| | | |uav_id| |]; simpl; try reflexivity.
  destruct (int (dict_get body "startTime")) as [ms|e] eqn:Hint; simpl.
  2: { by rewrite (int_raise_not_int _ _ Hint). }
  destruct (int_truediv ms 1000) as [sec|e]; simpl; [|reflexivity].
  destruct (flt sec now); simpl; [reflexivity|].
  destruct (dict_get body "route") as [| | | | |[|x l]|]; simpl; try reflexivity.
  rewrite existsb_not_str. simpl.
  destruct (is_str x); simpl; [|reflexivity].
  destruct (forallb is_str l); simpl; [eauto | reflexivity].
Qed.

(** What an accepted message does to the extension. *)
Lemma handle_trip_addition_stores (now : float)
    (body : list (string * val)) (st : state) :
  validate now body checks = Accepted →
  ∃ uav_id ms sec names,
    dict_get body "uavId" = VStr uav_id
    ∧ int (dict_get body "startTime") = Ok ms
    ∧ int_truediv ms 1000 = Ok sec
    ∧ dict_get body "route" = VList (VStr <$> names)
    ∧ handle_trip_addition now body st
      = (with_trips (with_heap st (heap st ++ [new_Trip uav_id sec names])%list)
           (<[uav_id := length (heap st)]> (_trips st)),
         AwaitSend uav_id (Return acknowledge)).
Proof.
  unfold checks, validate, apply_check, handle_trip_addition.
  destruct (dict_get body "uavId") as [| | | |uav_id| |]; simpl; try done.
  destruct (int (dict_get body "startTime")) as [ms|e] eqn:Hms; simpl; [|done].
  destruct (int_truediv ms 1000) as [sec|e] eqn:Hsec; simpl; [|done].
  destruct (flt sec now); simpl; [done|].
  destruct (dict_get body "route") as [| | | | |[|x l]|]; simpl; try done.
  rewrite existsb_not_str. simpl.
  destruct (is_str x) eqn:Hx; simpl; [|done].
  destruct (forallb is_str l) eqn:Hl; simpl; [|done].
  intros _. exists uav_id, ms, sec, (omap as_str (x :: l)).
  assert (forallb is_str (x :: l) = true) as Hxl by (simpl; by rewrite Hx, Hl).
  do 3 (split; [done|]).
  split; [by rewrite <- forallb_is_str_names|]. done.
Qed.

(** The send of an accepted message: into the queue when there is room,
    parked behind it otherwise. *)
Lemma run_handler_send (uav_id : string) (st : state) :
  run_handler (AwaitSend uav_id (Return acknowledge)) st
  = if (length (queue st) <? QUEUE_CAPACITY)%nat
    then (with_queue st (queue st ++ [uav_id])%list (parked st),
          Replied acknowledge)
    else (with_queue st (queue st) (parked st ++ [uav_id])%list, Suspended).
Proof.
  simpl. unfold send. by destruct (length (queue st) <? QUEUE_CAPACITY)%nat.
Qed.

(** The seconds of the contract are those of the handler whenever its
    division returns, and the division raises nothing but
    [OverflowError]. *)
Lemma seconds_truediv (ms : Z) (sec : float) :
  int_truediv ms 1000 = Ok sec → seconds ms = sec.
Proof.
  unfold int_truediv, seconds.
  destruct ms as [|p|p]; [by intros [= <-]| |];
    by destruct (SFdiv _ _ _ _); intros; simplify_eq.
Qed.

Lemma int_truediv_raises (ms : Z) (e : exn) :
  int_truediv ms 1000 = Raise e → e = OverflowError.
Proof.
  unfold int_truediv.
  destruct ms as [|p|p]; [done| |];
    by destruct (SFdiv _ _ _ _); intros; simplify_eq.
Qed.

(** The handler does what the contract asks, the overflowing division
    apart. *)
Lemma handle_trip_addition_required (now : float)
    (body : list (string * val)) (st : state) :
  is_str (dict_get body "uavId") = false ∨ in_float_range body →
  required now body (handle_trip_addition now body st).2.
Proof.
  intros Hcase.
  unfold required, first_failing, checks, handle_trip_addition, passes.
  destruct (dict_get body "uavId") as [| | | |uav_id| |] eqn:Hu;
    simpl; try reflexivity.
  destruct Hcase as [|Hrange]; [done|].
  destruct (int (dict_get body "startTime")) as [ms|e] eqn:Hint; simpl.
  2: { by rewrite (int_raise_not_int _ _ Hint). }
  destruct (Hrange ms Hint) as [sec Hsec].
  rewrite Hsec, (seconds_truediv _ _ Hsec). simpl.
  destruct (flt sec now); simpl; [reflexivity|].
  destruct (dict_get body "route") as [| | | | |[|x l]|]; simpl; try reflexivity.
  rewrite existsb_not_str. simpl.
  destruct (is_str x); simpl; [|reflexivity].
  destruct (forallb is_str l); simpl; [eauto | reflexivity].
Qed.

(** A body that passes the five checks of the contract, its start time
    in range, passes them as the handler runs them. *)
Lemma contract_accepts (now : float) (body : list (string * val)) :
  first_failing now body = None → in_float_range body →
  validate now body checks = Accepted.
Proof.
  intros Hnone Hrange. revert Hnone.
  unfold first_failing, checks, validate, apply_check, passes. simpl.
  destruct (is_str (dict_get body "uavId")); simpl; [|done].
  destruct (int (dict_get body "startTime")) as [ms|e] eqn:Hint; simpl; [|done].
  destruct (Hrange ms Hint) as [sec Hsec].
  rewrite Hsec, (seconds_truediv _ _ Hsec).
  destruct (flt sec now); simpl; [done|].
  destruct (dict_get body "route") as [| | | | |[|x l]|]; simpl; try done.
  destruct (is_str x); simpl; [|done].
  by destruct (forallb is_str l).
Qed.


(** Beyond the range of a float the division of check (3) raises, and
    so does the handler. *)
Example handle_trip_addition_overflow (now : float) (st : state) :
  handle_trip_addition now
    [("uavId", VStr "U1"); ("startTime", VInt (10 ^ 400)); ("route", VList [VStr "S1"])] st
  = (st, Throw OverflowError).
Proof. reflexivity. Qed.

(** An accepted addition as a step of the extension while it runs: the
    id goes into the queue and the handler acknowledges, or the handler
    is parked behind the full queue with the acknowledgement left to
    do. *)
Lemma life_step_Add_sent (l : life) (now : float) (body : list (string * val))
    (u : string) (st' : state) :
  phase_of l = Running →
  handle_trip_addition now body (ext (core l))
  = (st', AwaitSend u (Return acknowledge)) →
  life_step (In (Add now body)) l
  = Some (if (length (queue st') <? QUEUE_CAPACITY)%nat
          then ({| core := {| ext := with_queue st' (queue st' ++ [u])%list
                                       (parked st');
                              holding := holding (core l) |};
                   phase_of := Running;
                   waiting := waiting l;
                   woken := woken l |},
                Did (Handled (Replied acknowledge)))
          else ({| core := {| ext := with_queue st' (queue st')
                                       (parked st' ++ [u])%list;
                              holding := holding (core l) |};
                   phase_of := Running;
                   waiting := (waiting l ++ [Return acknowledge])%list;
                   woken := woken l |},
                Did (Handled Suspended))).
Proof.
  intros Hph Hh. unfold life_step. rewrite Hph, Hh. simpl. unfold send.
  destruct (length (queue st') <? QUEUE_CAPACITY)%nat; simpl; [|done].
  by rewrite app_nil_r.
Qed.


(** *** X-TRIP-CANCEL *)

(** C3. The cancellation is rejected when uavId is no string, and when no
    trip is stored under it; otherwise the stored trip is removed and
    the message acknowledged. A cancellation that follows a successful
    one for the same id is therefore rejected for want of a trip. *)
Theorem handle_trip_cancellation_spec (body : list (string * val)) (st : state) :
  (is_str (dict_get body "uavId") = false →
   handle_trip_cancellation body st
   = (st, reject "Missing UAV ID or it is not a string"))
  ∧ (∀ uav_id, dict_get body "uavId" = VStr uav_id →
     _trips st !! uav_id = None →
     handle_trip_cancellation body st = (st, reject "UAV has no scheduled trip"))
  ∧ (∀ uav_id, dict_get body "uavId" = VStr uav_id →
     is_Some (_trips st !! uav_id) →
     let st' := with_trips st (delete uav_id (_trips st)) in
     handle_trip_cancellation body st = (st', acknowledge)
     ∧ _trips st' !! uav_id = None
     ∧ (∀ u, u ≠ uav_id → _trips st' !! u = _trips st !! u)
     ∧ handle_trip_cancellation body st'
       = (st', reject "UAV has no scheduled trip")).
Proof.
  unfold handle_trip_cancellation. split; [|split].
  - by destruct (dict_get body "uavId").
  - intros uav_id -> Hnone. rewrite Hnone.
    by rewrite with_trips_delete_absent.
  - intros uav_id -> [r Hr]. rewrite Hr. simpl.
    rewrite lookup_delete_eq. split; [done|]. split; [done|]. split.
    + intros u Hu. by rewrite lookup_delete_ne.
    + f_equal. destruct st; simpl. unfold with_trips; simpl.
      f_equal. apply delete_id, lookup_delete_eq.
Qed.

(** *** Rejections change nothing *)

(** C6. When a handler of X-TRIP-ADD or X-TRIP-CANCEL replies with a
    rejection, it has raised nothing and the extension is as before the
    call: the same trips, nothing sent on the queue. *)
Theorem reject_changes_nothing (a : action) (m m' : machine) (why : string) :
  (∃ now body, a = Add now body) ∨ (∃ body, a = Cancel body) →
  step a m = Some (m', Handled (Replied (reject why))) →
  m' = m
  ∧ _trips (ext m') = _trips (ext m)
  ∧ queue (ext m') = queue (ext m)
  ∧ parked (ext m') = parked (ext m)
  ∧ ∀ e, step a m ≠ Some (m', Handled (Raised e)).
Proof.
  intros Ha Hstep.
  assert (m' = m) as ->; [|by rewrite Hstep].
  destruct Ha as [(now & body & ->)|(body & ->)]; simpl in Hstep.
  - pose proof (handle_trip_addition_outcome now body (ext m)) as Hout.
    destruct (handle_trip_addition now body (ext m)) as [st p] eqn:Hh.
    destruct (validate now body checks) as [|c|e]; simpl in Hout.
    + destruct Hout as [uav_id ->]. simpl in Hstep.
      destruct (send uav_id st) as [st1 [|]]; simpl in Hstep; simplify_eq.
    + subst p. simpl in Hstep. simplify_eq.
      revert Hh. unfold handle_trip_addition.
      repeat (case_match; try done); intros; simplify_eq; by destruct m.
    + subst p. simpl in Hstep. simplify_eq.
  - revert Hstep. unfold handle_trip_cancellation.
    destruct (dict_get body "uavId"); intros; simplify_eq; try by destruct m.
    destruct (_trips (ext m) !! s) eqn:Hs; simplify_eq.
    rewrite with_trips_delete_absent by done. by destruct m.
Qed.

End Handlers.

(** *** The handlers on concrete messages *)

Example scenario_A :
  (snd <$> @run plain_builtins [Add now0 body_A; Cancel cancel_U1; Cancel cancel_U1] m0)
  = Some [Handled (Replied acknowledge); Handled (Replied acknowledge);
          Handled (Replied (reject "UAV has no scheduled trip"))].
Proof. reflexivity. Qed.

Example scenario_B :
  (snd <$> @run plain_builtins [Add now0 body_B] m0)
  = Some [Handled (Replied (reject "Start time is in the past"))].
Proof. reflexivity. Qed.

Example scenario_C :
  (snd <$> @run plain_builtins [Add now0 body_C] m0)
  = Some [Handled (Replied (reject "Route is not specified or is empty"))].
Proof. reflexivity. Qed.




Lemma handle_trip_cancellation_witness :
  let st := (@handle_trip_addition plain_builtins now0 body_A (ext m0)).1 in
  let st' := with_trips st (delete "U1" (_trips st)) in
  handle_trip_cancellation cancel_U1 st = (st', acknowledge)
  ∧ handle_trip_cancellation cancel_U1 st' = (st', reject "UAV has no scheduled trip").
Proof.
  intros st st'.
  destruct (handle_trip_cancellation_spec cancel_U1 st) as (_ & _ & Hsome).
  destruct (Hsome "U1" eq_refl) as (Hfirst & _ & _ & Hsecond).
  - exists 0%nat. reflexivity.
  - split; [exact Hfirst | exact Hsecond].
Defined.

Lemma reject_changes_nothing_witness :
  @step plain_builtins (Add now0 body_B) m0
  = Some (m0, Handled (Replied (reject "Start time is in the past")))
  ∧ queue (ext m0) = [] ∧ _trips (ext m0) = ∅.
Proof.
  assert (@step plain_builtins (Add now0 body_B) m0
          = Some (m0, Handled (Replied (reject "Start time is in the past"))))
    as Hstep by reflexivity.
  destruct (@reject_changes_nothing plain_builtins (Add now0 body_B) m0 m0
              "Start time is in the past"
              (or_introl (ex_intro _ now0 (ex_intro _ body_B eq_refl))) Hstep)
    as (_ & _ & Hq & _).
  split; [exact Hstep|]. split; [exact Hq | reflexivity].
Defined.

(** *** Configuration *)

Section Configuration.
Context `{Builtins}.

Lemma assoc_get_is_Some (d : list (string * val)) (k : string) :
  is_Some (assoc_get d k) ↔ k ∈ d.*1.
Proof.
  induction d as [|[k' v] d IH]; simpl.
  - split; [by intros [? ?] | by intros ?%elem_of_nil].
  - rewrite elem_of_cons. destruct (String.eqb_spec k' k) as [->|Hne].
    + split; [by left | eauto].
    + rewrite IH. split; [by right | by intros [?|?]].
Qed.

Lemma same_dict_keys_Permutation (d1 d2 : list (string * val)) :
  NoDup d1.*1 → NoDup d2.*1 →
  (∀ k, assoc_get d1 k = assoc_get d2 k) →
  d1.*1 ≡ₚ d2.*1.
Proof.
  intros Hd1 Hd2 Hget. apply NoDup_Permutation; [done..|].
  intros k. by rewrite <- !assoc_get_is_Some, Hget.
Qed.

Lemma sorted_Permutation (l1 l2 : list string) :
  l1 ≡ₚ l2 → sorted l1 = sorted l2.
Proof.
  intros Hperm. unfold sorted.
  apply (Sorted_unique String.le); try apply Sorted_merge_sort; try apply _.
  by rewrite !merge_sort_Permutation.
Qed.

Lemma mapM_result_ext {A B} (f g : A → result B) (l : list A) :
  (∀ x, f x = g x) → mapM f l = mapM g l.
Proof.
  intros Hfg. induction l as [|x l IH]; simpl; [done|].
  by rewrite Hfg, IH.
Qed.

(** C9. A configuration without stations, or with an empty dictionary of
    them, is accepted and gives no station. Two station dictionaries that
    hold the same value under every key give the same result whatever
    the order of their entries, the ids being taken in sorted order:
    the same stations in the same order, or the same exception. *)
Theorem configure_stations_deterministic :
  (∀ configuration st,
     assoc_get configuration "stations" = None
     ∨ assoc_get configuration "stations" = Some (VDict []) →
     configure configuration st = Ok (with_stations st []))
  ∧ (∀ d1 d2 st,
       NoDup d1.*1 → NoDup d2.*1 →
       (∀ k, assoc_get d1 k = assoc_get d2 k) →
       configure_stations (VDict d1) st = configure_stations (VDict d2) st).
Proof.
  split.
  - intros configuration st Hget. unfold configure, dict_get.
    by destruct Hget as [-> | ->].
  - intros d1 d2 st Hd1 Hd2 Hget. unfold configure_stations.
    assert (truthy (VDict d1) = truthy (VDict d2)) as Htruthy.
    { destruct d1 as [|[k v] d1], d2 as [|[k' v'] d2]; simpl; try done.
      - specialize (Hget k'). simpl in Hget. by rewrite String.eqb_refl in Hget.
      - specialize (Hget k). simpl in Hget. by rewrite String.eqb_refl in Hget. }
    rewrite <- Htruthy. destruct (truthy (VDict d1)); [|done].
    rewrite (sorted_Permutation d1.*1 d2.*1)
      by by apply same_dict_keys_Permutation.
    f_equal. apply mapM_result_ext. intros k. by rewrite Hget.
Qed.

End Configuration.

Example configure_stations_example :
  @configure plain_builtins [("stations", VDict stations_21)] initial
  = Ok (with_stations initial
          [("S1", {| id := "S1";
                     position := {| lat := f_47_47; lon := f_19_04; agl := fzero |} |});
           ("S2", {| id := "S2";
                     position := {| lat := S754_finite false 6614661952700416 (-47);
                                    lon := S754_finite false 5348024557502464 (-48);
                                    agl := fzero |} |})]).
Proof. reflexivity. Qed.

Lemma configure_stations_witness :
  @configure plain_builtins [] initial = Ok initial
  ∧ @configure_stations plain_builtins (VDict stations_12) initial
    = @configure_stations plain_builtins (VDict stations_21) initial.
Proof.
  destruct (@configure_stations_deterministic plain_builtins) as [Hnone Hsame].
  split.
  - apply (Hnone [] initial). by left.
  - apply Hsame; [compute_done | compute_done |].
    intros k. unfold stations_12, stations_21, assoc_get.
    destruct (String.eqb "S1" k) eqn:E1, (String.eqb "S2" k) eqn:E2;
      try reflexivity.
    apply String.eqb_eq in E1, E2. congruence.
Defined.

(** *** Waypoint files *)

Section WaypointFiles.
Context `{Builtins}.

Lemma WAYPOINT_STR_parse :
  parse WAYPOINT_STR (Text "") []
  = Some [Lit "
# taking off towards station '"; Field (Named "station") SNone; Lit "'
motoron=5
takeoff=5 4 1 0
waypoint=N"; Field (Named "lat") (SFixed 8); Lit " E";
          Field (Named "lon") (SFixed 8); Lit " ";
          Field (Named "agl") (SFixed 2); Lit " ";
          Field (Named "velocity_xy") (SFixed 2); Lit " ";
          Field (Named "velocity_z") (SFixed 2); Lit " 5 0
# landing at station '"; Field (Named "station") SNone; Lit "'
land=4 1 0
motoroff=10
"].
Proof. reflexivity. Qed.

Lemma waypoint_block_configured (st : state) (velocity_xy velocity_z agl : arg)
    (s_agl s_xy s_z : string) (name : string) (s : Station) :
  stations_getitem (_stations st) name = Ok s →
  format_arg (SFixed 2) agl = Ok s_agl →
  format_arg (SFixed 2) velocity_xy = Ok s_xy →
  format_arg (SFixed 2) velocity_z = Ok s_z →
  waypoint_block st velocity_xy velocity_z agl name
  = Ok (block_of st s_agl s_xy s_z name).
Proof.
  intros Hs Hagl Hxy Hz. unfold waypoint_block, block_of, format.
  rewrite Hs, WAYPOINT_STR_parse.
  cbn [mbind result_bind render kw_get String.eqb Ascii.eqb Bool.eqb].
  change (format_arg SNone (AStr name)) with (Ok name).
  change (format_arg (SFixed 8) (AFloat ?x)) with (Ok (format_f 8 x)).
  rewrite Hagl, Hxy, Hz.
  cbn [mbind result_bind].
  by rewrite append_empty_r.
Qed.

Lemma waypoint_blocks_configured (st : state) (velocity_xy velocity_z agl : arg)
    (s_agl s_xy s_z : string) (names : list string) :
  Forall (fun name => ∃ s, stations_getitem (_stations st) name = Ok s) names →
  format_arg (SFixed 2) agl = Ok s_agl →
  format_arg (SFixed 2) velocity_xy = Ok s_xy →
  format_arg (SFixed 2) velocity_z = Ok s_z →
  mapM (waypoint_block st velocity_xy velocity_z agl) names
  = Ok (block_of st s_agl s_xy s_z <$> names).
Proof.
  intros Hnames Hagl Hxy Hz.
  induction Hnames as [|name names [s Hs] _ IH]; simpl; [done|].
  rewrite (waypoint_block_configured _ _ _ _ _ _ _ _ _ Hs Hagl Hxy Hz). simpl.
  by rewrite IH.
Qed.

(** C8. For a uav_id with a stored trip whose route names configured
    stations only, the waypoint file is the init header followed by one
    block per route element, in route order, each with the latitude and
    longitude of its station. For a uav_id that counts as false (the
    empty string, 0) it is the header alone, whatever the trips and the
    stations; the first case is therefore that of a non-empty id. *)
Theorem generate_waypoint_file_from_route_spec (st : state)
    (velocity_xy velocity_z agl : arg) :
  (∀ (uav_id : string) (trip : Trip) (s_agl s_xy s_z : string),
     uav_id ≠ "" →
     trip_of st uav_id = Some trip →
     Forall (fun name => ∃ s, stations_getitem (_stations st) name = Ok s)
       (route trip) →
     format_arg (SFixed 2) agl = Ok s_agl →
     format_arg (SFixed 2) velocity_xy = Ok s_xy →
     format_arg (SFixed 2) velocity_z = Ok s_z →
     generate_waypoint_file_from_route st (VStr uav_id) velocity_xy velocity_z agl
     = Ok (String.concat ""
             (WAYPOINT_INIT_STR :: (block_of st s_agl s_xy s_z <$> route trip))))
  ∧ (∀ falsy, truthy falsy = false →
       generate_waypoint_file_from_route st falsy velocity_xy velocity_z agl
       = Ok WAYPOINT_INIT_STR).
Proof.
  split.
  - intros uav_id trip s_agl s_xy s_z Hid Htrip Hroute Hagl Hxy Hz.
    unfold generate_waypoint_file_from_route, trips_getitem. simpl.
    apply String.eqb_neq in Hid. rewrite Hid, Htrip. simpl.
    by rewrite (waypoint_blocks_configured _ _ _ _ _ _ _ _ Hroute Hagl Hxy Hz).
  - intros falsy Hfalsy. unfold generate_waypoint_file_from_route.
    by rewrite Hfalsy.
Qed.

End WaypointFiles.

Example waypoint_file_U1 :
  @generate_waypoint_file_from_route plain_builtins st_U1 (VStr "U1")
    (AInt 4) (AInt 1) (AInt 5)
  = Ok "# this is a waypoint file generated by flockwave-server

[init]
#angle=
ground_altitude=0
#origin=

[waypoints]
motoroff=10

# taking off towards station 'S1'
motoron=5
takeoff=5 4 1 0
waypoint=N47.47000000 E19.04000000 5.00 4.00 1.00 5 0
# landing at station 'S1'
land=4 1 0
motoroff=10

# taking off towards station 'S2'
motoron=5
takeoff=5 4 1 0
waypoint=N47.00000000 E19.00000000 5.00 4.00 1.00 5 0
# landing at station 'S2'
land=4 1 0
motoroff=10
".
Proof. reflexivity. Qed.

Lemma generate_waypoint_file_from_route_witness :
  @generate_waypoint_file_from_route plain_builtins st_U1 (VStr "U1")
    (AInt 4) (AInt 1) (AInt 5)
  = Ok (String.concat ""
          (WAYPOINT_INIT_STR :: (block_of st_U1 "5.00" "4.00" "1.00" <$> ["S1"; "S2"])))
  ∧ @generate_waypoint_file_from_route plain_builtins st_U1 (VInt 0)
      (AInt 4) (AInt 1) (AInt 5)
    = Ok WAYPOINT_INIT_STR
  ∧ @generate_waypoint_file_from_route plain_builtins initial (VStr "")
      (AStr "fast") (AInt 1) (AInt 5)
    = Ok WAYPOINT_INIT_STR.
Proof.
  destruct (@generate_waypoint_file_from_route_spec plain_builtins st_U1
              (AInt 4) (AInt 1) (AInt 5)) as [Hfile Hfalsy].
  destruct (@generate_waypoint_file_from_route_spec plain_builtins initial
              (AStr "fast") (AInt 1) (AInt 5)) as [_ Hnone].
  split; [|split; [apply Hfalsy | apply Hnone]; reflexivity].
  apply (Hfile "U1"
           (new_Trip "U1" (S754_finite false 7130317051658240 (-22)) ["S1"; "S2"])
           "5.00" "4.00" "1.00"); try reflexivity.
  - discriminate.
  - repeat constructor; eexists; reflexivity.
Defined.

(** The empty string is a uavId the handler accepts. With a trip stored
    under it and its stations configured, the file is still the header
    alone, as for any id that counts as false. *)
Example generate_waypoint_file_empty_id :
  (@handle_trip_addition plain_builtins now0 body_empty_id st_configured).2
  = AwaitSend "" (Return acknowledge)
  ∧ route <$> trip_of st_empty_id "" = Some ["S1"; "S2"]
  ∧ forallb (fun name =>
               match stations_getitem (_stations st_empty_id) name with
               | Ok _ => true
               | Raise _ => false
               end) ["S1"; "S2"] = true
  ∧ @generate_waypoint_file_from_route plain_builtins st_empty_id (VStr "")
      (AInt 4) (AInt 1) (AInt 5)
    = Ok WAYPOINT_INIT_STR
  ∧ String.eqb WAYPOINT_INIT_STR
      (String.concat ""
         (WAYPOINT_INIT_STR
            :: (block_of st_empty_id "5.00" "4.00" "1.00" <$> ["S1"; "S2"])))
    = false.
Proof. repeat split. Qed.

(** *** The background task and superseded trips *)

Section BackgroundTask.
Context `{Builtins}.

Lemma handle_trip_addition_effect (now : float) (body : list (string * val))
    (st : state) :
  (handle_trip_addition now body st).1 = st
  ∨ ∃ u trip,
      status trip = NEW
      ∧ dict_get body "uavId" = VStr u
      ∧ handle_trip_addition now body st
        = (with_trips (with_heap st (heap st ++ [trip])%list)
             (<[u := length (heap st)]> (_trips st)),
           AwaitSend u (Return acknowledge)).
Proof.
  unfold handle_trip_addition.
  destruct (dict_get body "uavId") as [| | | |u| |]; try by left.
  destruct (as_int _) as [ms|]; [|by left].
  destruct (int_truediv ms 1000) as [sec|e]; [|by left].
  destruct (flt sec now); [by left|].
  destruct (dict_get body "route") as [| | | | |[|x l]|]; try by left.
  destruct (existsb _ (x :: l)); [by left|].
  right. eexists _, _. split; [|split; reflexivity]. reflexivity.
Qed.

Lemma run_handler_fields (p : async reply) (st : state) :
  heap (run_handler p st).1 = heap st
  ∧ _trips (run_handler p st).1 = _trips st
  ∧ consumer (run_handler p st).1 = consumer st.
Proof.
  revert st. induction p as [r|e|item k IH]; intros st; simpl; [done..|].
  unfold send. destruct (length (queue st) <? QUEUE_CAPACITY)%nat; simpl; [|done].
  destruct (IH (with_queue st (queue st ++ [item])%list (parked st)))
    as (-> & -> & ->). done.
Qed.

Lemma step_Add_inv (now : float) (body : list (string * val))
    (m m' : machine) (o : obs) :
  step (Add now body) m = Some (m', o) →
  let hp := handle_trip_addition now body (ext m) in
  ext m' = (run_handler hp.2 hp.1).1
  ∧ holding m' = holding m
  ∧ o = Handled (run_handler hp.2 hp.1).2.
Proof.
  simpl. destruct (handle_trip_addition now body (ext m)) as [st p]; simpl.
  destruct (run_handler p st) as [st' d]; simpl.
  intros [= <- <-]. done.
Qed.

Lemma step_Add_fields (now : float) (body : list (string * val))
    (m m' : machine) (o : obs) :
  step (Add now body) m = Some (m', o) →
  consumer (ext m') = consumer (ext m)
  ∧ ((heap (ext m') = heap (ext m) ∧ _trips (ext m') = _trips (ext m))
     ∨ ∃ u trip,
         status trip = NEW
         ∧ dict_get body "uavId" = VStr u
         ∧ heap (ext m') = (heap (ext m) ++ [trip])%list
         ∧ _trips (ext m') = <[u := length (heap (ext m))]> (_trips (ext m))).
Proof.
  intros (Hext & _ & _)%step_Add_inv.
  destruct (run_handler_fields
              (handle_trip_addition now body (ext m)).2
              (handle_trip_addition now body (ext m)).1) as (Hh & Ht & Hc).
  rewrite <- Hext in Hh, Ht, Hc. rewrite Hh, Ht, Hc.
  destruct (handle_trip_addition_effect now body (ext m))
    as [-> | (u & trip & Hnew & Hu & ->)]; simpl.
  - split; [done|]. by left.
  - split; [done|]. right. by exists u, trip.
Qed.

Lemma step_Cancel_fields (body : list (string * val)) (m m' : machine) (o : obs) :
  step (Cancel body) m = Some (m', o) →
  consumer (ext m') = consumer (ext m)
  ∧ heap (ext m') = heap (ext m)
  ∧ ∀ u r, _trips (ext m') !! u = Some r → _trips (ext m) !! u = Some r.
Proof.
  simpl. unfold handle_trip_cancellation.
  destruct (dict_get body "uavId") as [| | | |u| |]; simpl;
    try (intros [= <- <-]; done).
  destruct (_trips (ext m) !! u); intros [= <- <-]; simpl;
    (split; [done|]; split; [done|]);
    intros u' r' Hr'; by apply lookup_delete_Some in Hr' as [_ ?].
Qed.

Lemma step_Receive_fields (m m' : machine) (o : obs) :
  step Receive m = Some (m', o) →
  consumer (ext m') = consumer (ext m)
  ∧ heap (ext m') = heap (ext m)
  ∧ _trips (ext m') = _trips (ext m)
  ∧ ∃ u, o = Received u ∧ holding m' = Some u
         ∧ ∃ q, queue (ext m) = u :: q.
Proof.
  simpl. destruct (consumer (ext m)) eqn:Hc; [|done].
  destruct (holding m); [done|]. unfold receive.
  destruct (queue (ext m)) as [|x q]; [done|].
  destruct (parked (ext m)); simpl; intros [= <- <-]; simpl;
    (do 3 (split; [done|])); exists x; (do 2 (split; [done|])); by exists q.
Qed.

Lemma step_Begin_inv (m m' : machine) (o : obs) :
  step Begin m = Some (m', o) →
  ∃ u, holding m = Some u ∧ consumer (ext m) = Idle ∧ holding m' = None
    ∧ ((o = Skipped u ∧ ext m' = ext m
        ∧ ∀ r t, _trips (ext m) !! u = Some r → heap (ext m) !! r = Some t →
                 status t ≠ NEW)
       ∨ ∃ r t, o = Started u r
           ∧ _trips (ext m) !! u = Some r
           ∧ heap (ext m) !! r = Some t
           ∧ status t = NEW
           ∧ heap (ext m') = <[r := set_status UPLOADING t]> (heap (ext m))
           ∧ _trips (ext m') = _trips (ext m)
           ∧ consumer (ext m') = Sleeping r).
Proof.
  simpl. destruct (consumer (ext m)) eqn:Hc; [|done].
  destruct (holding m) as [u|]; [|done]. unfold upload_begin.
  destruct (_trips (ext m) !! u) as [r|] eqn:Hr.
  2: { intros [= <- <-]. exists u. do 3 (split; [done|]). left.
       do 2 (split; [done|]). intros r t ? ?. simplify_eq. }
  destruct (heap (ext m) !! r) as [t|] eqn:Ht.
  2: { intros [= <- <-]. exists u. do 3 (split; [done|]). left.
       do 2 (split; [done|]). intros r' t' ? ?. simplify_eq. }
  destruct (decide (status t = NEW)) as [Hnew|Hnew]; intros [= <- <-].
  - exists u. do 3 (split; [done|]). right. exists r, t.
    do 6 (split; [done|]). done.
  - exists u. do 3 (split; [done|]). left.
    do 2 (split; [done|]). intros r' t' ? ?. by simplify_eq.
Qed.

Lemma step_Wake_inv (raised : bool) (m m' : machine) (o : obs) :
  step (Wake raised) m = Some (m', o) →
  ∃ r, consumer (ext m) = Sleeping r
    ∧ o = Finished r (if raised then ERROR else UPLOADED)
    ∧ heap (ext m')
      = alter (set_status (if raised then ERROR else UPLOADED)) r (heap (ext m))
    ∧ _trips (ext m') = _trips (ext m)
    ∧ consumer (ext m') = Idle
    ∧ holding m' = holding m.
Proof.
  simpl. destruct (consumer (ext m)) as [|r] eqn:Hc; [done|].
  intros [= <- <-]. exists r. do 5 (split; [done|]). done.
Qed.

(** A settled trip object stays settled, and no step starts on it. *)
Lemma step_settled (r : nat) (a : action) (m m' : machine) (o : obs) :
  settled r (ext m) → step a m = Some (m', o) →
  settled r (ext m') ∧ starts r o = false.
Proof.
  intros (t & Ht & Hs) Hstep. destruct a as [now body|body| | |raised].
  - pose proof (step_Add_inv _ _ _ _ _ Hstep) as (_ & _ & ->).
    split; [|done].
    destruct (step_Add_fields _ _ _ _ _ Hstep)
      as (_ & [[Hh Hm] | (u & trip & _ & _ & Hh & Hm)]).
    + exists t. rewrite Hh, Hm. done.
    + exists t. rewrite Hh, Hm. split; [by apply lookup_app_l_Some|].
      destruct Hs as [Hs|Hs]; [by left|]. right. intros u'.
      destruct (decide (u = u')) as [->|Hne].
      * rewrite lookup_insert_eq. intros [= <-].
        apply lookup_lt_Some in Ht. lia.
      * by rewrite lookup_insert_ne.
  - destruct (step_Cancel_fields _ _ _ _ Hstep) as (_ & Hh & Hm).
    split.
    + exists t. rewrite Hh. split; [done|].
      destruct Hs as [Hs|Hs]; [by left|]. right. intros u' Hu'.
      by apply (Hs u'), Hm.
    + simpl in Hstep. destruct (handle_trip_cancellation body (ext m)).
      by simplify_eq.
  - destruct (step_Receive_fields _ _ _ Hstep) as (_ & Hh & Hm & u & -> & _).
    split; [|done]. exists t. by rewrite Hh, Hm.
  - destruct (step_Begin_inv _ _ _ Hstep)
      as (u & _ & _ & _ & [(-> & -> & _) | (r' & t' & -> & Hr' & Ht' & Hnew & Hh & Hm & _)]).
    + split; [|done]. by exists t.
    + assert (r' ≠ r) as Hne.
      { intros ->. destruct Hs as [Hs|Hs]; [|by apply (Hs u)]. by simplify_eq. }
      split; [|by apply bool_decide_eq_false].
      exists t. rewrite Hh, Hm. split; [|done].
      by rewrite list_lookup_insert_ne.
  - destruct (step_Wake_inv _ _ _ _ Hstep) as (r' & _ & -> & Hh & Hm & _).
    split; [|done]. unfold settled. rewrite Hh, Hm.
    destruct (decide (r' = r)) as [->|Hne].
    + exists (set_status (if raised then ERROR else UPLOADED) t). split.
      * by rewrite list_lookup_alter_eq, Ht.
      * left. by destruct raised.
    + exists t. split; [|done]. by rewrite list_lookup_alter_ne.
Qed.

Lemma run_settled (r : nat) (acts : list action) (m m' : machine)
    (os : list obs) :
  settled r (ext m) → run acts m = Some (m', os) →
  settled r (ext m') ∧ uploads_of r os = 0%nat.
Proof.
  revert m os. induction acts as [|a acts IH]; intros m os Hs Hrun.
  - simpl in Hrun. by simplify_eq.
  - simpl in Hrun.
    destruct (step a m) as [[m1 o]|] eqn:Hstep; [|done]. simpl in Hrun.
    destruct (run acts m1) as [[m2 os']|] eqn:Hrest; [|done].
    simpl in Hrun. simplify_eq.
    destruct (step_settled _ _ _ _ _ Hs Hstep) as [Hs1 Ho].
    destruct (IH _ _ Hs1 Hrest) as [Hs2 Hcount].
    split; [done|]. unfold uploads_of in *. simpl. by rewrite Ho.
Qed.

(** However the handlers and the background task interleave, the upload
    of a trip object starts at most once. *)
Lemma run_uploads_once (r : nat) (acts : list action) (m m' : machine)
    (os : list obs) :
  run acts m = Some (m', os) → (uploads_of r os ≤ 1)%nat.
Proof.
  revert m os. induction acts as [|a acts IH]; intros m os Hrun.
  - simpl in Hrun. simplify_eq. unfold uploads_of. simpl. lia.
  - simpl in Hrun.
    destruct (step a m) as [[m1 o]|] eqn:Hstep; [|done]. simpl in Hrun.
    destruct (run acts m1) as [[m2 os']|] eqn:Hrest; [|done].
    simpl in Hrun. simplify_eq.
    unfold uploads_of. simpl. destruct (starts r o) eqn:Ho.
    + destruct o as [| |u r'| |]; try done. simpl in Ho.
      apply bool_decide_eq_true in Ho as ->.
      destruct a as [now body|body| | |raised].
      { by pose proof (step_Add_inv _ _ _ _ _ Hstep) as (_ & _ & ?). }
      { simpl in Hstep. destruct (handle_trip_cancellation body (ext m)).
        by simplify_eq. }
      { by destruct (step_Receive_fields _ _ _ Hstep) as (_ & _ & _ & ? & ? & _). }
      2: { by destruct (step_Wake_inv _ _ _ _ Hstep) as (? & _ & ? & _). }
      destruct (step_Begin_inv _ _ _ Hstep)
        as (u' & _ & _ & _ & [(? & _) | (r' & t' & Ho & _ & Ht' & _ & Hh & _)]);
        [done|]. simplify_eq.
      assert (settled r' (ext m1)) as Hs.
      { exists (set_status UPLOADING t'). rewrite Hh. split; [|by left].
        apply list_lookup_insert_eq. by eapply lookup_lt_Some. }
      destruct (run_settled _ _ _ _ _ Hs Hrest) as [_ Hzero].
      unfold uploads_of in Hzero. simpl. lia.
    + by apply (IH m1).
Qed.

Lemma step_refs_valid (a : action) (m m' : machine) (o : obs) :
  refs_valid (ext m) → step a m = Some (m', o) → refs_valid (ext m').
Proof.
  intros Hv Hstep u r. destruct a as [now body|body| | |raised].
  - destruct (step_Add_fields _ _ _ _ _ Hstep)
      as (_ & [[-> ->] | (u' & trip & _ & _ & -> & ->)]); [apply Hv|].
    rewrite length_app. simpl.
    destruct (decide (u' = u)) as [->|Hne].
    + rewrite lookup_insert_eq. intros [= <-]. lia.
    + rewrite lookup_insert_ne by done. intros Hr%Hv. lia.
  - destruct (step_Cancel_fields _ _ _ _ Hstep) as (_ & -> & Hm).
    intros Hr%Hm. by apply (Hv u).
  - destruct (step_Receive_fields _ _ _ Hstep) as (_ & -> & -> & _). apply Hv.
  - destruct (step_Begin_inv _ _ _ Hstep)
      as (u' & _ & _ & _ & [(_ & -> & _) | (r' & t' & _ & _ & _ & _ & -> & -> & _)]);
      [apply Hv|].
    rewrite length_insert. apply Hv.
  - destruct (step_Wake_inv _ _ _ _ Hstep) as (r' & _ & _ & -> & -> & _).
    rewrite length_alter. apply Hv.
Qed.

Lemma reachable_refs_valid (m : machine) : reachable m → refs_valid (ext m).
Proof.
  induction 1 as [ss|a m m' o _ IH Hstep].
  - intros u r. simpl. by rewrite lookup_empty.
  - by eapply step_refs_valid.
Qed.

(** An accepted X-TRIP-ADD as a step, with room in the queue. *)
Lemma step_Add_accepted (now : float) (body : list (string * val))
    (u : string) (m : machine) :
  validate now body checks = Accepted →
  dict_get body "uavId" = VStr u →
  (length (queue (ext m)) < QUEUE_CAPACITY)%nat →
  ∃ trip,
    status trip = NEW
    ∧ step (Add now body) m
      = Some ({| ext := with_queue
                          (with_trips
                             (with_heap (ext m) (heap (ext m) ++ [trip])%list)
                             (<[u := length (heap (ext m))]> (_trips (ext m))))
                          (queue (ext m) ++ [u])%list (parked (ext m));
                 holding := holding m |},
              Handled (Replied acknowledge)).
Proof.
  intros Hok Hu Hroom.
  destruct (handle_trip_addition_stores now body (ext m) Hok)
    as (u' & ms & sec & names & Hu' & _ & _ & _ & Hh).
  rewrite Hu in Hu'. injection Hu' as <-.
  exists (new_Trip u sec names). split; [done|].
  simpl. rewrite Hh. rewrite run_handler_send.
  apply Nat.ltb_lt in Hroom. simpl. by rewrite Hroom.
Qed.

Lemma run_cons_Some (a : action) (acts : list action) (m m1 m2 : machine)
    (o : obs) (os : list obs) :
  step a m = Some (m1, o) → run acts m1 = Some (m2, os) →
  run (a :: acts) m = Some (m2, o :: os).
Proof. intros Hstep Hrun. unfold run; fold run. by rewrite Hstep; simpl; rewrite Hrun. Qed.

Lemma step_Receive_head (m : machine) (x : string) (q : list string) :
  consumer (ext m) = Idle → holding m = None →
  queue (ext m) = x :: q → parked (ext m) = [] →
  step Receive m
  = Some ({| ext := with_queue (ext m) q []; holding := Some x |}, Received x).
Proof.
  intros Hc Hh Hq Hp. simpl. rewrite Hc, Hh. unfold receive.
  by rewrite Hq, Hp.
Qed.

Lemma step_Wake_sleeping (raised : bool) (m : machine) (r : nat) :
  consumer (ext m) = Sleeping r →
  step (Wake raised) m
  = Some ({| ext := upload_end raised r (ext m); holding := holding m |},
          Finished r (if raised then ERROR else UPLOADED)).
Proof. intros Hc. simpl. by rewrite Hc. Qed.

Lemma step_Begin_started (m : machine) (u : string) (r : nat) (t : Trip) :
  consumer (ext m) = Idle → holding m = Some u →
  _trips (ext m) !! u = Some r → heap (ext m) !! r = Some t → status t = NEW →
  step Begin m
  = Some ({| ext := with_consumer
                      (with_heap (ext m)
                         (<[r := set_status UPLOADING t]> (heap (ext m))))
                      (Sleeping r);
             holding := None |},
          Started u r).
Proof.
  intros Hc Hh Hr Ht Hnew. simpl. rewrite Hc, Hh. unfold upload_begin.
  rewrite Hr, Ht. by destruct (decide (status t = NEW)).
Qed.

Lemma step_Begin_skipped (m : machine) (u : string) (r : nat) (t : Trip) :
  consumer (ext m) = Idle → holding m = Some u →
  _trips (ext m) !! u = Some r → heap (ext m) !! r = Some t → status t ≠ NEW →
  step Begin m = Some ({| ext := ext m; holding := None |}, Skipped u).
Proof.
  intros Hc Hh Hr Ht Hnew. simpl. rewrite Hc, Hh. unfold upload_begin.
  rewrite Hr, Ht. by destruct (decide (status t = NEW)).
Qed.

(** Two additions for one id, one right after the other, on an idle
    extension with an empty queue: the run of the background task
    through their two queue entries. *)
Lemma double_add_run (m : machine) (now1 now2 : float)
    (body1 body2 : list (string * val)) (u : string) (raised : bool) :
  reachable m →
  consumer (ext m) = Idle → holding m = None →
  queue (ext m) = [] → parked (ext m) = [] →
  validate now1 body1 checks = Accepted →
  validate now2 body2 checks = Accepted →
  dict_get body1 "uavId" = VStr u →
  dict_get body2 "uavId" = VStr u →
  let r1 := length (heap (ext m)) in
  let r2 := S r1 in
  ∃ m2 m3,
    run [Add now1 body1; Add now2 body2] m
    = Some (m2, [Handled (Replied acknowledge); Handled (Replied acknowledge)])
    ∧ _trips (ext m2) !! u = Some r2
    ∧ status <$> heap (ext m2) !! r2 = Some NEW
    ∧ queue (ext m2) = [u; u]
    ∧ run [Receive; Begin; Wake raised; Receive; Begin] m2
      = Some (m3, [Received u; Started u r2;
                   Finished r2 (if raised then ERROR else UPLOADED);
                   Received u; Skipped u])
    ∧ ∀ acts m4 os, run acts m2 = Some (m4, os) →
        uploads_of r1 os = 0%nat ∧ (uploads_of r2 os ≤ 1)%nat.
Proof.
  intros Hreach Hc Hh Hq Hp Hok1 Hok2 Hu1 Hu2 r1 r2.
  pose proof (reachable_refs_valid _ Hreach) as Hv.
  destruct (step_Add_accepted now1 body1 u m Hok1 Hu1) as (t1 & Hn1 & Hs1).
  { rewrite Hq. unfold QUEUE_CAPACITY. simpl. lia. }
  set (m1 := {| ext := with_queue
                          (with_trips
                             (with_heap (ext m) (heap (ext m) ++ [t1])%list)
                             (<[u := length (heap (ext m))]> (_trips (ext m))))
                          (queue (ext m) ++ [u])%list (parked (ext m));
                holding := holding m |}) in *.
  destruct (step_Add_accepted now2 body2 u m1 Hok2 Hu2) as (t2 & Hn2 & Hs2).
  { simpl. rewrite Hq. unfold QUEUE_CAPACITY. simpl. lia. }
  set (m2 := {| ext := with_queue
                          (with_trips
                             (with_heap (ext m1) (heap (ext m1) ++ [t2])%list)
                             (<[u := length (heap (ext m1))]> (_trips (ext m1))))
                          (queue (ext m1) ++ [u])%list (parked (ext m1));
                holding := holding m1 |}) in *.
  assert (_trips (ext m2) !! u = Some r2) as Hr2.
  { simpl. rewrite lookup_insert_eq, length_app. simpl. f_equal. unfold r2, r1. lia. }
  assert (heap (ext m2) !! r2 = Some t2) as Ht2.
  { simpl. rewrite lookup_app_r; rewrite length_app; simpl; unfold r2, r1;
      [|lia]. by replace (S (length (heap (ext m))) - (length (heap (ext m)) + 1))%nat
        with 0%nat by lia. }
  exists m2. eexists.
  split. { eapply run_cons_Some; [exact Hs1|]. by eapply run_cons_Some. }
  split; [done|]. split. { by rewrite Ht2; simpl; rewrite Hn2. }
  split. { simpl. by rewrite Hq. }
  split.
  2: { intros acts m4 os Hrun. split.
       - eapply run_settled; [|done]. exists t1. split.
         + simpl. apply lookup_app_l_Some. by apply list_lookup_middle.
         + right. intros u'. simpl. rewrite insert_insert_eq.
           destruct (decide (u = u')) as [->|Hne].
           * rewrite lookup_insert_eq, length_app. simpl. intros [= ?]. lia.
           * rewrite lookup_insert_ne by done. intros Hr%Hv. unfold r1 in *. lia.
       - by eapply run_uploads_once. }
  eapply run_cons_Some.
  { apply (step_Receive_head m2 u [u]); simpl; try done. by rewrite Hq. }
  eapply run_cons_Some.
  { by apply (step_Begin_started _ u r2 t2). }
  eapply run_cons_Some.
  { by apply (step_Wake_sleeping raised _ r2). }
  eapply run_cons_Some.
  { by apply (step_Receive_head _ u []). }
  eapply run_cons_Some; [|reflexivity].
  apply (step_Begin_skipped _ u r2
           (set_status (if raised then ERROR else UPLOADED)
              (set_status UPLOADING t2))); try done.
  - simpl. rewrite list_lookup_alter_eq, list_lookup_insert_eq; [done|].
    by eapply lookup_lt_Some.
  - by destruct raised.
Qed.

Lemma step_refs_inj (a : action) (m m' : machine) (o : obs) :
  refs_valid (ext m) → refs_inj (ext m) → step a m = Some (m', o) →
  refs_inj (ext m').
Proof.
  intros Hv Hi Hstep u1 u2 r. destruct a as [now body|body| | |raised].
  - destruct (step_Add_fields _ _ _ _ _ Hstep)
      as (_ & [[_ ->] | (u' & trip & _ & _ & _ & ->)]); [apply Hi|].
    destruct (decide (u' = u1)) as [<-|Hne1], (decide (u' = u2)) as [<-|Hne2];
      try done.
    + rewrite lookup_insert_eq, lookup_insert_ne by done.
      intros [= <-] Hr%Hv. lia.
    + rewrite lookup_insert_eq, lookup_insert_ne by done.
      intros Hr%Hv [= <-]. lia.
    + rewrite !lookup_insert_ne by done. apply Hi.
  - destruct (step_Cancel_fields _ _ _ _ Hstep) as (_ & _ & Hm).
    intros H1%Hm H2%Hm. by eapply Hi.
  - destruct (step_Receive_fields _ _ _ Hstep) as (_ & _ & -> & _). apply Hi.
  - destruct (step_Begin_inv _ _ _ Hstep)
      as (u' & _ & _ & _ & [(_ & -> & _) | (r' & t' & _ & _ & _ & _ & _ & -> & _)]);
      apply Hi.
  - destruct (step_Wake_inv _ _ _ _ Hstep) as (r' & _ & _ & _ & -> & _).
    apply Hi.
Qed.

Lemma reachable_refs_inj (m : machine) : reachable m → refs_inj (ext m).
Proof.
  induction 1 as [ss|a m m' o Hreach IH Hstep].
  - intros u u' r. simpl. by rewrite lookup_empty.
  - eapply step_refs_inj; [|done..]. by apply reachable_refs_valid.
Qed.

Lemma step_Add_accepted_fields (now : float) (body : list (string * val))
    (u : string) (m m' : machine) (o : obs) :
  validate now body checks = Accepted →
  dict_get body "uavId" = VStr u →
  step (Add now body) m = Some (m', o) →
  ∃ trip,
    status trip = NEW
    ∧ heap (ext m') = (heap (ext m) ++ [trip])%list
    ∧ _trips (ext m') = <[u := length (heap (ext m))]> (_trips (ext m))
    ∧ (o = Handled (Replied acknowledge) ∨ o = Handled Suspended).
Proof.
  intros Hok Hu (Hext & _ & ->)%step_Add_inv.
  destruct (handle_trip_addition_stores now body (ext m) Hok)
    as (u' & ms & sec & names & Hu' & _ & _ & _ & Hh).
  rewrite Hu in Hu'. injection Hu' as <-.
  rewrite Hh in Hext |- *. cbn [fst snd] in Hext |- *.
  rewrite run_handler_send in Hext |- *.
  exists (new_Trip u sec names). rewrite Hext.
  destruct (length (queue _) <? QUEUE_CAPACITY)%nat; simpl; eauto 10.
Qed.

(** The heap only grows, and an object that at most one id leads to
    stays so. *)
Lemma step_heap_length (a : action) (m m' : machine) (o : obs) :
  step a m = Some (m', o) →
  (length (heap (ext m)) ≤ length (heap (ext m')))%nat.
Proof.
  intros Hstep. destruct a as [now body|body| | |raised].
  - destruct (step_Add_fields _ _ _ _ _ Hstep)
      as (_ & [[-> _] | (u & trip & _ & _ & -> & _)]); [done|].
    rewrite length_app. lia.
  - by destruct (step_Cancel_fields _ _ _ _ Hstep) as (_ & -> & _).
  - by destruct (step_Receive_fields _ _ _ Hstep) as (_ & -> & _).
  - destruct (step_Begin_inv _ _ _ Hstep)
      as (u & _ & _ & _ & [(_ & -> & _) | (r & t & _ & _ & _ & _ & -> & _)]);
      [done|]. by rewrite length_insert.
  - destruct (step_Wake_inv _ _ _ _ Hstep) as (r & _ & _ & -> & _).
    by rewrite length_alter.
Qed.

Lemma step_only_ref (u : string) (r : nat) (a : action) (m m' : machine)
    (o : obs) :
  (r < length (heap (ext m)))%nat →
  (∀ u', _trips (ext m) !! u' = Some r → u' = u) →
  step a m = Some (m', o) →
  ∀ u', _trips (ext m') !! u' = Some r → u' = u.
Proof.
  intros Hr Honly Hstep u'. destruct a as [now body|body| | |raised].
  - destruct (step_Add_fields _ _ _ _ _ Hstep)
      as (_ & [[_ ->] | (u0 & trip & _ & _ & _ & ->)]); [apply Honly|].
    destruct (decide (u0 = u')) as [<-|Hne].
    + rewrite lookup_insert_eq. intros [= <-]. lia.
    + rewrite lookup_insert_ne by done. apply Honly.
  - destruct (step_Cancel_fields _ _ _ _ Hstep) as (_ & _ & Hm).
    intros Hu'%Hm. by apply Honly.
  - destruct (step_Receive_fields _ _ _ Hstep) as (_ & _ & -> & _). apply Honly.
  - destruct (step_Begin_inv _ _ _ Hstep)
      as (u0 & _ & _ & _ & [(_ & -> & _) | (r' & t & _ & _ & _ & _ & _ & -> & _)]);
      apply Honly.
  - destruct (step_Wake_inv _ _ _ _ Hstep) as (r' & _ & _ & _ & -> & _).
    apply Honly.
Qed.

Lemma run_only_ref (u : string) (r : nat) (acts : list action)
    (m m' : machine) (os : list obs) :
  (r < length (heap (ext m)))%nat →
  (∀ u', _trips (ext m) !! u' = Some r → u' = u) →
  run acts m = Some (m', os) →
  (r < length (heap (ext m')))%nat
  ∧ ∀ u', _trips (ext m') !! u' = Some r → u' = u.
Proof.
  revert m os. induction acts as [|a acts IH]; intros m os Hr Honly Hrun.
  - simpl in Hrun. by simplify_eq.
  - simpl in Hrun.
    destruct (step a m) as [[m1 o]|] eqn:Hstep; [|done]. simpl in Hrun.
    destruct (run acts m1) as [[m2 os']|] eqn:Hrest; [|done].
    simpl in Hrun. simplify_eq.
    apply (IH m1 os'); [|by eapply step_only_ref|done].
    pose proof (step_heap_length _ _ _ _ Hstep). lia.
Qed.

(** C4, as the code has it. Two X-TRIP-ADD messages for one uavId are
    both accepted, the upload of the first trip not begun when the second
    arrives. Neither is rejected, and the second trip replaces the first
    in [_trips] with status NEW: whatever happens afterwards, the upload
    of the first trip never starts and that of the second starts at most
    once. When the two arrive one right after the other, the background
    task idle and the queue empty, the task reaching the first of the
    two queue entries finds the stored trip (the second one) with status
    NEW and uploads it; reaching the second entry it finds that same
    trip past NEW and skips it. *)
Theorem double_add_uploads_once (m m1 m1' m2 : machine) (now1 now2 : float)
    (body1 body2 : list (string * val)) (u : string) (o1 o2 : obs)
    (between : list action) (os : list obs) :
  reachable m →
  validate now1 body1 checks = Accepted →
  validate now2 body2 checks = Accepted →
  dict_get body1 "uavId" = VStr u →
  dict_get body2 "uavId" = VStr u →
  step (Add now1 body1) m = Some (m1, o1) →
  run between m1 = Some (m1', os) →
  uploads_of (length (heap (ext m))) os = 0%nat →
  step (Add now2 body2) m1' = Some (m2, o2) →
  let r1 := length (heap (ext m)) in
  let r2 := length (heap (ext m1')) in
  (o1 = Handled (Replied acknowledge) ∨ o1 = Handled Suspended)
  ∧ (o2 = Handled (Replied acknowledge) ∨ o2 = Handled Suspended)
  ∧ _trips (ext m1) !! u = Some r1
  ∧ (r1 < r2)%nat
  ∧ _trips (ext m2) !! u = Some r2
  ∧ status <$> heap (ext m2) !! r2 = Some NEW
  ∧ (∀ acts m4 os', run acts m2 = Some (m4, os') →
       uploads_of r1 os' = 0%nat ∧ (uploads_of r2 os' ≤ 1)%nat)
  ∧ (between = [] →
     consumer (ext m) = Idle → holding m = None →
     queue (ext m) = [] → parked (ext m) = [] →
     o1 = Handled (Replied acknowledge)
     ∧ o2 = Handled (Replied acknowledge)
     ∧ queue (ext m2) = [u; u]
     ∧ ∀ raised, ∃ m3,
         run [Receive; Begin; Wake raised; Receive; Begin] m2
         = Some (m3, [Received u; Started u r2;
                      Finished r2 (if raised then ERROR else UPLOADED);
                      Received u; Skipped u])).
Proof.
  intros Hreach Hok1 Hok2 Hu1 Hu2 Hs1 Hbetween _ Hs2 r1 r2.
  pose proof (reachable_refs_valid _ Hreach) as Hv.
  destruct (step_Add_accepted_fields _ _ _ _ _ _ Hok1 Hu1 Hs1)
    as (t1 & _ & Hh1 & Ht1 & Ho1).
  destruct (step_Add_accepted_fields _ _ _ _ _ _ Hok2 Hu2 Hs2)
    as (t2 & Hn2 & Hh2 & Ht2 & Ho2).
  assert (r1 < length (heap (ext m1)))%nat as Hr1.
  { rewrite Hh1, length_app. simpl. unfold r1. lia. }
  assert (∀ u', _trips (ext m1) !! u' = Some r1 → u' = u) as Honly1.
  { intros u'. rewrite Ht1. destruct (decide (u = u')) as [<-|Hne]; [done|].
    rewrite lookup_insert_ne by done. intros Hr%Hv. unfold r1 in Hr. lia. }
  destruct (run_only_ref _ _ _ _ _ _ Hr1 Honly1 Hbetween) as [Hr1' Honly1'].
  split; [done|]. split; [done|].
  split. { rewrite Ht1. by rewrite lookup_insert_eq. }
  split; [done|].
  split. { rewrite Ht2. by rewrite lookup_insert_eq. }
  split. { rewrite Hh2, lookup_app_r, Nat.sub_diag by done. simpl. by rewrite Hn2. }
  split.
  - intros acts m4 os' Hrun. split; [|by eapply run_uploads_once].
    eapply run_settled; [|done].
    destruct (lookup_lt_is_Some_2 (heap (ext m1')) r1 Hr1') as [t Ht].
    exists t. split.
    + rewrite Hh2. by apply lookup_app_l_Some.
    + right. intros u'. rewrite Ht2.
      destruct (decide (u = u')) as [<-|Hne].
      * rewrite lookup_insert_eq. intros [= Heq]. unfold r2 in Hr1'. lia.
      * rewrite lookup_insert_ne by done. intros Hu'%Honly1'. by apply Hne.
  - intros -> Hc Hh Hq Hp. simpl in Hbetween. simplify_eq.
    assert (run [Add now1 body1; Add now2 body2] m = Some (m2, [o1; o2]))
      as Htwo.
    { eapply run_cons_Some; [exact Hs1|]. by eapply run_cons_Some. }
    destruct (double_add_run m now1 now2 body1 body2 u false
                Hreach Hc Hh Hq Hp Hok1 Hok2 Hu1 Hu2)
      as (m2' & _ & Hadds & _ & _ & Hqueue & _).
    rewrite Htwo in Hadds. simplify_eq.
    do 3 (split; [done|]). intros raised.
    destruct (double_add_run m now1 now2 body1 body2 u raised
                Hreach Hc Hh Hq Hp Hok1 Hok2 Hu1 Hu2)
      as (m2'' & m3 & Hadds' & _ & _ & _ & Hrun & _).
    rewrite Htwo in Hadds'. simplify_eq.
    exists m3. rewrite Hrun. unfold r2. rewrite Hh1, length_app. simpl.
    by replace (length (heap (ext m)) + 1)%nat with (S (length (heap (ext m))))
      by lia.
Qed.

(** C5, as the code has it. [_trips] holds one trip per id. An accepted
    X-TRIP-ADD for an id that has a trip stores a new trip with status
    NEW under the id, and the old one is stored under no id any more.
    The background task reads [_trips] when it takes up a queue entry: an
    upload starts only on the trip stored under the id at that moment,
    and only if its status is NEW; otherwise nothing is touched. After
    the await it does not read again: the final status is assigned to
    the trip object read before the await. *)
Theorem consumer_reads_stored_trip (m : machine) :
  reachable m →
  (∀ now body u r_old m' o,
     validate now body checks = Accepted →
     dict_get body "uavId" = VStr u →
     _trips (ext m) !! u = Some r_old →
     step (Add now body) m = Some (m', o) →
     ∃ r_new trip,
       _trips (ext m') !! u = Some r_new
       ∧ heap (ext m') !! r_new = Some trip
       ∧ status trip = NEW
       ∧ r_new ≠ r_old
       ∧ ∀ u', _trips (ext m') !! u' ≠ Some r_old)
  ∧ (∀ u r m',
       step Begin m = Some (m', Started u r) →
       holding m = Some u
       ∧ _trips (ext m) !! u = Some r
       ∧ status <$> heap (ext m) !! r = Some NEW
       ∧ status <$> heap (ext m') !! r = Some UPLOADING)
  ∧ (∀ u m', step Begin m = Some (m', Skipped u) → ext m' = ext m)
  ∧ (∀ raised r s m',
       step (Wake raised) m = Some (m', Finished r s) →
       consumer (ext m) = Sleeping r
       ∧ heap (ext m') = alter (set_status s) r (heap (ext m))
       ∧ _trips (ext m') = _trips (ext m)).
Proof.
  intros Hreach.
  pose proof (reachable_refs_valid _ Hreach) as Hv.
  pose proof (reachable_refs_inj _ Hreach) as Hi.
  split; [|split; [|split]].
  - intros now body u r_old m' o Hok Hu Hold Hstep.
    destruct (step_Add_accepted_fields _ _ _ _ _ _ Hok Hu Hstep)
      as (trip & Hnew & Hh & Hm & _).
    exists (length (heap (ext m))), trip. rewrite Hh, Hm.
    pose proof (Hv _ _ Hold) as Hlt.
    split; [by rewrite lookup_insert_eq|].
    split; [by apply list_lookup_middle|].
    split; [done|]. split; [lia|].
    intros u'. destruct (decide (u = u')) as [<-|Hne].
    + rewrite lookup_insert_eq. intros [= ?]. lia.
    + rewrite lookup_insert_ne by done. intros Hu'.
      by apply Hne, (Hi u u' r_old).
  - intros u r m' Hstep.
    destruct (step_Begin_inv _ _ _ Hstep)
      as (u' & Hhold & _ & _ & [(? & _) | (r' & t' & Ho & Hr & Ht & Hnew & Hh & _)]);
      [done|].
    simplify_eq. rewrite Hh, Ht. simpl. rewrite Hnew.
    do 3 (split; [done|]).
    rewrite list_lookup_insert_eq by by eapply lookup_lt_Some. done.
  - intros u m' Hstep.
    by destruct (step_Begin_inv _ _ _ Hstep)
      as (u' & _ & _ & _ & [(_ & ? & _) | (r' & t' & ? & _)]).
  - intros raised r s m' Hstep.
    destruct (step_Wake_inv _ _ _ _ Hstep) as (r' & Hc & Ho & Hh & Hm & _).
    by simplify_eq.
Qed.

Lemma run_reachable (acts : list action) (m m' : machine) (os : list obs) :
  reachable m → run acts m = Some (m', os) → reachable m'.
Proof.
  revert m os. induction acts as [|a acts IH]; intros m os Hreach Hrun.
  - simpl in Hrun. by simplify_eq.
  - simpl in Hrun.
    destruct (step a m) as [[m1 o]|] eqn:Hstep; [|done]. simpl in Hrun.
    destruct (run acts m1) as [[m2 os']|] eqn:Hrest; [|done].
    simpl in Hrun. simplify_eq.
    eapply IH; [|done]. by eapply reachable_step.
Qed.

End BackgroundTask.

(** *** Scenario D and its variants on the machine *)

Lemma double_add_uploads_once_witness :
  @step plain_builtins (Add now0 body_A) m0
  = Some (m_added, Handled (Replied acknowledge))
  ∧ @step plain_builtins (Add now0 body_A') m_added
    = Some (m_two_adds, Handled (Replied acknowledge))
  ∧ _trips (ext m_two_adds) !! "U1" = Some 1%nat
  ∧ status <$> heap (ext m_two_adds) !! 1%nat = Some NEW
  ∧ queue (ext m_two_adds) = ["U1"; "U1"]
  ∧ (∃ m3, @run plain_builtins [Receive; Begin; Wake false; Receive; Begin]
             m_two_adds
           = Some (m3, [Received "U1"; Started "U1" 1; Finished 1 UPLOADED;
                        Received "U1"; Skipped "U1"]))
  ∧ ∀ acts m4 os, @run plain_builtins acts m_two_adds = Some (m4, os) →
      uploads_of 0 os = 0%nat ∧ (uploads_of 1 os ≤ 1)%nat.
Proof.
  split; [reflexivity|]. split; [reflexivity|].
  destruct (@double_add_uploads_once plain_builtins m0 m_added m_added
              m_two_adds now0 now0 body_A body_A' "U1"
              (Handled (Replied acknowledge)) (Handled (Replied acknowledge))
              [] [])
    as (_ & _ & _ & _ & Hstored & Hnew & Hever & Hrun);
    try reflexivity; [apply reachable_start|].
  split; [exact Hstored|]. split; [exact Hnew|].
  destruct Hrun as (_ & _ & Hqueue & Hrun); try reflexivity.
  split; [exact Hqueue|]. split; [exact (Hrun false) | exact Hever].
Defined.

(** C4, as stated, fails. After two accepted additions for [U1] the
    stored trip is the second one, with status NEW, when the background
    task takes the first queue entry: it starts the upload of that trip
    there and does not skip. The entry it skips is the second. *)
Lemma stale_entry_starts_upload :
  (view ∘ fst <$> @run plain_builtins [Add now0 body_A; Add now0 body_A'; Receive] m0)
  = Some (Some 1%nat, Idle, [(["S1"; "S2"], NEW); (["S2"; "S1"], NEW)])
  ∧ (snd <$> @run plain_builtins
               [Add now0 body_A; Add now0 body_A'; Receive; Begin] m0)
    = Some [Handled (Replied acknowledge); Handled (Replied acknowledge);
            Received "U1"; Started "U1" 1]
  ∧ (snd <$> @run plain_builtins
               [Add now0 body_A; Add now0 body_A'; Receive; Begin; Wake false;
                Receive; Begin] m0)
    = Some [Handled (Replied acknowledge); Handled (Replied acknowledge);
            Received "U1"; Started "U1" 1; Finished 1 UPLOADED;
            Received "U1"; Skipped "U1"].
Proof. repeat split. Qed.

Lemma consumer_reads_stored_trip_witness :
  ∃ m2 m3,
    @step plain_builtins Begin m_received = Some (m2, Started "U1" 0)
    ∧ _trips (ext m_received) !! "U1" = Some 0%nat
    ∧ status <$> heap (ext m_received) !! 0%nat = Some NEW
    ∧ @step plain_builtins (Add now0 body_A') m2
      = Some (m3, Handled (Replied acknowledge))
    ∧ _trips (ext m3) !! "U1" = Some 1%nat.
Proof.
  assert (@reachable plain_builtins m_received) as Hreach.
  { apply (@run_reachable plain_builtins [Add now0 body_A; Receive] m0 _
             [Handled (Replied acknowledge); Received "U1"]);
      [apply reachable_start | reflexivity]. }
  destruct (@consumer_reads_stored_trip plain_builtins _ Hreach)
    as (_ & Hbegin & _).
  eexists _, _. split; [reflexivity|].
  edestruct Hbegin as (_ & Hstored & Hnew & _); [reflexivity|].
  split; [exact Hstored|]. split; [exact Hnew|].
  split; reflexivity.
Defined.

(** C5, as stated, fails. A second addition for [U1] arrives while the
    upload of the first trip is at its await: the first trip is
    superseded (the id leads to object 1), and the background task, when
    woken, still marks object 0 as uploaded without reading [_trips]
    again. Both trips of the id end up uploaded. *)
Lemma upload_finishes_on_superseded_trip :
  (view ∘ fst <$> @run plain_builtins
                    [Add now0 body_A; Receive; Begin; Add now0 body_A'] m0)
  = Some (Some 1%nat, Sleeping 0, [(["S1"; "S2"], UPLOADING); (["S2"; "S1"], NEW)])
  ∧ (view ∘ fst <$> @run plain_builtins
                      [Add now0 body_A; Receive; Begin; Add now0 body_A';
                       Wake false] m0)
    = Some (Some 1%nat, Idle, [(["S1"; "S2"], UPLOADED); (["S2"; "S1"], NEW)])
  ∧ (snd <$> @run plain_builtins
               [Add now0 body_A; Receive; Begin; Add now0 body_A'; Wake false;
                Receive; Begin; Wake false] m0)
    = Some [Handled (Replied acknowledge); Received "U1"; Started "U1" 0;
            Handled (Replied acknowledge); Finished 0 UPLOADED;
            Received "U1"; Started "U1" 1; Finished 1 UPLOADED].
Proof. repeat split. Qed.

End CascadeDemoFacts.

(** ** cascade_demo.py: configuration, mission files and the life of a trip *)

Module CascadeDemoMore.
Import Py PyFacts FloatFacts CascadeDemo Lifecycle Terms MoreTerms Scenarios
  MoreScenarios CascadeDemoFiles CascadeDemoFacts.

(** *** Stations *)

Section Stations.
Context `{Builtins}.

Lemma configure_stations_unfold (d : list (string * val)) (st : state) :
  configure_stations (VDict d) st
  = ss ← mapM (station_item d) (sorted d.*1); Ok (with_stations st ss).
Proof.
  unfold configure_stations. destruct d as [|[k v] d]; reflexivity.
Qed.

Lemma Station_from_json_id (obj : val) (station_id : string) (s : Station) :
  Station_from_json obj station_id = Ok s → id s = station_id.
Proof.
  unfold Station_from_json.
  destruct (getitem obj 0); simpl; [|done].
  destruct (getitem obj 1); simpl; [|done].
  destruct (GPSCoordinate_new _ _ _); simpl; [|done].
  by intros [= <-].
Qed.

Lemma mapM_Ok_cons {A B} (f : A → result B) (x : A) (l : list A) (r : list B) :
  mapM f (x :: l) = Ok r →
  ∃ y r', f x = Ok y ∧ mapM f l = Ok r' ∧ r = y :: r'.
Proof.
  simpl. destruct (f x) as [y|e]; simpl; [|done].
  destruct (mapM f l) as [r'|e]; simpl; [|done].
  intros [= <-]. by exists y, r'.
Qed.

Lemma station_item_Ok (d : list (string * val)) (k : string)
    (p : string * Station) :
  station_item d k = Ok p →
  ∃ obj, assoc_get d k = Some obj ∧ Station_from_json obj k = Ok p.2 ∧ p.1 = k.
Proof.
  unfold station_item. destruct (assoc_get d k) as [obj|]; [|done].
  destruct (Station_from_json obj k) as [s|e] eqn:Hs; simpl; [|done].
  intros [= <-]. exists obj. by repeat split.
Qed.

Lemma mapM_station_items (d : list (string * val)) (l : list string)
    (ss : list (string * Station)) :
  mapM (station_item d) l = Ok ss →
  ss.*1 = l
  ∧ Forall (fun p => id p.2 = p.1) ss
  ∧ ∀ name, stations_getitem ss name
            = if bool_decide (name ∈ l)
              then match assoc_get d name with
                   | Some obj => Station_from_json obj name
                   | None => Raise KeyError
                   end
              else Raise KeyError.
Proof.
  revert ss. induction l as [|k l IH]; intros ss Hss.
  - change (@Ok (list (string * Station)) [] = Ok ss) in Hss.
    injection Hss as <-.
    split; [done|]. split; [constructor|]. intros name. reflexivity.
  - apply mapM_Ok_cons in Hss as ([k' s] & ss' & Hitem & Hrest & ->).
    apply station_item_Ok in Hitem as (obj & Hk & Hs & Hk').
    simpl in Hs, Hk'. subst k'.
    destruct (IH ss' Hrest) as (Hkeys & Hids & Hget).
    split; [simpl; by f_equal|]. split.
    { constructor; [|done]. simpl. by eapply Station_from_json_id. }
    intros name. simpl. destruct (String.eqb_spec k name) as [<-|Hne].
    + rewrite bool_decide_eq_true_2 by (apply elem_of_cons; by left).
      by rewrite Hk.
    + rewrite Hget. destruct (bool_decide (name ∈ l)) eqn:Hin.
      * apply bool_decide_eq_true in Hin.
        by rewrite bool_decide_eq_true_2 by (apply elem_of_cons; by right).
      * apply bool_decide_eq_false in Hin.
        rewrite bool_decide_eq_false_2; [done|].
        intros [?|?]%elem_of_cons; [by apply Hne|done].
Qed.

Lemma sorted_elem_of (l : list string) (x : string) : x ∈ sorted l ↔ x ∈ l.
Proof. unfold sorted. by rewrite merge_sort_Permutation. Qed.

(** X1. When [configure_stations] succeeds, the stations are those of the
    keys of the configuration, in ascending order of id and without
    repetition when the keys have none, each stored under its own id;
    nothing else of the extension changes. *)
Theorem configure_stations_sorted_ids (d : list (string * val)) (st st' : state) :
  configure_stations (VDict d) st = Ok st' →
  st' = with_stations st (_stations st')
  ∧ (_stations st').*1 ≡ₚ d.*1
  ∧ Sorted String.le (_stations st').*1
  ∧ (NoDup d.*1 → NoDup (_stations st').*1)
  ∧ Forall (fun p => id p.2 = p.1) (_stations st').
Proof.
  rewrite configure_stations_unfold.
  destruct (mapM (station_item d) (sorted d.*1)) as [ss|e] eqn:Hss; simpl; [|done].
  intros [= <-]. simpl.
  destruct (mapM_station_items _ _ _ Hss) as (-> & Hids & _).
  split; [done|]. unfold sorted.
  split; [apply merge_sort_Permutation|].
  split; [apply Sorted_merge_sort; apply _|].
  split; [|done]. intros Hnd. by rewrite merge_sort_Permutation.
Qed.

(** X2. Looking a station up after [configure_stations] has succeeded:
    under a configured key it is the station made from the value of
    that key, whose two first elements are the longitude and the
    latitude in this order; under any other name the lookup raises
    [KeyError]. *)
Theorem configured_station_lookup (d : list (string * val)) (st st' : state) :
  configure_stations (VDict d) st = Ok st' →
  (∀ name, stations_getitem (_stations st') name
           = match assoc_get d name with
             | Some obj => Station_from_json obj name
             | None => Raise KeyError
             end)
  ∧ (∀ name lo la rest,
       assoc_get d name = Some (VList (VFloat lo :: VFloat la :: rest)) →
       stations_getitem (_stations st') name
       = Ok {| id := name;
               position := {| lat := la; lon := lo; agl := fzero |} |}).
Proof.
  rewrite configure_stations_unfold.
  destruct (mapM (station_item d) (sorted d.*1)) as [ss|e] eqn:Hss; simpl; [|done].
  intros [= <-]. simpl.
  destruct (mapM_station_items _ _ _ Hss) as (_ & _ & Hget).
  assert (∀ name, stations_getitem ss name
                  = match assoc_get d name with
                    | Some obj => Station_from_json obj name
                    | None => Raise KeyError
                    end) as Hlookup.
  { intros name. rewrite Hget.
    destruct (assoc_get d name) as [obj|] eqn:Hname.
    - rewrite bool_decide_eq_true_2; [done|].
      apply sorted_elem_of, assoc_get_is_Some. by rewrite Hname.
    - by destruct (bool_decide _). }
  split; [done|]. intros name lo la rest Hname. by rewrite Hlookup, Hname.
Qed.

Lemma mapM_raise_at {A B} (f : A → result B) (l1 l2 : list A) (x : A) (e : exn) :
  Forall (fun a => ∃ b, f a = Ok b) l1 → f x = Raise e →
  mapM f (l1 ++ x :: l2) = Raise e.
Proof.
  intros Hl1 Hx. induction Hl1 as [|a l1 [b Hb] _ IH]; simpl.
  - by rewrite Hx.
  - rewrite Hb. simpl. by rewrite IH.
Qed.

Lemma configure_stations_raise_at (d : list (string * val)) (st : state)
    (k : string) (obj : val) (e : exn) :
  assoc_get d k = Some obj →
  Station_from_json obj k = Raise e →
  (∀ k' obj', assoc_get d k' = Some obj' → String.le k' k → k' ≠ k →
              ∃ s, Station_from_json obj' k' = Ok s) →
  configure_stations (VDict d) st = Raise e.
Proof.
  intros Hk He Hbelow. rewrite configure_stations_unfold.
  assert (k ∈ sorted d.*1) as Hin.
  { apply sorted_elem_of, assoc_get_is_Some. by rewrite Hk. }
  apply list_elem_of_split_l in Hin as (l1 & l2 & Hsplit & Hfirst).
  assert (StronglySorted String.le (l1 ++ k :: l2)) as Hsorted.
  { rewrite <- Hsplit. unfold sorted. apply StronglySorted_merge_sort; apply _. }
  rewrite Hsplit, (mapM_raise_at _ l1 l2 k e); [done| |].
  - apply Forall_forall. intros k' Hk'.
    assert (k' ∈ d.*1) as Hkey.
    { apply sorted_elem_of. rewrite Hsplit. apply elem_of_app. by left. }
    apply assoc_get_is_Some in Hkey as [obj' Hobj'].
    destruct (Hbelow k' obj' Hobj') as [s Hs].
    + eapply (StronglySorted_app_1_elem_of _ l1 (k :: l2)); [done..|].
      apply elem_of_cons. by left.
    + by intros ->.
    + exists (k', s). unfold station_item. by rewrite Hobj', Hs.
  - unfold station_item. by rewrite Hk, He.
Qed.


End Stations.

(** *** Mission files *)

Section MissionFiles.
Context `{Builtins}.

Lemma stations_getitem_KeyError (ss : list (string * Station)) (name : string)
    (e : exn) :
  stations_getitem ss name = Raise e → e = KeyError.
Proof.
  induction ss as [|[k s] ss IH]; simpl; [by intros [= <-]|].
  by destruct (String.eqb k name).
Qed.

(** X4. The waypoint file of a non-empty id without a stored trip cannot
    be generated: the lookup in the [defaultdict] of trips calls [Trip]
    without arguments, a [TypeError]. With a stored trip, the first
    route element that is no configured station ends the generation
    with [KeyError]. *)
Theorem generate_waypoint_file_errors (st : state) (uav_id : string)
    (velocity_xy velocity_z agl : arg) (s_agl s_xy s_z : string) :
  uav_id ≠ "" →
  format_arg (SFixed 2) agl = Ok s_agl →
  format_arg (SFixed 2) velocity_xy = Ok s_xy →
  format_arg (SFixed 2) velocity_z = Ok s_z →
  (trip_of st uav_id = None →
   generate_waypoint_file_from_route st (VStr uav_id) velocity_xy velocity_z agl
   = Raise TypeError)
  ∧ (∀ trip l1 name l2,
       trip_of st uav_id = Some trip →
       route trip = (l1 ++ name :: l2)%list →
       Forall (fun n => ∃ s, stations_getitem (_stations st) n = Ok s) l1 →
       (∀ s, stations_getitem (_stations st) name ≠ Ok s) →
       generate_waypoint_file_from_route st (VStr uav_id) velocity_xy velocity_z agl
       = Raise KeyError).
Proof.
  intros Hid%String.eqb_neq Hagl Hxy Hz.
  unfold generate_waypoint_file_from_route, trips_getitem. simpl.
  rewrite Hid. simpl. split.
  - by intros ->.
  - intros trip l1 name l2 -> Hroute Hl1 Hname. simpl. rewrite Hroute.
    rewrite (mapM_raise_at _ l1 l2 name KeyError); [done| |].
    + eapply Forall_impl; [exact Hl1|]. intros n [s Hs]. simpl.
      eexists. by apply (waypoint_block_configured _ _ _ _ s_agl s_xy s_z _ s).
    + unfold waypoint_block.
      destruct (stations_getitem (_stations st) name) as [s|e] eqn:Hs.
      * by destruct (Hname s).
      * simpl. by rewrite (stations_getitem_KeyError _ _ _ Hs).
Qed.

Lemma CHOREO_STR_parse :
  parse CHOREO_STR (Text "") []
  = Some [Lit choreography_head; Field (Named "agl") (SFixed 2); Lit "
waypoint.velocity_xy="; Field (Named "velocity_xy") (SFixed 2); Lit "
waypoint.velocity_z="; Field (Named "velocity_z") (SFixed 2); Lit "
waypoint.velocity_threshold=6
waypoint.manual_override_rp=stop
waypoint.manual_override_gas=shift
waypoint.whats_next=land
"].
Proof. reflexivity. Qed.

Lemma generate_choreography_file_text (uav_id : val)
    (velocity_xy velocity_z agl : arg) (s_agl s_xy s_z : string) :
  format_arg (SFixed 2) agl = Ok s_agl →
  format_arg (SFixed 2) velocity_xy = Ok s_xy →
  format_arg (SFixed 2) velocity_z = Ok s_z →
  generate_choreography_file_from_route uav_id velocity_xy velocity_z agl
  = Ok (choreography_text s_agl s_xy s_z).
Proof.
  intros Hagl Hxy Hz. unfold generate_choreography_file_from_route, format.
  rewrite CHOREO_STR_parse.
  cbn [mbind result_bind render kw_get String.eqb Ascii.eqb Bool.eqb].
  rewrite Hagl, Hxy, Hz. cbn [mbind result_bind].
  unfold choreography_text. by rewrite append_empty_r.
Qed.

Lemma render_Lit_head (lit : string) (ps : list piece) (i : nat)
    (pos : list arg) (kw : list (string * arg)) (text : string) :
  render (Lit lit :: ps) i pos kw = Ok text → ∃ rest, text = lit +:+ rest.
Proof.
  simpl. destruct (render ps i pos kw) as [rest|e]; simpl; [|done].
  intros [= <-]. by exists rest.
Qed.

Lemma generate_choreography_file_head (uav_id : val)
    (velocity_xy velocity_z agl : arg) (text : string) :
  generate_choreography_file_from_route uav_id velocity_xy velocity_z agl = Ok text →
  ∃ rest, text = choreography_head +:+ rest.
Proof.
  unfold generate_choreography_file_from_route, format.
  rewrite CHOREO_STR_parse. apply render_Lit_head.
Qed.

Lemma generate_waypoint_file_falsy (st : state) (uav_id : val)
    (velocity_xy velocity_z agl : arg) :
  truthy uav_id = false →
  generate_waypoint_file_from_route st uav_id velocity_xy velocity_z agl
  = Ok WAYPOINT_INIT_STR.
Proof. intros Hf. unfold generate_waypoint_file_from_route. by rewrite Hf. Qed.

Lemma generate_waypoint_file_stored (st : state) (uav_id : string) (trip : Trip)
    (velocity_xy velocity_z agl : arg) (s_agl s_xy s_z : string) :
  uav_id ≠ "" →
  trip_of st uav_id = Some trip →
  Forall (fun name => ∃ s, stations_getitem (_stations st) name = Ok s)
    (route trip) →
  format_arg (SFixed 2) agl = Ok s_agl →
  format_arg (SFixed 2) velocity_xy = Ok s_xy →
  format_arg (SFixed 2) velocity_z = Ok s_z →
  generate_waypoint_file_from_route st (VStr uav_id) velocity_xy velocity_z agl
  = Ok (String.concat ""
          (WAYPOINT_INIT_STR :: (block_of st s_agl s_xy s_z <$> route trip))).
Proof.
  intros Hid%String.eqb_neq Htrip Hroute Hagl Hxy Hz.
  unfold generate_waypoint_file_from_route, trips_getitem. simpl.
  rewrite Hid, Htrip. simpl.
  by rewrite (waypoint_blocks_configured _ _ _ _ _ _ _ _ Hroute Hagl Hxy Hz).
Qed.

(** X5. For a non-empty id with a stored trip over configured stations,
    the mission archive holds six entries in this order: the waypoint
    file of the route as [waypoint.cfg], the bare waypoint header as
    [waypoint_ground.cfg], the choreography with the altitude and the
    velocities to two decimals, the fixed mission file, and the version
    and name under [_meta]. *)
Theorem generate_mission_from_route_entries (st : state) (uav_id : string)
    (trip : Trip) (velocity_xy velocity_z agl : arg) (s_agl s_xy s_z : string) :
  uav_id ≠ "" →
  trip_of st uav_id = Some trip →
  Forall (fun name => ∃ s, stations_getitem (_stations st) name = Ok s)
    (route trip) →
  format_arg (SFixed 2) agl = Ok s_agl →
  format_arg (SFixed 2) velocity_xy = Ok s_xy →
  format_arg (SFixed 2) velocity_z = Ok s_z →
  generate_mission_from_route st (VStr uav_id) velocity_xy velocity_z agl
  = Ok [("waypoint.cfg",
         String.concat ""
           (WAYPOINT_INIT_STR :: (block_of st s_agl s_xy s_z <$> route trip)));
        ("waypoint_ground.cfg", WAYPOINT_INIT_STR);
        ("choreography.cfg", choreography_text s_agl s_xy s_z);
        ("mission.cfg", MISSION_STR);
        ("_meta/version", "1");
        ("_meta/name", "cascade_demo")].
Proof.
  intros Hid Htrip Hroute Hagl Hxy Hz. unfold generate_mission_from_route.
  rewrite (generate_waypoint_file_falsy st (VInt 0)) by reflexivity.
  rewrite (generate_waypoint_file_stored _ _ _ _ _ _ _ _ _
             Hid Htrip Hroute Hagl Hxy Hz).
  by rewrite (generate_choreography_file_text _ _ _ _ _ _ _ Hagl Hxy Hz).
Qed.

(** X6. Whatever archive [generate_mission_from_route] returns, its
    entries are named [waypoint.cfg], [waypoint_ground.cfg],
    [choreography.cfg], [mission.cfg], [_meta/version] and [_meta/name];
    the ground file is the bare header. The choreography in it names
    [waypoints.cfg] as the waypoint file of the route, and the archive
    has no entry of that name. *)
Theorem mission_archive_names (st : state) (uav_id : val)
    (velocity_xy velocity_z agl : arg) (a : archive) :
  generate_mission_from_route st uav_id velocity_xy velocity_z agl = Ok a →
  a.*1 = ["waypoint.cfg"; "waypoint_ground.cfg"; "choreography.cfg";
          "mission.cfg"; "_meta/version"; "_meta/name"]
  ∧ a !! 1%nat = Some ("waypoint_ground.cfg", WAYPOINT_INIT_STR)
  ∧ (∃ pre post,
       a !! 2%nat
       = Some ("choreography.cfg",
               pre +:+ "[go_on_route]
waypoint.waypoint_file=waypoints.cfg
" +:+ post))
  ∧ names_entry a "waypoints.cfg" = false.
Proof.
  unfold generate_mission_from_route.
  rewrite (generate_waypoint_file_falsy st (VInt 0)) by reflexivity. simpl.
  destruct (generate_waypoint_file_from_route st uav_id velocity_xy velocity_z agl)
    as [waypoint_str|e]; simpl; [|done].
  destruct (generate_choreography_file_from_route uav_id velocity_xy velocity_z agl)
    as [choreography_str|e] eqn:Hc; simpl; [|done].
  intros [= <-]. do 2 (split; [done|]). split; [|done].
  apply generate_choreography_file_head in Hc as [rest ->].
  exists (String.substring 0 207 choreography_head),
         (String.substring 258 55 choreography_head +:+ rest).
  simpl. do 2 f_equal.
Qed.

End MissionFiles.

(** *** The life of a trip *)

Section TripLife.
Context `{Builtins}.

Lemma step_upload_inv (a : action) (m m' : machine) (o : obs) :
  upload_inv (ext m) → step a m = Some (m', o) → upload_inv (ext m').
Proof.
  intros [Hup Hsl] Hstep. destruct a as [now body|body| | |raised].
  - destruct (step_Add_fields _ _ _ _ _ Hstep)
      as (Hc & [[Hh _] | (u & trip & Hnew & _ & Hh & _)]);
      unfold upload_inv; rewrite Hc, Hh; [done|]. split.
    + intros r t [Hr|[_ Hr]]%lookup_app_Some; [by eapply Hup|].
      apply list_lookup_singleton_Some in Hr as [_ <-]. by rewrite Hnew.
    + intros r Hr. destruct (Hsl r Hr) as (t & Ht & Hst).
      exists t. split; [by apply lookup_app_l_Some|done].
  - destruct (step_Cancel_fields _ _ _ _ Hstep) as (Hc & Hh & _).
    unfold upload_inv. by rewrite Hc, Hh.
  - destruct (step_Receive_fields _ _ _ Hstep) as (Hc & Hh & _).
    unfold upload_inv. by rewrite Hc, Hh.
  - destruct (step_Begin_inv _ _ _ Hstep)
      as (u & _ & Hidle & _
          & [(_ & -> & _) | (r & t & _ & _ & Ht & _ & Hh & _ & Hc)]); [done|].
    unfold upload_inv. rewrite Hh, Hc. split.
    + intros r' t' Hr' Hst. destruct (decide (r = r')) as [->|Hne]; [done|].
      rewrite list_lookup_insert_ne in Hr' by done.
      pose proof (Hup _ _ Hr' Hst) as Hsleep. by rewrite Hidle in Hsleep.
    + intros r' [= <-]. exists (set_status UPLOADING t). split; [|done].
      apply list_lookup_insert_eq. by eapply lookup_lt_Some.
  - destruct (step_Wake_inv _ _ _ _ Hstep) as (r & Hsleep & _ & Hh & _ & Hc & _).
    unfold upload_inv. rewrite Hh, Hc. split; [|done].
    intros r' t' Hr' Hst. exfalso.
    destruct (decide (r = r')) as [<-|Hne].
    + rewrite list_lookup_alter_eq in Hr'.
      destruct (heap (ext m) !! r) as [t|]; simpl in Hr'; [|done].
      injection Hr' as <-. by destruct raised.
    + rewrite list_lookup_alter_ne in Hr' by done.
      pose proof (Hup _ _ Hr' Hst) as Hsleep'. rewrite Hsleep in Hsleep'.
      by injection Hsleep'.
Qed.

Lemma reachable_upload_inv (m : machine) : reachable m → upload_inv (ext m).
Proof.
  induction 1 as [ss|a m m' o _ IH Hstep].
  - split; [|done]. intros r t Hr. simpl in Hr. by rewrite lookup_nil in Hr.
  - by eapply step_upload_inv.
Qed.

(** X8. A step of the extension leaves every trip object its id, start
    time and route, and moves its status forward only: NEW to UPLOADING
    when the upload starts, UPLOADING to UPLOADED or ERROR when it ends.
    The message handlers change the status of no trip. *)
Theorem trip_status_advances (a : action) (m m' : machine) (o : obs)
    (r : nat) (t : Trip) :
  reachable m →
  step a m = Some (m', o) →
  heap (ext m) !! r = Some t →
  ∃ t', heap (ext m') !! r = Some t'
        ∧ uav_id t' = uav_id t ∧ start_time t' = start_time t
        ∧ route t' = route t
        ∧ advances (status t) (status t')
        ∧ ((∃ now body, a = Add now body) ∨ (∃ body, a = Cancel body) → t' = t).
Proof.
  intros [Hup Hsl]%reachable_upload_inv Hstep Ht.
  assert (∀ a', (∀ now body, a' ≠ Add now body) → (∀ body, a' ≠ Cancel body) →
                ∀ t' : Trip,
                  (∃ now body, a' = Add now body) ∨ (∃ body, a' = Cancel body) →
                  t' = t) as Hother.
  { intros a' H1 H2 t' [(now & body & ->)|(body & ->)];
      [by destruct (H1 now body) | by destruct (H2 body)]. }
  destruct a as [now body|body| | |raised].
  - exists t. destruct (step_Add_fields _ _ _ _ _ Hstep)
      as (_ & [[-> _] | (u & trip & _ & _ & -> & _)]).
    + do 4 (split; [done|]). split; [by left | done].
    + split; [by apply lookup_app_l_Some|].
      do 3 (split; [done|]). split; [by left | done].
  - exists t. destruct (step_Cancel_fields _ _ _ _ Hstep) as (_ & -> & _).
    do 4 (split; [done|]). split; [by left | done].
  - exists t. destruct (step_Receive_fields _ _ _ Hstep) as (_ & -> & _).
    do 4 (split; [done|]). split; [by left | by apply Hother].
  - destruct (step_Begin_inv _ _ _ Hstep)
      as (u & _ & _ & _
          & [(_ & -> & _) | (r' & t0 & _ & _ & Ht0 & Hnew & -> & _)]).
    + exists t. do 4 (split; [done|]). split; [by left | by apply Hother].
    + destruct (decide (r' = r)) as [->|Hne].
      * exists (set_status UPLOADING t0). simplify_eq.
        split; [apply list_lookup_insert_eq; by eapply lookup_lt_Some|].
        do 3 (split; [done|]).
        split; [right; left; by split | by apply Hother].
      * exists t. rewrite list_lookup_insert_ne by done.
        do 4 (split; [done|]). split; [by left | by apply Hother].
  - destruct (step_Wake_inv _ _ _ _ Hstep) as (r' & Hsleep & _ & -> & _).
    destruct (decide (r' = r)) as [->|Hne].
    + exists (set_status (if raised then ERROR else UPLOADED) t).
      destruct (Hsl _ Hsleep) as (t0 & Ht0 & Hst). simplify_eq.
      split; [by rewrite list_lookup_alter_eq, Ht|].
      do 3 (split; [done|]). split; [|by apply Hother].
      right; right. split; [done|]. simpl. destruct raised; auto.
    + exists t. rewrite list_lookup_alter_ne by done.
      do 4 (split; [done|]). split; [by left | by apply Hother].
Qed.

(** *** Exceptions of the addition handler *)

(** Up to its send the handler raises in one case only: the integer
    taken from startTime is at least 2 ^ 64 in absolute value and its
    division by 1000 overflows. Nothing has been stored then. *)
Lemma handle_trip_addition_throws (now : float) (body : list (string * val))
    (st : state) (e : exn) :
  (handle_trip_addition now body st).2 = Throw e →
  e = OverflowError
  ∧ (handle_trip_addition now body st).1 = st
  ∧ run_handler (handle_trip_addition now body st).2
      (handle_trip_addition now body st).1 = (st, Raised OverflowError)
  ∧ ∃ ms, as_int (match int (dict_get body "startTime") with
                  | Ok z => VInt z
                  | Raise _ => dict_get body "startTime"
                  end) = Some ms
          ∧ 2 ^ 64 ≤ Z.abs ms
          ∧ int_truediv ms 1000 = Raise OverflowError.
Proof.
  unfold handle_trip_addition.
  destruct (dict_get body "uavId") as [| | | |u| |]; try done.
  destruct (as_int _) as [ms|]; [|done].
  destruct (int_truediv ms 1000) as [sec|e'] eqn:Hdiv.
  - destruct (flt sec now); [done|].
    destruct (dict_get body "route") as [| | | | |[|x l]|]; try done.
    by destruct (existsb _ (x :: l)).
  - simpl. intros [= <-].
    assert (e' = OverflowError) as ->.
    { unfold int_truediv in Hdiv.
      destruct ms as [|p|p]; [done| |];
        by destruct (SFdiv _ _ _ _); simplify_eq. }
    do 3 (split; [done|]). exists ms. split; [done|]. split; [|done].
    destruct (Z.lt_ge_cases (Z.abs ms) (2 ^ 64)) as [Hlt|Hge]; [|done].
    destruct (int_truediv_in_range ms Hlt) as [f Hf]. by rewrite Hf in Hdiv.
Qed.

(** *** The command queue *)

Lemma run_handler_queue_inv (p : async reply) (st : state) :
  queue_inv st → queue_inv (run_handler p st).1.
Proof.
  revert st. induction p as [r|e|item k IH]; intros st [Hle Hfull]; [done..|].
  simpl. unfold send.
  destruct (Nat.ltb_spec (length (queue st)) QUEUE_CAPACITY) as [Hlt|Hge].
  - apply IH. split; simpl.
    + rewrite length_app. simpl. lia.
    + intros Hp. specialize (Hfull Hp). lia.
  - simpl. split; simpl; [done|]. intros _. lia.
Qed.

Lemma step_queue_inv (a : action) (m m' : machine) (o : obs) :
  queue_inv (ext m) → step a m = Some (m', o) → queue_inv (ext m').
Proof.
  intros Hq Hstep. destruct a as [now body|body| | |raised].
  - destruct (step_Add_inv _ _ _ _ _ Hstep) as (-> & _).
    apply run_handler_queue_inv.
    by destruct (handle_trip_addition_effect now body (ext m))
      as [-> | (u & trip & _ & _ & ->)].
  - simpl in Hstep. unfold handle_trip_cancellation in Hstep.
    destruct (dict_get body "uavId") as [| | | |u| |];
      try (by injection Hstep as <- _).
    by destruct (_trips (ext m) !! u); injection Hstep as <- _.
  - simpl in Hstep. destruct (consumer (ext m)); [|done].
    destruct (holding m); [done|]. unfold receive in Hstep.
    destruct Hq as [Hle Hfull].
    destruct (queue (ext m)) as [|x q] eqn:Hqueue; [done|].
    destruct (parked (ext m)) as [|y ps] eqn:Hparked;
      simpl in Hstep; injection Hstep as <- _; split; simpl in *.
    + lia.
    + done.
    + rewrite length_app. simpl. specialize (Hfull ltac:(done)). lia.
    + intros _. rewrite length_app. simpl. specialize (Hfull ltac:(done)). lia.
  - simpl in Hstep. destruct (consumer (ext m)); [|done].
    destruct (holding m) as [u|]; [|done]. unfold upload_begin in Hstep.
    destruct (_trips (ext m) !! u) as [r|]; [|by injection Hstep as <- _].
    destruct (heap (ext m) !! r) as [t|]; [|by injection Hstep as <- _].
    by destruct (decide (status t = NEW)); injection Hstep as <- _.
  - simpl in Hstep. destruct (consumer (ext m)) as [|r]; [done|].
    by injection Hstep as <- _.
Qed.

(** X10. The command queue never holds more than its 32 ids, and a
    handler is suspended in its send only while the queue is full. *)
Theorem command_queue_bounded (m : machine) :
  reachable m →
  (length (queue (ext m)) ≤ 32)%nat
  ∧ (parked (ext m) ≠ [] → length (queue (ext m)) = 32%nat).
Proof.
  induction 1 as [ss|a m m' o _ IH Hstep].
  - split; simpl; [lia | done].
  - by apply (step_queue_inv a m m' o).
Qed.

Lemma handle_trip_addition_cases (now : float) (body : list (string * val))
    (st : state) :
  (∃ msg, handle_trip_addition now body st = (st, Return (reject msg)))
  ∨ (∃ e, handle_trip_addition now body st = (st, Throw e))
  ∨ ∃ u st',
      dict_get body "uavId" = VStr u
      ∧ queue st' = queue st ∧ parked st' = parked st
      ∧ handle_trip_addition now body st
        = (st', AwaitSend u (Return acknowledge)).
Proof.
  unfold handle_trip_addition.
  destruct (dict_get body "uavId") as [| | | |u| |]; try (left; by eexists).
  destruct (as_int _) as [ms|]; [|left; by eexists].
  destruct (int_truediv ms 1000) as [sec|e]; [|right; left; by eexists].
  destruct (flt sec now); [left; by eexists|].
  destruct (dict_get body "route") as [| | | | |[|x l]|]; try (left; by eexists).
  destruct (existsb _ (x :: l)); [left; by eexists|].
  right; right. eexists _, _. split; [done|].
  split; [|split; [|reflexivity]]; done.
Qed.

Lemma step_pending (a : action) (m m' : machine) (o : obs) :
  queue_inv (ext m) → step a m = Some (m', o) →
  (pending (ext m) ++ option_list (accepted_id (a, o)))%list
  = (option_list (received_id o) ++ pending (ext m'))%list.
Proof.
  intros [Hle Hfull] Hstep. unfold pending.
  destruct a as [now body|body| | |raised].
  - destruct (step_Add_inv _ _ _ _ _ Hstep) as (-> & _ & ->).
    destruct (handle_trip_addition_cases now body (ext m))
      as [[msg ->] | [[e ->] | (u & st' & Hu & Hq & Hp & ->)]];
      simpl; rewrite ?app_nil_r; [done..|].
    unfold send. rewrite Hq, Hp.
    destruct (Nat.ltb_spec (length (queue (ext m))) QUEUE_CAPACITY) as [Hlt|Hge];
      simpl; rewrite Hu; simpl.
    + destruct (parked (ext m)) as [|y ps]; [by rewrite !app_nil_r|].
      specialize (Hfull ltac:(done)). lia.
    + by rewrite app_assoc.
  - simpl in Hstep. unfold handle_trip_cancellation in Hstep.
    destruct (dict_get body "uavId") as [| | | |u| |];
      try (injection Hstep as <- <-; simpl; by rewrite app_nil_r).
    destruct (_trips (ext m) !! u); injection Hstep as <- <-; simpl;
      by rewrite app_nil_r.
  - simpl in Hstep. destruct (consumer (ext m)); [|done].
    destruct (holding m); [done|]. unfold receive in Hstep.
    destruct (queue (ext m)) as [|x q]; [done|].
    destruct (parked (ext m)) as [|y ps]; simpl in Hstep;
      injection Hstep as <- <-; simpl; rewrite ?app_nil_r; [done|].
    by rewrite <- app_assoc.
  - simpl in Hstep. destruct (consumer (ext m)); [|done].
    destruct (holding m) as [u|]; [|done]. unfold upload_begin in Hstep.
    destruct (_trips (ext m) !! u) as [r|];
      [|injection Hstep as <- <-; simpl; by rewrite app_nil_r].
    destruct (heap (ext m) !! r) as [t|];
      [|injection Hstep as <- <-; simpl; by rewrite app_nil_r].
    destruct (decide (status t = NEW)); injection Hstep as <- <-; simpl;
      by rewrite app_nil_r.
  - simpl in Hstep. destruct (consumer (ext m)) as [|r]; [done|].
    injection Hstep as <- <-. simpl. by rewrite app_nil_r.
Qed.

Lemma omap_cons_app {A B} (f : A → option B) (x : A) (l : list A) :
  omap f (x :: l) = (option_list (f x) ++ omap f l)%list.
Proof. simpl. by destruct (f x). Qed.

Lemma run_pending (acts : list action) (m m' : machine) (os : list obs) :
  queue_inv (ext m) → run acts m = Some (m', os) →
  (pending (ext m) ++ omap accepted_id (zip acts os))%list
  = (omap received_id os ++ pending (ext m'))%list.
Proof.
  revert m os. induction acts as [|a acts IH]; intros m os Hq Hrun.
  - simpl in Hrun. simplify_eq. simpl. by rewrite app_nil_r.
  - simpl in Hrun.
    destruct (step a m) as [[m1 o]|] eqn:Hstep; [|done]. simpl in Hrun.
    destruct (run acts m1) as [[m2 os']|] eqn:Hrest; [|done].
    simpl in Hrun. simplify_eq.
    pose proof (step_pending _ _ _ _ Hq Hstep) as H1.
    pose proof (IH _ _ (step_queue_inv _ _ _ _ Hq Hstep) Hrest) as H2.
    change (zip (a :: acts) (o :: os')) with ((a, o) :: zip acts os').
    rewrite !omap_cons_app, app_assoc, H1, <- app_assoc, H2.
    by rewrite app_assoc.
Qed.


(** *** A cancelled trip *)

Lemma step_dropped (r : nat) (t : Trip) (a : action) (m m' : machine) (o : obs) :
  upload_inv (ext m) → status t = NEW → dropped r t (ext m) →
  step a m = Some (m', o) →
  dropped r t (ext m') ∧ starts r o = false.
Proof.
  intros [Hup Hsl] Hnew [Ht Hno] Hstep. destruct a as [now body|body| | |raised].
  - pose proof (step_Add_inv _ _ _ _ _ Hstep) as (_ & _ & ->).
    split; [|done].
    destruct (step_Add_fields _ _ _ _ _ Hstep)
      as (_ & [[Hh Hm] | (u & trip & _ & _ & Hh & Hm)]);
      unfold dropped; rewrite Hh, Hm; [done|].
    split; [by apply lookup_app_l_Some|]. intros u'.
    destruct (decide (u = u')) as [<-|Hne].
    + rewrite lookup_insert_eq. intros [= <-].
      apply lookup_lt_Some in Ht. lia.
    + by rewrite lookup_insert_ne.
  - destruct (step_Cancel_fields _ _ _ _ Hstep) as (_ & Hh & Hm).
    split.
    + split; [by rewrite Hh|]. intros u Hu. by apply (Hno u), Hm.
    + simpl in Hstep. destruct (handle_trip_cancellation body (ext m)).
      by simplify_eq.
  - destruct (step_Receive_fields _ _ _ Hstep) as (_ & Hh & Hm & u & -> & _).
    split; [|done]. unfold dropped. by rewrite Hh, Hm.
  - destruct (step_Begin_inv _ _ _ Hstep)
      as (u & _ & _ & _
          & [(-> & -> & _) | (r' & t' & -> & Hr' & _ & _ & Hh & Hm & _)]);
      [done|].
    assert (r' ≠ r) as Hne by (intros ->; by apply (Hno u)).
    split.
    + unfold dropped. rewrite Hh, Hm. by rewrite list_lookup_insert_ne.
    + simpl. by apply bool_decide_eq_false.
  - destruct (step_Wake_inv _ _ _ _ Hstep) as (r' & Hsleep & -> & Hh & Hm & _).
    split; [|done]. unfold dropped. rewrite Hh, Hm.
    destruct (Hsl _ Hsleep) as (t' & Ht' & Hst').
    assert (r' ≠ r) as Hne.
    { intros ->. rewrite Ht in Ht'. injection Ht' as <-. by rewrite Hnew in Hst'. }
    by rewrite list_lookup_alter_ne.
Qed.

Lemma run_dropped (r : nat) (t : Trip) (acts : list action) (m m' : machine)
    (os : list obs) :
  upload_inv (ext m) → status t = NEW → dropped r t (ext m) →
  run acts m = Some (m', os) →
  dropped r t (ext m') ∧ uploads_of r os = 0%nat.
Proof.
  intros Hinv Hnew. revert m os Hinv.
  induction acts as [|a acts IH]; intros m os Hinv Hd Hrun.
  - simpl in Hrun. by simplify_eq.
  - simpl in Hrun.
    destruct (step a m) as [[m1 o]|] eqn:Hstep; [|done]. simpl in Hrun.
    destruct (run acts m1) as [[m2 os']|] eqn:Hrest; [|done].
    simpl in Hrun. simplify_eq.
    destruct (step_dropped _ _ _ _ _ _ Hinv Hnew Hd Hstep) as [Hd1 Ho].
    destruct (IH _ _ (step_upload_inv _ _ _ _ Hinv Hstep) Hd1 Hrest)
      as [Hd2 Hcount].
    split; [done|]. unfold uploads_of in *. simpl. by rewrite Ho.
Qed.

(** X12. A cancellation for an id with a stored trip is acknowledged
    whatever the status of the trip; it removes the trip from [_trips]
    and takes nothing out of the queue. When the trip was still NEW, no
    later run of the extension uploads it: the object stays as it was
    for ever and the id never leads to it again, so that an entry of the
    id left in the queue is dealt with against what is stored under the
    id when the background task reaches it, nothing or a trip added
    since. When the background task was uploading the trip, the
    cancellation does not stop it: the task is still at the await and
    ends the upload on the removed trip. *)
Theorem cancelled_trip_not_uploaded (body : list (string * val))
    (m m1 : machine) (o : obs) (u : string) (r : nat) (t : Trip) :
  reachable m →
  dict_get body "uavId" = VStr u →
  _trips (ext m) !! u = Some r →
  heap (ext m) !! r = Some t →
  step (Cancel body) m = Some (m1, o) →
  o = Handled (Replied acknowledge)
  ∧ trip_of (ext m1) u = None
  ∧ queue (ext m1) = queue (ext m)
  ∧ parked (ext m1) = parked (ext m)
  ∧ (status t = NEW →
     ∀ acts m2 os, run acts m1 = Some (m2, os) →
       uploads_of r os = 0%nat
       ∧ heap (ext m2) !! r = Some t
       ∧ _trips (ext m2) !! u ≠ Some r)
  ∧ (consumer (ext m) = Sleeping r →
     ∀ raised, ∃ m2,
       step (Wake raised) m1
       = Some (m2, Finished r (if raised then ERROR else UPLOADED))
       ∧ heap (ext m2) !! r
         = Some (set_status (if raised then ERROR else UPLOADED) t)
       ∧ trip_of (ext m2) u = None).
Proof.
  intros Hreach Hu Hr Ht Hstep.
  pose proof (reachable_upload_inv _ Hreach) as Hinv.
  pose proof (reachable_refs_inj _ Hreach) as Hinj.
  pose proof (step_upload_inv _ _ _ _ Hinv Hstep) as Hinv1.
  destruct (step_Cancel_fields _ _ _ _ Hstep) as (Hc & Hh & Hm).
  simpl in Hstep. unfold handle_trip_cancellation in Hstep.
  rewrite Hu, Hr in Hstep. injection Hstep as <- <-. simpl in *.
  split; [done|]. split.
  { unfold trip_of. simpl. by rewrite lookup_delete_eq. }
  do 2 (split; [done|]). split.
  - intros Hnew acts m2 os Hrun.
    assert (dropped r t (with_trips (ext m) (delete u (_trips (ext m))))) as Hd.
    { split; [done|]. simpl. intros u' [Hne Hu']%lookup_delete_Some.
      by apply Hne, (Hinj u u' r). }
    destruct (run_dropped r t acts
                {| ext := with_trips (ext m) (delete u (_trips (ext m)));
                   holding := holding m |} m2 os Hinv1 Hnew Hd Hrun)
      as [[Ht2 Hno] Hcount].
    by repeat split.
  - intros Hsleep raised. rewrite Hsleep. eexists. split; [done|]. simpl.
    split; [by rewrite list_lookup_alter_eq, Ht|].
    unfold trip_of. simpl. by rewrite lookup_delete_eq.
Qed.

(** *** What is stored *)

Lemma handle_trip_addition_new_trip (now : float) (body : list (string * val))
    (st : state) :
  (handle_trip_addition now body st).1 = st
  ∨ ∃ u trip,
      uav_id trip = u ∧ route trip ≠ []
      ∧ (handle_trip_addition now body st).1
        = with_trips (with_heap st (heap st ++ [trip])%list)
            (<[u := length (heap st)]> (_trips st)).
Proof.
  unfold handle_trip_addition.
  destruct (dict_get body "uavId") as [| | | |u| |]; try by left.
  destruct (as_int _) as [ms|]; [|by left].
  destruct (int_truediv ms 1000) as [sec|e]; [|by left].
  destruct (flt sec now); [by left|].
  destruct (dict_get body "route") as [| | | | |[|x l]|]; try by left.
  destruct (existsb _ (x :: l)) eqn:Hex; [by left|].
  right. eexists _, _. split; [|split; [|reflexivity]]; [done|].
  simpl in Hex. apply orb_false_elim in Hex as [Hx _].
  by destruct x.
Qed.

Lemma step_trips_inv (a : action) (m m' : machine) (o : obs) :
  refs_valid (ext m) → trips_inv (ext m) → step a m = Some (m', o) →
  trips_inv (ext m').
Proof.
  intros Hv [Hid Hroute] Hstep. destruct a as [now body|body| | |raised].
  - destruct (step_Add_inv _ _ _ _ _ Hstep) as (Hext & _).
    destruct (run_handler_fields
                (handle_trip_addition now body (ext m)).2
                (handle_trip_addition now body (ext m)).1) as (Hh & Hm & _).
    rewrite <- Hext in Hh, Hm. unfold trips_inv. rewrite Hh, Hm.
    destruct (handle_trip_addition_new_trip now body (ext m))
      as [-> | (u & trip & Hu & Hr & ->)]; [done|]. simpl. split.
    + intros u' r t. destruct (decide (u = u')) as [<-|Hne].
      * rewrite lookup_insert_eq. intros [= <-].
        rewrite lookup_app_r, Nat.sub_diag by lia. by intros [= <-].
      * rewrite lookup_insert_ne by done. intros Hr' Ht.
        apply lookup_app_Some in Ht as [Ht|[Hge _]]; [by eapply Hid|].
        apply Hv in Hr'. lia.
    + intros r t [Ht|[_ Ht]]%lookup_app_Some; [by eapply Hroute|].
      by apply list_lookup_singleton_Some in Ht as [_ <-].
  - destruct (step_Cancel_fields _ _ _ _ Hstep) as (_ & Hh & Hm).
    unfold trips_inv. rewrite Hh. split; [|done].
    intros u r t Hr%Hm. by apply Hid.
  - destruct (step_Receive_fields _ _ _ Hstep) as (_ & Hh & Hm & _).
    unfold trips_inv. by rewrite Hh, Hm.
  - destruct (step_Begin_inv _ _ _ Hstep)
      as (u & _ & _ & _
          & [(_ & -> & _) | (r' & t' & _ & Hr' & Ht' & _ & Hh & Hm & _)]);
      [done|].
    unfold trips_inv. rewrite Hh, Hm. split.
    + intros u' r t Hr. destruct (decide (r' = r)) as [->|Hne].
      * rewrite list_lookup_insert_eq by (by eapply lookup_lt_Some).
        intros [= <-]. simpl. by eapply Hid.
      * rewrite list_lookup_insert_ne by done. by apply Hid.
    + intros r t. destruct (decide (r' = r)) as [->|Hne].
      * rewrite list_lookup_insert_eq by (by eapply lookup_lt_Some).
        intros [= <-]. simpl. by eapply Hroute.
      * rewrite list_lookup_insert_ne by done. by apply Hroute.
  - destruct (step_Wake_inv _ _ _ _ Hstep) as (r' & _ & _ & Hh & Hm & _).
    unfold trips_inv. rewrite Hh, Hm. split.
    + intros u r t Hr. destruct (decide (r' = r)) as [->|Hne].
      * rewrite list_lookup_alter_eq.
        destruct (heap (ext m) !! r) as [t0|] eqn:Ht0; [|done].
        intros [= <-]. simpl. by eapply Hid.
      * rewrite list_lookup_alter_ne by done. by apply Hid.
    + intros r t. destruct (decide (r' = r)) as [->|Hne].
      * rewrite list_lookup_alter_eq.
        destruct (heap (ext m) !! r) as [t0|] eqn:Ht0; [|done].
        intros [= <-]. simpl. by eapply Hroute.
      * rewrite list_lookup_alter_ne by done. by apply Hroute.
Qed.

(** X13. Whatever messages arrive, a trip stored under an id is a trip
    of that id, and every trip the extension holds has a route of at
    least one station. *)
Theorem stored_trips_well_formed (m : machine) :
  reachable m →
  (∀ u t, trip_of (ext m) u = Some t → uav_id t = u)
  ∧ (∀ r t, heap (ext m) !! r = Some t → route t ≠ []).
Proof.
  intros Hreach.
  assert (trips_inv (ext m)) as [Hid Hroute].
  { induction Hreach as [ss|a m m' o Hreach IH Hstep].
    - split; [intros u r t; simpl; by rewrite lookup_empty|].
      intros r t Hr. simpl in Hr. by rewrite lookup_nil in Hr.
    - eapply step_trips_inv; [by apply reachable_refs_valid|done..]. }
  split; [|done]. intros u t. unfold trip_of.
  destruct (_trips (ext m) !! u) as [r|] eqn:Hr; simpl; [|done].
  by apply Hid.
Qed.

End TripLife.

(** *** [run()] cancelled and started again *)

Section WholeLife.
Context `{Builtins}.

Lemma run_task_fields (ph : phase) (p : async reply) (st : state) :
  heap (run_task ph p st).1.1 = heap st
  ∧ _trips (run_task ph p st).1.1 = _trips st
  ∧ consumer (run_task ph p st).1.1 = consumer st.
Proof.
  revert st. induction p as [r|e|item k IH]; intros st; simpl; [done..|].
  destruct ph; simpl; [|done..].
  unfold send. destruct (length (queue st) <? QUEUE_CAPACITY)%nat; simpl; [|done].
  destruct (IH (with_queue st (queue st ++ [item])%list (parked st)))
    as (-> & -> & ->). done.
Qed.

(** While [run()] is running, a handler runs as in the one run. *)
Lemma run_task_running (p : async reply) (st : state) :
  (run_task Running p st).1 = run_handler p st.
Proof.
  revert st. induction p as [r|e|item k IH]; intros st; simpl; [done..|].
  destruct (send item st) as [st' [|]]; [apply IH | done].
Qed.

(** Every step of the one run is a step of the whole life, with the
    same effect on the extension. *)
Lemma step_life_step (a : action) (l : life) (m' : machine) (o : obs) :
  phase_of l = Running →
  step a (core l) = Some (m', o) →
  ∃ l', life_step (In a) l = Some (l', Did o) ∧ core l' = m'
        ∧ phase_of l' = Running.
Proof.
  intros Hph Hstep. destruct a as [now body|body| | |raised].
  - simpl in Hstep. unfold life_step. rewrite Hph.
    destruct (handle_trip_addition now body (ext (core l))) as [st p].
    pose proof (run_task_running p st) as Hrun.
    destruct (run_task Running p st) as [[st' d] ks]. simpl in Hrun.
    rewrite <- Hrun in Hstep. injection Hstep as <- <-. by eexists.
  - unfold life_step. rewrite Hph, Hstep. simpl. by eexists.
  - unfold life_step. rewrite Hph, Hstep. simpl.
    destruct (parked (ext (core l))), (waiting l); by eexists.
  - unfold life_step. rewrite Hph, Hstep. simpl. by eexists.
  - unfold life_step. rewrite Hph, Hstep. simpl. by eexists.
Qed.

Lemma life_step_In_core (a : action) (l l' : life) (o' : life_obs) :
  phase_of l = Running →
  life_step (In a) l = Some (l', o') →
  ∃ o, o' = Did o ∧ step a (core l) = Some (core l', o)
       ∧ phase_of l' = Running.
Proof.
  intros Hph Hstep. destruct a as [now body|body| | |raised].
  - unfold life_step in Hstep. rewrite Hph in Hstep. simpl.
    destruct (handle_trip_addition now body (ext (core l))) as [st p].
    pose proof (run_task_running p st) as Hrun.
    destruct (run_task Running p st) as [[st' d] ks]. simpl in Hrun.
    rewrite <- Hrun. injection Hstep as <- <-. by eexists.
  - unfold life_step in Hstep. rewrite Hph in Hstep.
    destruct (step (Cancel body) (core l)) as [[m o]|]; [|done].
    simpl in Hstep. injection Hstep as <- <-. by eexists.
  - unfold life_step in Hstep. rewrite Hph in Hstep.
    destruct (step Receive (core l)) as [[m o]|]; [|done]. simpl in Hstep.
    destruct (parked (ext (core l))), (waiting l);
      injection Hstep as <- <-; by eexists.
  - unfold life_step in Hstep. rewrite Hph in Hstep.
    destruct (step Begin (core l)) as [[m o]|]; [|done].
    simpl in Hstep. injection Hstep as <- <-. by eexists.
  - unfold life_step in Hstep. rewrite Hph in Hstep.
    destruct (step (Wake raised) (core l)) as [[m o]|]; [|done].
    simpl in Hstep. injection Hstep as <- <-. by eexists.
Qed.

(** The trips that are UPLOADING, through the steps of the one run. *)
Lemma uploads_inv_same (S : list nat) (st st' : state) :
  heap st' = heap st → consumer st' = consumer st →
  uploads_inv S st → uploads_inv S st'.
Proof. intros Hh Hc. unfold uploads_inv. by rewrite Hh, Hc. Qed.

Lemma uploads_inv_new (S : list nat) (st st' : state) (trip : Trip) :
  status trip = NEW →
  heap st' = (heap st ++ [trip])%list → consumer st' = consumer st →
  uploads_inv S st → uploads_inv S st'.
Proof.
  intros Hnew Hh Hc (HA & HB & HC). unfold uploads_inv. rewrite Hh, Hc.
  split; [|split].
  - intros r t [Hr|[_ Hr]]%lookup_app_Some; [by apply HA|].
    apply list_lookup_singleton_Some in Hr as [_ <-]. by rewrite Hnew.
  - intros r Hr. destruct (HB r Hr) as [(t & Ht & Hst) Hno].
    split; [|done]. exists t. split; [by apply lookup_app_l_Some|done].
  - intros r Hr. destruct (HC r Hr) as (t & Ht & Hst).
    exists t. split; [by apply lookup_app_l_Some|done].
Qed.

Lemma step_uploads_inv (S : list nat) (a : action) (m m' : machine) (o : obs) :
  uploads_inv S (ext m) → step a m = Some (m', o) → uploads_inv S (ext m').
Proof.
  intros Hinv Hstep. destruct a as [now body|body| | |raised].
  - destruct (step_Add_fields _ _ _ _ _ Hstep)
      as (Hc & [[Hh _] | (u & trip & Hnew & _ & Hh & _)]).
    + by apply (uploads_inv_same S (ext m)).
    + by apply (uploads_inv_new S (ext m) _ trip).
  - destruct (step_Cancel_fields _ _ _ _ Hstep) as (Hc & Hh & _).
    by apply (uploads_inv_same S (ext m)).
  - destruct (step_Receive_fields _ _ _ Hstep) as (Hc & Hh & _).
    by apply (uploads_inv_same S (ext m)).
  - destruct Hinv as (HA & HB & HC).
    destruct (step_Begin_inv _ _ _ Hstep)
      as (u & _ & Hidle & _
          & [(_ & -> & _) | (r & t & _ & _ & Ht & Hnew & Hh & _ & Hc)]); [done|].
    unfold uploads_inv. rewrite Hh, Hc. split; [|split].
    + intros r' t' Hr' Hst. destruct (decide (r = r')) as [->|Hne]; [by left|].
      rewrite list_lookup_insert_ne in Hr' by done.
      destruct (HA _ _ Hr' Hst) as [Hsleep|HS]; [|by right].
      by rewrite Hidle in Hsleep.
    + intros r' [= <-]. split.
      * exists (set_status UPLOADING t). split; [|done].
        apply list_lookup_insert_eq. by eapply lookup_lt_Some.
      * intros HS. destruct (HC _ HS) as (t0 & Ht0 & Hst0).
        rewrite Ht in Ht0. injection Ht0 as <-. by rewrite Hnew in Hst0.
    + intros r' HS. destruct (HC _ HS) as (t0 & Ht0 & Hst0).
      exists t0. split; [|done]. rewrite list_lookup_insert_ne; [done|].
      intros ->. rewrite Ht in Ht0. injection Ht0 as <-. by rewrite Hnew in Hst0.
  - destruct Hinv as (HA & HB & HC).
    destruct (step_Wake_inv _ _ _ _ Hstep) as (r & Hsleep & _ & Hh & _ & Hc & _).
    destruct (HB _ Hsleep) as [_ Hno].
    unfold uploads_inv. rewrite Hh, Hc. split; [|split; [done|]].
    + intros r' t' Hr' Hst. right. destruct (decide (r = r')) as [<-|Hne].
      * exfalso. rewrite list_lookup_alter_eq in Hr'.
        destruct (heap (ext m) !! r) as [t|]; simpl in Hr'; [|done].
        injection Hr' as <-. by destruct raised.
      * rewrite list_lookup_alter_ne in Hr' by done.
        destruct (HA _ _ Hr' Hst) as [Hsleep'|HS]; [|done].
        rewrite Hsleep in Hsleep'. by injection Hsleep'.
    + intros r' HS. destruct (HC _ HS) as (t0 & Ht0 & Hst0).
      exists t0. split; [|done]. rewrite list_lookup_alter_ne; [done|].
      by intros ->.
Qed.

(** The same through the steps of the whole life; outside a run the
    background task is on no trip. *)
Lemma life_step_uploads_inv (S : list nat) (a : life_action) (l l' : life)
    (o : life_obs) :
  uploads_inv S (ext (core l)) →
  (phase_of l ≠ Running → consumer (ext (core l)) = Idle) →
  life_step a l = Some (l', o) →
  uploads_inv (S ++ option_list (interrupted_trip o)) (ext (core l'))
  ∧ (phase_of l' ≠ Running → consumer (ext (core l')) = Idle).
Proof.
  intros Hinv Hidle Hstep.
  destruct (decide (phase_of l = Running)) as [Hrun|Hnot].
  - destruct a as [a| | | | |].
    + destruct (life_step_In_core _ _ _ _ Hrun Hstep) as (o0 & -> & Hcore & Hph).
      simpl. rewrite app_nil_r. split; [by eapply step_uploads_inv|].
      by rewrite Hph.
    + unfold life_step in Hstep. destruct (woken l) as [|k ws]; [done|].
      pose proof (run_task_fields (phase_of l) k (ext (core l))) as (Hh & _ & Hc).
      destruct (run_task (phase_of l) k (ext (core l))) as [[st' d] ks].
      injection Hstep as <- <-. simpl in *. rewrite app_nil_r.
      split; [by apply (uploads_inv_same S (ext (core l)))|].
      by rewrite Hrun.
    + unfold life_step in Hstep. rewrite Hrun in Hstep.
      destruct Hinv as (HA & HB & HC).
      destruct (consumer (ext (core l))) as [|r] eqn:Hc.
      * destruct (holding (core l)); [done|]. injection Hstep as <- <-.
        simpl. rewrite app_nil_r. split; [|done].
        unfold uploads_inv. simpl. split; [|split; [done|done]].
        intros r t Hr Hst. destruct (HA _ _ Hr Hst) as [?|?]; [done|by right].
      * injection Hstep as <- <-. simpl. split; [|done].
        destruct (HB r eq_refl) as [(t & Ht & Hst) Hno].
        unfold uploads_inv. simpl. split; [|split; [done|]].
        -- intros r' t' Hr' Hst'. right. apply elem_of_app.
           destruct (HA _ _ Hr' Hst') as [[= ->]|HS]; [right|by left].
           by apply list_elem_of_singleton.
        -- intros r' [HS|Hr']%elem_of_app; [by apply HC|].
           apply list_elem_of_singleton in Hr' as ->. by exists t.
    + unfold life_step in Hstep. by rewrite Hrun in Hstep.
    + unfold life_step in Hstep. by rewrite Hrun in Hstep.
    + unfold life_step in Hstep. by rewrite Hrun in Hstep.
  - specialize (Hidle Hnot).
    destruct a as [[now body|body| | |raised]| | | | |].
    + unfold life_step in Hstep.
      destruct (handle_trip_addition_effect now body (ext (core l)))
        as [Hsame | (u & trip & Hnew & _ & Heff)].
      * destruct (handle_trip_addition now body (ext (core l))) as [st p].
        simpl in Hsame. subst st.
        pose proof (run_task_fields (phase_of l) p (ext (core l))) as (Hh & _ & Hc).
        destruct (phase_of l) eqn:Hph; [done| | |done];
          destruct (run_task _ p (ext (core l))) as [[st' d] ks];
          injection Hstep as <- <-; simpl in *; rewrite app_nil_r;
          (split; [by apply (uploads_inv_same S (ext (core l)))
                  | by rewrite Hc]).
      * rewrite Heff in Hstep.
        pose proof (run_task_fields (phase_of l)
                      (AwaitSend u (Return acknowledge))
                      (with_trips
                         (with_heap (ext (core l))
                            (heap (ext (core l)) ++ [trip])%list)
                         (<[u:=length (heap (ext (core l)))]>
                            (_trips (ext (core l)))))) as (Hh & _ & Hc).
        destruct (phase_of l) eqn:Hph; [done| | |done];
          destruct (run_task _ _ _) as [[st' d] ks];
          injection Hstep as <- <-; simpl in *; rewrite app_nil_r;
          (split; [by apply (uploads_inv_new S (ext (core l)) _ trip)
                  | by rewrite Hc]).
    + unfold life_step in Hstep.
      destruct (phase_of l) eqn:Hph; [done| | |done];
        destruct (step (Cancel body) (core l)) as [[m o0]|] eqn:Hcancel;
        try done; simpl in Hstep; injection Hstep as <- <-;
        destruct (step_Cancel_fields _ _ _ _ Hcancel) as (Hc & Hh & _);
        simpl; rewrite app_nil_r;
        (split; [by apply (uploads_inv_same S (ext (core l)))
                | by rewrite Hc]).
    + unfold life_step in Hstep. by destruct (phase_of l).
    + unfold life_step in Hstep. by destruct (phase_of l).
    + unfold life_step in Hstep. by destruct (phase_of l).
    + unfold life_step in Hstep. destruct (woken l) as [|k ws]; [done|].
      pose proof (run_task_fields (phase_of l) k (ext (core l))) as (Hh & _ & Hc).
      destruct (run_task (phase_of l) k (ext (core l))) as [[st' d] ks].
      injection Hstep as <- <-. simpl in *. rewrite app_nil_r.
      split; [by apply (uploads_inv_same S (ext (core l)))|].
      by rewrite Hc.
    + unfold life_step in Hstep. by destruct (phase_of l).
    + unfold life_step in Hstep.
      destruct (phase_of l); try done. injection Hstep as <- <-.
      simpl. by rewrite app_nil_r.
    + unfold life_step in Hstep.
      destruct (phase_of l); try done. injection Hstep as <- <-.
      simpl. by rewrite app_nil_r.
    + unfold life_step in Hstep.
      destruct (phase_of l); try done. injection Hstep as <- <-.
      simpl. rewrite app_nil_r. split; [|done].
      by apply (uploads_inv_same S (ext (core l))).
Qed.

Lemma life_run_uploads_inv (S : list nat) (acts : list life_action)
    (l l' : life) (os : list life_obs) :
  uploads_inv S (ext (core l)) →
  (phase_of l ≠ Running → consumer (ext (core l)) = Idle) →
  life_run acts l = Some (l', os) →
  uploads_inv (S ++ omap interrupted_trip os) (ext (core l'))
  ∧ (phase_of l' ≠ Running → consumer (ext (core l')) = Idle).
Proof.
  revert S l os. induction acts as [|a acts IH]; intros S l os Hinv Hidle Hrun.
  - simpl in Hrun. simplify_eq. simpl. by rewrite app_nil_r.
  - simpl in Hrun.
    destruct (life_step a l) as [[l1 o]|] eqn:Hstep; [|done]. simpl in Hrun.
    destruct (life_run acts l1) as [[l2 os']|] eqn:Hrest; [|done].
    simpl in Hrun. simplify_eq.
    destruct (life_step_uploads_inv _ _ _ _ _ Hinv Hidle Hstep) as [Hinv1 Hidle1].
    rewrite omap_cons_app, app_assoc. by apply (IH _ l1).
Qed.

Lemma interrupted_trip_elem (r : nat) (os : list life_obs) :
  r ∈ omap interrupted_trip os ↔ Interrupted (Some r) ∈ os.
Proof.
  rewrite list_elem_of_omap. split.
  - intros (o & Ho & Hr).
    destruct o as [o|[r'|]| |]; simpl in Hr; simplify_eq. done.
  - intros Ho. by exists (Interrupted (Some r)).
Qed.

(** X7. Through the whole life of the extension, its [run()] cancelled
    and started again any number of times: a trip has status UPLOADING
    when the background task is uploading it, or when a cancellation
    interrupted its upload, and in no other case. The task uploads one
    trip at a time, never an interrupted one; and a trip whose upload
    was interrupted keeps the status UPLOADING for ever, no task being
    on it. *)
Theorem uploading_trips (ss : list (string * Station))
    (acts : list life_action) (l : life) (os : list life_obs) :
  life_run acts (life_start ss) = Some (l, os) →
  (∀ r t, heap (ext (core l)) !! r = Some t →
          (status t = UPLOADING
           ↔ consumer (ext (core l)) = Sleeping r ∨ Interrupted (Some r) ∈ os))
  ∧ (∀ r, consumer (ext (core l)) = Sleeping r →
          phase_of l = Running ∧ Interrupted (Some r) ∉ os)
  ∧ (∀ r acts' l' os',
       Interrupted (Some r) ∈ os →
       life_run acts' l = Some (l', os') →
       consumer (ext (core l')) ≠ Sleeping r
       ∧ ∃ t, heap (ext (core l')) !! r = Some t ∧ status t = UPLOADING).
Proof.
  intros Hrun.
  assert (uploads_inv [] (ext (core (life_start ss)))) as Hstart.
  { split; [|split]; simpl.
    - intros r t Hr. by rewrite lookup_nil in Hr.
    - done.
    - by intros r ?%elem_of_nil. }
  destruct (life_run_uploads_inv [] acts _ _ _ Hstart ltac:(done) Hrun)
    as [(HA & HB & HC) Hidle]. simpl in HA, HB, HC.
  split; [|split].
  - intros r t Ht. split.
    + intros Hst. destruct (HA _ _ Ht Hst) as [?|HS]; [by left|right].
      by apply interrupted_trip_elem.
    + intros [Hsleep|Hint].
      * destruct (HB _ Hsleep) as [(t0 & Ht0 & Hst0) _]. by simplify_eq.
      * destruct (HC r) as (t0 & Ht0 & Hst0); [by apply interrupted_trip_elem|].
        by simplify_eq.
  - intros r Hsleep. destruct (HB _ Hsleep) as [_ Hno]. split.
    + destruct (decide (phase_of l = Running)) as [|Hnot]; [done|].
      by rewrite (Hidle Hnot) in Hsleep.
    + by rewrite <- interrupted_trip_elem.
  - intros r acts' l' os' Hint Hrun'.
    destruct (life_run_uploads_inv _ acts' _ _ _ (conj HA (conj HB HC)) Hidle Hrun')
      as [(_ & HB' & HC') _].
    assert (r ∈ (omap interrupted_trip os ++ omap interrupted_trip os')%list)
      as HS by (apply elem_of_app; left; by apply interrupted_trip_elem).
    split; [|by apply HC'].
    intros Hsleep. by destruct (HB' _ Hsleep) as [_ Hno].
Qed.

(** *** Exceptions out of the addition handler *)

Lemma life_step_tasks_inv (a : life_action) (l l' : life) (o : life_obs) :
  tasks_inv l → life_step a l = Some (l', o) → tasks_inv l'.
Proof.
  intros [Hw Hk] Hstep.
  assert (∀ ph now body,
            Forall (fun k => k = Return acknowledge)
              (run_task ph (handle_trip_addition now body (ext (core l))).2
                 (handle_trip_addition now body (ext (core l))).1).2) as Hadd.
  { intros ph now body.
    destruct (handle_trip_addition_cases now body (ext (core l)))
      as [[msg ->] | [[e ->] | (u & st' & _ & _ & _ & ->)]]; simpl; [done..|].
    destruct ph; simpl; [|done..]. unfold send.
    destruct (length (queue st') <? QUEUE_CAPACITY)%nat; simpl; [done|].
    by repeat constructor. }
  assert (∀ ph k st, k = Return acknowledge ∨ k = Throw BrokenResourceError →
                     (run_task ph k st).2 = []) as Hresume.
  { by intros ph k st [-> | ->]. }
  destruct a as [[now body|body| | |raised]| | | | |]; unfold life_step in Hstep.
  - specialize (Hadd (phase_of l) now body).
    destruct (handle_trip_addition now body (ext (core l))) as [st p].
    simpl in Hadd.
    destruct (phase_of l); [| | |done];
      destruct (run_task _ p st) as [[st' d] ks]; injection Hstep as <- <-;
      (split; simpl; [by apply Forall_app|done]).
  - destruct (phase_of l); [| | |done];
      destruct (step (Cancel body) (core l)) as [[m o0]|]; try done;
      simpl in Hstep; by injection Hstep as <- <-.
  - destruct (phase_of l); try done.
    destruct (step Receive (core l)) as [[m o0]|]; [|done]. simpl in Hstep.
    destruct (parked (ext (core l))) as [|y ps], (waiting l) as [|k ks];
      injection Hstep as <- <-; try done.
    apply Forall_cons in Hw as [-> Hw]. split; simpl; [done|].
    apply Forall_app. split; [done|]. apply Forall_singleton. by left.
  - destruct (phase_of l); try done.
    destruct (step Begin (core l)) as [[m o0]|]; [|done].
    simpl in Hstep. by injection Hstep as <- <-.
  - destruct (phase_of l); try done.
    destruct (step (Wake raised) (core l)) as [[m o0]|]; [|done].
    simpl in Hstep. by injection Hstep as <- <-.
  - destruct (woken l) as [|k ws] eqn:Hwoken; [done|].
    apply Forall_cons in Hk as [Hk0 Hk].
    specialize (Hresume (phase_of l) k (ext (core l)) Hk0).
    destruct (run_task (phase_of l) k (ext (core l))) as [[st' d] ks].
    simpl in Hresume. subst ks. injection Hstep as <- <-.
    split; simpl; [by rewrite app_nil_r | done].
  - destruct (phase_of l); try done.
    destruct (consumer (ext (core l))); [destruct (holding (core l)); [done|]|];
      injection Hstep as <- <-; (split; simpl; [done|]);
      (apply Forall_app; split; [done|]);
      apply Forall_fmap, Forall_forall; intros k _; simpl; by right.
  - destruct (phase_of l); try done. by injection Hstep as <- <-.
  - destruct (phase_of l); try done. by injection Hstep as <- <-.
  - destruct (phase_of l); try done. by injection Hstep as <- <-.
Qed.

Lemma life_run_tasks_inv (acts : list life_action) (l l' : life)
    (os : list life_obs) :
  tasks_inv l → life_run acts l = Some (l', os) → tasks_inv l'.
Proof.
  revert l os. induction acts as [|a acts IH]; intros l os Hinv Hrun.
  - simpl in Hrun. by simplify_eq.
  - simpl in Hrun.
    destruct (life_step a l) as [[l1 o]|] eqn:Hstep; [|done]. simpl in Hrun.
    destruct (life_run acts l1) as [[l2 os']|] eqn:Hrest; [|done].
    simpl in Hrun. simplify_eq.
    apply (IH l1 os'); [by eapply life_step_tasks_inv | done].
Qed.

(** X9. The cancellation of the task in which the hub runs it apart, an
    exception leaves the addition handler in two situations only. Before
    anything is stored: [OverflowError], when the integer
    taken from startTime is at least 2 ^ 64 in absolute value and its
    division by 1000 overflows. At the send, the trip already stored
    with status NEW: while [run()] is on its way out after a
    cancellation, [BrokenResourceError] once the receiving end of the
    queue is closed and [ClosedResourceError] once the sending end is. A
    handler resumed after its send acknowledges, unless it was waiting
    on the full queue when the receiving end was closed: it then raises
    [BrokenResourceError]. *)
Theorem handler_exceptions (ss : list (string * Station))
    (acts : list life_action) (l : life) (os : list life_obs) :
  life_run acts (life_start ss) = Some (l, os) →
  (∀ now body l' e,
     life_step (In (Add now body)) l = Some (l', Did (Handled (Raised e))) →
     (e = OverflowError
      ∧ ext (core l') = ext (core l)
      ∧ ∃ ms, int (dict_get body "startTime") = Ok ms ∧ 2 ^ 64 ≤ Z.abs ms)
     ∨ ((e = BrokenResourceError ∧ phase_of l = ReceiveClosed
         ∨ e = ClosedResourceError ∧ phase_of l = SendClosed)
        ∧ ∃ u trip,
            dict_get body "uavId" = VStr u
            ∧ status trip = NEW
            ∧ heap (ext (core l')) = (heap (ext (core l)) ++ [trip])%list
            ∧ trip_of (ext (core l')) u = Some trip))
  ∧ (∀ l' o, life_step Resume l = Some (l', o) →
       ext (core l') = ext (core l)
       ∧ (o = Did (Handled (Replied acknowledge))
          ∨ o = Did (Handled (Raised BrokenResourceError)))).
Proof.
  intros Hrun.
  assert (tasks_inv l) as [_ Hwoken].
  { eapply life_run_tasks_inv; [|exact Hrun]. by split. }
  split.
  - intros now body l' e Hstep. unfold life_step in Hstep.
    destruct (handle_trip_addition_cases now body (ext (core l)))
      as [[msg Hh] | [[e' Hh] | (u & st' & Hu & _ & _ & Hh)]].
    + rewrite Hh in Hstep. by destruct (phase_of l).
    + left.
      destruct (handle_trip_addition_throws now body (ext (core l)) e')
        as (-> & _ & _ & ms & Hms & Hbig & _); [by rewrite Hh|].
      rewrite Hh in Hstep.
      assert (e = OverflowError ∧ ext (core l') = ext (core l)) as [-> Hext].
      { destruct (phase_of l); [| | |done]; simpl in Hstep;
          by injection Hstep as <- <-. }
      do 2 (split; [done|]). exists ms. split; [|done].
      destruct (int (dict_get body "startTime")) as [z|e0] eqn:Hint.
      * simpl in Hms. by injection Hms as ->.
      * by rewrite (int_raise_not_int _ _ Hint) in Hms.
    + right.
      destruct (handle_trip_addition_effect now body (ext (core l)))
        as [Hsame | (u' & trip & Hnew & Hu' & Heff)].
      { exfalso. rewrite Hh in Hsame. simpl in Hsame. subst st'.
        unfold handle_trip_addition in Hh. rewrite Hu in Hh.
        destruct (as_int _) as [ms|]; [|done].
        destruct (int_truediv ms 1000) as [sec|e0]; [|done].
        destruct (flt sec now); [done|].
        destruct (dict_get body "route") as [| | | | |[|x xs]|]; try done.
        destruct (existsb _ (x :: xs)); [done|].
        injection Hh as Hh. apply (f_equal (fun st => length (heap st))) in Hh.
        simpl in Hh. rewrite length_app in Hh. simpl in Hh. lia. }
      rewrite Heff in Hstep. rewrite Hu in Hu'. injection Hu' as <-.
      assert (heap (ext (core l')) = (heap (ext (core l)) ++ [trip])%list
              ∧ trip_of (ext (core l')) u = Some trip
              ∧ (e = BrokenResourceError ∧ phase_of l = ReceiveClosed
                 ∨ e = ClosedResourceError ∧ phase_of l = SendClosed))
        as (Hheap & Hstored & Hcase).
      { destruct (phase_of l); [|  | |done]; simpl in Hstep.
        - unfold send in Hstep.
          by destruct (length (queue _) <? QUEUE_CAPACITY)%nat.
        - injection Hstep as <- <-. split; [done|]. split; [|by left].
          unfold trip_of. simpl. rewrite lookup_insert_eq. simpl.
          by rewrite lookup_app_r, Nat.sub_diag by lia.
        - injection Hstep as <- <-. split; [done|]. split; [|by right].
          unfold trip_of. simpl. rewrite lookup_insert_eq. simpl.
          by rewrite lookup_app_r, Nat.sub_diag by lia. }
      split; [done|]. by exists u, trip.
  - intros l' o Hstep. unfold life_step in Hstep.
    destruct (woken l) as [|k ws]; [done|].
    apply Forall_cons in Hwoken as [[-> | ->] _]; simpl in Hstep;
      injection Hstep as <- <-; simpl; auto.
Qed.

End WholeLife.

(** *** The theorems at work *)

Lemma configure_stations_sorted_ids_witness :
  ∃ st',
    @configure_stations plain_builtins (VDict stations_21) initial = Ok st'
    ∧ st' = with_stations initial (_stations st')
    ∧ (_stations st').*1 ≡ₚ ["S2"; "S1"]
    ∧ Sorted String.le (_stations st').*1
    ∧ (NoDup ["S2"; "S1"] → NoDup (_stations st').*1)
    ∧ Forall (fun p => id p.2 = p.1) (_stations st').
Proof.
  eexists. split; [reflexivity|].
  apply (@configure_stations_sorted_ids plain_builtins stations_21 initial).
  reflexivity.
Defined.

Lemma configured_station_lookup_witness :
  @configure_stations plain_builtins (VDict stations_12) initial = Ok st_configured
  ∧ @stations_getitem (_stations st_configured) "S1"
    = Ok {| id := "S1";
            position := {| lat := f_47_47; lon := f_19_04; agl := fzero |} |}
  ∧ @stations_getitem (_stations st_configured) "S3" = Raise KeyError.
Proof.
  destruct (@configured_station_lookup plain_builtins stations_12 initial
              st_configured) as [Hany Hfloats]; [reflexivity|].
  split; [reflexivity|]. split.
  - apply (Hfloats "S1" f_19_04 f_47_47 []). reflexivity.
  - apply (Hany "S3").
Defined.


Lemma generate_waypoint_file_errors_witness :
  @generate_waypoint_file_from_route plain_builtins st_U3 (VStr "U2")
    (AInt 4) (AInt 1) (AInt 5) = Raise TypeError
  ∧ @generate_waypoint_file_from_route plain_builtins st_U3 (VStr "U3")
      (AInt 4) (AInt 1) (AInt 5) = Raise KeyError.
Proof.
  split.
  - apply (@generate_waypoint_file_errors plain_builtins st_U3 "U2"
             (AInt 4) (AInt 1) (AInt 5) "5.00" "4.00" "1.00");
      [discriminate | reflexivity..].
  - edestruct (@generate_waypoint_file_errors plain_builtins st_U3 "U3"
                 (AInt 4) (AInt 1) (AInt 5) "5.00" "4.00" "1.00")
      as [_ Hroute]; [discriminate | reflexivity..|].
    apply (Hroute (new_Trip "U3" (start_time trip_A) ["S1"; "S9"])
             ["S1"] "S9" []); [reflexivity | reflexivity | |discriminate].
    constructor; [|constructor]. eexists. reflexivity.
Defined.

Lemma generate_mission_from_route_entries_witness :
  @generate_mission_from_route plain_builtins st_U1 (VStr "U1")
    (AInt 4) (AInt 1) (AInt 5)
  = Ok [("waypoint.cfg",
         String.concat ""
           (WAYPOINT_INIT_STR
            :: (block_of st_U1 "5.00" "4.00" "1.00" <$> ["S1"; "S2"])));
        ("waypoint_ground.cfg", WAYPOINT_INIT_STR);
        ("choreography.cfg", choreography_text "5.00" "4.00" "1.00");
        ("mission.cfg", MISSION_STR);
        ("_meta/version", "1");
        ("_meta/name", "cascade_demo")].
Proof.
  apply (@generate_mission_from_route_entries plain_builtins st_U1 "U1" trip_A
           (AInt 4) (AInt 1) (AInt 5) "5.00" "4.00" "1.00");
    [discriminate | reflexivity | | reflexivity..].
  repeat constructor; eexists; reflexivity.
Defined.

Lemma mission_archive_names_witness :
  ∃ a,
    @generate_mission_from_route plain_builtins st_U1 (VStr "U1")
      (AInt 4) (AInt 1) (AInt 5) = Ok a
    ∧ a.*1 = ["waypoint.cfg"; "waypoint_ground.cfg"; "choreography.cfg";
              "mission.cfg"; "_meta/version"; "_meta/name"]
    ∧ names_entry a "waypoints.cfg" = false.
Proof.
  eexists. split; [reflexivity|].
  edestruct (@mission_archive_names plain_builtins st_U1 (VStr "U1")
               (AInt 4) (AInt 1) (AInt 5)) as (Hnames & _ & _ & Hnone);
    [reflexivity|].
  split; [exact Hnames | exact Hnone].
Defined.

Lemma uploading_trips_witness :
  @life_run plain_builtins acts_interrupted (life_start [])
  = Some (l_interrupted, obs_interrupted)
  ∧ consumer (ext (core l_interrupted)) = Sleeping 1
  ∧ status <$> heap (ext (core l_interrupted)) = [UPLOADING; UPLOADING]
  ∧ ∀ acts' l' os',
      @life_run plain_builtins acts' l_interrupted = Some (l', os') →
      consumer (ext (core l')) ≠ Sleeping 0
      ∧ ∃ t, heap (ext (core l')) !! 0%nat = Some t ∧ status t = UPLOADING.
Proof.
  split; [reflexivity|]. split; [reflexivity|]. split; [reflexivity|].
  destruct (@uploading_trips plain_builtins [] acts_interrupted l_interrupted
              obs_interrupted) as (_ & _ & Hstuck); [reflexivity|].
  intros acts' l' os'. apply Hstuck.
  unfold obs_interrupted. do 3 apply list_elem_of_further.
  apply list_elem_of_here.
Defined.

Lemma handler_exceptions_witness :
  phase_of l_closing = ReceiveClosed
  ∧ woken l_closing = [Throw BrokenResourceError]
  ∧ (∃ l', @life_step plain_builtins (In (Add now0 body_A')) l_closing
           = Some (l', Did (Handled (Raised BrokenResourceError)))
           ∧ status <$> trip_of (ext (core l')) "U1" = Some NEW
           ∧ route <$> trip_of (ext (core l')) "U1" = Some ["S2"; "S1"])
  ∧ ∀ l' o, @life_step plain_builtins Resume l_closing = Some (l', o) →
            ext (core l') = ext (core l_closing)
            ∧ (o = Did (Handled (Replied acknowledge))
               ∨ o = Did (Handled (Raised BrokenResourceError))).
Proof.
  split; [by vm_compute|]. split; [by vm_compute|].
  split; [eexists; split; [reflexivity|split; by vm_compute]|].
  destruct (@handler_exceptions plain_builtins [] acts_closing l_closing
              (replicate 32 (Did (Handled (Replied acknowledge)))
               ++ [Did (Handled Suspended); Interrupted None])%list)
    as [_ Hresume]; [by vm_compute|].
  exact Hresume.
Defined.


Lemma m_uploading_reachable : @reachable plain_builtins m_uploading.
Proof.
  apply (@run_reachable plain_builtins [Add now0 body_A; Receive; Begin] m0 _
           [Handled (Replied acknowledge); Received "U1"; Started "U1" 0]);
    [apply reachable_start | reflexivity].
Qed.

Lemma m_added_reachable : @reachable plain_builtins m_added.
Proof.
  apply (@run_reachable plain_builtins [Add now0 body_A] m0 _
           [Handled (Replied acknowledge)]);
    [apply reachable_start | reflexivity].
Qed.

Lemma m_full_reachable : @reachable plain_builtins m_full.
Proof.
  apply (@run_reachable plain_builtins (replicate 33 (Add now0 body_A)) m0 m_full
           (replicate 32 (Handled (Replied acknowledge)) ++ [Handled Suspended])%list);
    [apply reachable_start | by vm_compute].
Qed.

Lemma trip_status_advances_witness :
  heap (ext m_added) !! 0%nat = Some trip_A
  ∧ @step plain_builtins Begin (after [Add now0 body_A; Receive])
    = Some (m_uploading, Started "U1" 0)
  ∧ ∃ t', heap (ext m_uploading) !! 0%nat = Some t'
          ∧ uav_id t' = "U1" ∧ route t' = ["S1"; "S2"]
          ∧ advances NEW (status t').
Proof.
  split; [reflexivity|]. split; [reflexivity|].
  destruct (@trip_status_advances plain_builtins Begin
              (after [Add now0 body_A; Receive]) m_uploading (Started "U1" 0)
              0%nat trip_A)
    as (t' & Ht' & Hid & _ & Hroute & Hadv & _); [|reflexivity..|].
  - apply (@run_reachable plain_builtins [Add now0 body_A; Receive] m0 _
             [Handled (Replied acknowledge); Received "U1"]);
      [apply reachable_start | reflexivity].
  - exists t'. by repeat split.
Defined.

Lemma command_queue_bounded_witness :
  parked (ext m_full) = ["U1"]
  ∧ (length (queue (ext m_full)) ≤ 32)%nat
  ∧ (parked (ext m_full) ≠ [] → length (queue (ext m_full)) = 32%nat).
Proof.
  split; [by vm_compute|].
  apply (@command_queue_bounded plain_builtins m_full m_full_reachable).
Defined.

Lemma cancelled_trip_not_uploaded_witness :
  @step plain_builtins (Cancel cancel_U1) m_added
  = Some (m_cancelled, Handled (Replied acknowledge))
  ∧ queue (ext m_cancelled) = ["U1"]
  ∧ (∀ acts m2 os,
       @run plain_builtins acts m_cancelled = Some (m2, os) →
       uploads_of 0 os = 0%nat
       ∧ heap (ext m2) !! 0%nat = Some trip_A
       ∧ _trips (ext m2) !! "U1" ≠ Some 0%nat)
  ∧ (snd <$> @run plain_builtins [Receive; Begin] m_cancelled)
    = Some [Received "U1"; Skipped "U1"]
  ∧ (snd <$> @run plain_builtins [Add now0 body_A'; Receive; Begin] m_cancelled)
    = Some [Handled (Replied acknowledge); Received "U1"; Started "U1" 1].
Proof.
  split; [reflexivity|]. split; [reflexivity|].
  split; [|split; reflexivity].
  destruct (@cancelled_trip_not_uploaded plain_builtins cancel_U1 m_added
              m_cancelled (Handled (Replied acknowledge))
              "U1" 0%nat trip_A m_added_reachable)
    as (_ & _ & _ & _ & Hnew & _); [reflexivity..|].
  apply Hnew. reflexivity.
Defined.

Lemma stored_trips_well_formed_witness :
  trip_of (ext m_uploading) "U1" = Some (set_status UPLOADING trip_A)
  ∧ (∀ u t, trip_of (ext m_uploading) u = Some t → uav_id t = u)
  ∧ (∀ r t, heap (ext m_uploading) !! r = Some t → route t ≠ []).
Proof.
  split; [reflexivity|].
  apply (@stored_trips_well_formed plain_builtins m_uploading
           m_uploading_reachable).
Defined.

End CascadeDemoMore.
